(** * UltraTechDetector: the detection engine, embedded and verified

    A shallow embedding of the Go package [techdetect]
    (query.go, http_detector.go, detector.go, browser_detector.go, types.go)
    and the properties of its specification.

    Conventions of the embedding.
    - A Go [string] is a Rocq [string], a sequence of bytes.
    - A Go [error] is the string its [Error()] method returns; a function
      that returns [(T, error)] returns a [result T].
    - A Go [map] is a stdpp [gmap], and a loop that ranges over it follows
      [map_to_list], one of the orders the Go runtime may pick. A
      [map[string]interface{}] decoded from JSON, which the evaluator
      ranges over and leaves at the first key it meets, is an association
      list whose order stands for the order the runtime picks.
    - Maps are values here, though they are references in Go: the package
      never writes to a map that it still reads under another name
      ([DetectBrowser] fills a new map before it writes, and
      [addImpliedTechnologies] returns the map it was given).
    - A [*Technology] is a location of an explicit heap: the maps of the
      HTTP stage and of the browser stage hold the same pointers, and a
      write through one is seen through the other.
    - The HTTP client, the clock, the regexp engine and the headless browser
      are outside the package: they are interfaces (type classes), and the
      theorems hold for every instance. The state of the outside is
      threaded through the engine in a state monad. *)

From Stdlib Require Import ZArith String List Ascii Bool Lia DecimalString.
From stdpp Require Import base option list gmap strings.

Set Warnings "-register-all,-clear-no-such-hyp".
Local Open Scope string_scope.

(** ** Go's [strings] package, as far as the package uses it *)

Definition Contains (s substr : string) : bool :=
  match String.index 0 substr s with Some _ => true | None => false end.

Definition Index (s substr : string) : Z :=
  match String.index 0 substr s with Some n => Z.of_nat n | None => (-1)%Z end.

Definition HasPrefix (s pre : string) : bool := String.prefix pre s.

(** [s[a:b]] and [s[a:]] *)
Definition slice (s : string) (a b : nat) : string := String.substring a (b - a) s.
Definition sliceFrom (s : string) (a : nat) : string :=
  String.substring a (String.length s - a) s.

Definition HasSuffix (s suf : string) : bool :=
  (String.length suf <=? String.length s)%nat
  && String.eqb (sliceFrom s (String.length s - String.length suf)) suf.

Definition TrimSuffix (s suf : string) : string :=
  if HasSuffix s suf then slice s 0 (String.length s - String.length suf) else s.

Fixpoint lastIndexFrom (substr s : string) (i : nat) (found : Z) : Z :=
  match s with
  | EmptyString => found
  | String _ rest =>
      lastIndexFrom substr rest (S i)
        (if String.prefix substr s then Z.of_nat i else found)
  end.

Definition LastIndex (s substr : string) : Z := lastIndexFrom substr s 0 (-1)%Z.

(** [strings.Split] for a non-empty separator (every call site passes a
    constant one): [skip] counts the bytes of a separator still to drop. *)
Fixpoint splitFrom (sep : string) (skip : nat) (cur s : string) : list string :=
  match s with
  | EmptyString => [cur]
  | String c rest =>
      match skip with
      | S k => splitFrom sep k cur rest
      | O =>
          if String.prefix sep s
          then cur :: splitFrom sep (String.length sep - 1) "" rest
          else splitFrom sep 0 (cur +:+ String c "") rest
      end
  end.

Definition Split (s sep : string) : list string := splitFrom sep 0 "" s.

Definition Join (elems : list string) (sep : string) : string := String.concat sep elems.

(** [strings.EqualFold], with the case folding of ASCII letters only: the
    strings it compares here are header names and host names. *)
Definition lowerAscii (c : ascii) : ascii :=
  let n := nat_of_ascii c in
  if ((65 <=? n) && (n <=? 90))%nat then ascii_of_nat (n + 32) else c.

Fixpoint EqualFold (s t : string) : bool :=
  match s, t with
  | EmptyString, EmptyString => true
  | String a s', String b t' => Ascii.eqb (lowerAscii a) (lowerAscii b) && EqualFold s' t'
  | _, _ => false
  end.

(** ** types.go *)

(** [interface{}] as [encoding/json] decodes it. A JSON number is kept as
    an integer: the evaluator only ever asks whether a value is a string, a
    boolean, a list or a map. *)
Inductive Value : Type :=
| VNil
| VBool (b : bool)
| VNum (n : Z)
| VStr (s : string)
| VList (l : list Value)
| VMap (m : list (string * Value)).

(** [map[string]interface{}] *)
Definition Query : Type := list (string * Value).

Record Technology := mkTechnology { Name : string; Version : string }.

Record RequestConfig := mkRequestConfig {
  Method : string;
  ReqHeaders : gmap string string;
  ReqBody : Value
}.

Record PathProbe := mkPathProbe {
  Path : string;
  Request : option RequestConfig;
  DetectQuery : Query;
  ExtractVersionRules : list (list (string * string))
}.

Record BrowserProbe := mkBrowserProbe {
  bp_Path : string;
  Detection : string;
  bp_Version : string
}.

Record Fingerprint := mkFingerprint {
  Cats : list Z;
  Implies : list string;
  Paths : list PathProbe;
  Browser : list BrowserProbe
}.

Record DetectionContext := mkDetectionContext {
  Body : string;
  Headers : gmap string string;
  StatusCode : Z
}.

Definition HasDetectionCapability (bp : BrowserProbe) : bool :=
  negb (String.eqb (Detection bp) "").

Definition HasVersionCapability (bp : BrowserProbe) : bool :=
  negb (String.eqb (bp_Version bp) "").

(** ** query.go *)

(** Go's [regexp] package: [Compile] fails on an unparseable pattern,
    [FindStringSubmatch] returns the whole match followed by the capture
    groups, or nothing when the pattern does not match. *)
Class RegexpLib := {
  Regexp : Type;
  Compile : string → option Regexp;
  FindStringSubmatch : Regexp → string → list string
}.

Section QueryEvaluator.
Context {RL : RegexpLib}.

(** The case-insensitive header loop of [getFieldValue]. *)
Fixpoint rangeHeaders (headerName : string) (hs : list (string * string)) : string :=
  match hs with
  | [] => ""
  | (k, v) :: rest => if EqualFold k headerName then v else rangeHeaders headerName rest
  end.

Definition getFieldValue (fieldPath : string) (ctx : DetectionContext) : string :=
  let parts := Split fieldPath "." in
  if String.eqb (nth 0 parts "") "body" then Body ctx
  else if String.eqb (nth 0 parts "") "headers" && (1 <? length parts)%nat then
    let headerName := Join (tl parts) "." in
    rangeHeaders headerName (map_to_list (Headers ctx))
  else "".

Definition evaluateRegex (fieldValue : string) (pattern : Value) : bool * string :=
  match pattern with
  | VStr patternStr =>
      let parts := Split patternStr "\;version:" in
      let actualPattern := nth 0 parts "" in
      match Compile actualPattern with
      | None => (false, "")
      | Some re =>
          let matches := FindStringSubmatch re fieldValue in
          if (length matches =? 0)%nat then (false, "")
          else
            let version :=
              if (1 <? length parts)%nat && (1 <? length matches)%nat
              then nth 1 matches "" else "" in
            (true, version)
      end
  | _ => (false, "")
  end.

Definition evaluateEquals (fieldValue : string) (operand : Value) : bool * string :=
  match operand with
  | VStr expectedValue => (String.eqb fieldValue expectedValue, "")
  | _ => (false, "")
  end.

Definition evaluateNotEquals (fieldValue : string) (operand : Value) : bool * string :=
  match operand with
  | VStr expectedValue => (negb (String.eqb fieldValue expectedValue), "")
  | _ => (false, "")
  end.

Definition evaluateExists (fieldValue : string) (operand : Value) : bool * string :=
  match operand with
  | VBool shouldExist =>
      let exists_ := negb (String.eqb fieldValue "") in
      (Bool.eqb exists_ shouldExist, "")
  | _ => (false, "")
  end.

Fixpoint rangeIn (fieldValue : string) (values : list Value) : bool :=
  match values with
  | [] => false
  | VStr strValue :: rest =>
      if String.eqb fieldValue strValue then true else rangeIn fieldValue rest
  | _ :: rest => rangeIn fieldValue rest
  end.

Definition evaluateIn (fieldValue : string) (operand : Value) : bool * string :=
  match operand with
  | VList values => (rangeIn fieldValue values, "")
  | _ => (false, "")
  end.

Definition evaluateNotIn (fieldValue : string) (operand : Value) : bool * string :=
  match operand with
  | VList values => (negb (rangeIn fieldValue values), "")
  | _ => (false, "")
  end.

(** The operator loop of [evaluateField]: the first known operator decides,
    unknown keys are passed over. *)
Fixpoint rangeOperators (fieldValue : string) (condMap : list (string * Value))
  : bool * string :=
  match condMap with
  | [] => (false, "")
  | (operator, operand) :: rest =>
      if String.eqb operator "$regex" then evaluateRegex fieldValue operand
      else if String.eqb operator "$eq" then evaluateEquals fieldValue operand
      else if String.eqb operator "$ne" then evaluateNotEquals fieldValue operand
      else if String.eqb operator "$exists" then evaluateExists fieldValue operand
      else if String.eqb operator "$in" then evaluateIn fieldValue operand
      else if String.eqb operator "$nin" then evaluateNotIn fieldValue operand
      else rangeOperators fieldValue rest
  end.

Definition evaluateField (fieldPath : string) (condition : Value) (ctx : DetectionContext)
  : bool * string :=
  let fieldValue := getFieldValue fieldPath ctx in
  if String.eqb fieldValue "" then (false, "")
  else
    match condition with
    | VMap condMap => rangeOperators fieldValue condMap
    | _ => (false, "")
    end.

(** The combinators call back into [evaluateQuery]; they are written over
    the function they recurse through, and the knot is tied below. *)
Section Combinators.
Variable evaluateQuery : Query → DetectionContext → bool * string.

Fixpoint rangeOr (ctx : DetectionContext) (conds : list Value) : bool * string :=
  match conds with
  | [] => (false, "")
  | VMap condMap :: rest =>
      let '(match_, version) := evaluateQuery condMap ctx in
      if match_ then (true, version) else rangeOr ctx rest
  | _ :: rest => rangeOr ctx rest
  end.

Definition evaluateOr (value : Value) (ctx : DetectionContext) : bool * string :=
  match value with
  | VList conditions => rangeOr ctx conditions
  | _ => (false, "")
  end.

Fixpoint rangeAnd (ctx : DetectionContext) (version : string) (conds : list Value)
  : bool * string :=
  match conds with
  | [] => (true, version)
  | VMap condMap :: rest =>
      let '(match_, v) := evaluateQuery condMap ctx in
      if negb match_ then (false, "")
      else rangeAnd ctx (if negb (String.eqb v "") then v else version) rest
  | _ :: _ => (false, "")
  end.

Definition evaluateAnd (value : Value) (ctx : DetectionContext) : bool * string :=
  match value with
  | VList conditions => rangeAnd ctx "" conditions
  | _ => (false, "")
  end.

Definition evaluateNot (value : Value) (ctx : DetectionContext) : bool * string :=
  match value with
  | VMap condMap =>
      let '(match_, _) := evaluateQuery condMap ctx in (negb match_, "")
  | _ => (false, "")
  end.

Fixpoint rangeNor (ctx : DetectionContext) (conds : list Value) : bool * string :=
  match conds with
  | [] => (true, "")
  | VMap condMap :: rest =>
      let '(match_, _) := evaluateQuery condMap ctx in
      if match_ then (false, "") else rangeNor ctx rest
  | _ :: rest => rangeNor ctx rest
  end.

Definition evaluateNor (value : Value) (ctx : DetectionContext) : bool * string :=
  match value with
  | VList conditions => rangeNor ctx conditions
  | _ => (false, "")
  end.

End Combinators.

(** [for key, value := range query { switch key {...} }]: every case
    returns, so the first key the iteration yields decides. *)
Definition rangeQuery (body : string → Value → DetectionContext → bool * string)
    (query : Query) (ctx : DetectionContext) : bool * string :=
  match query with
  | [] => (false, "")
  | (key, value) :: _ => body key value ctx
  end.

Fixpoint evaluateKey (key : string) (value : Value) (ctx : DetectionContext) {struct value}
  : bool * string :=
  if String.eqb key "$or" then evaluateOr (rangeQuery evaluateKey) value ctx
  else if String.eqb key "$and" then evaluateAnd (rangeQuery evaluateKey) value ctx
  else if String.eqb key "$not" then evaluateNot (rangeQuery evaluateKey) value ctx
  else if String.eqb key "$nor" then evaluateNor (rangeQuery evaluateKey) value ctx
  else evaluateField key value ctx.

Definition evaluateQuery : Query → DetectionContext → bool * string :=
  rangeQuery evaluateKey.

Definition Evaluate (query : Query) (ctx : DetectionContext) : bool * string :=
  evaluateQuery query ctx.

(** [ExtractVersion]: the inner loop over one rule's fields. *)
Fixpoint rangeRule (rule : list (string * string)) (ctx : DetectionContext) : option string :=
  match rule with
  | [] => None
  | (field, pattern) :: rest =>
      let fieldValue := getFieldValue field ctx in
      if String.eqb fieldValue "" then rangeRule rest ctx
      else
        match Compile pattern with
        | None => rangeRule rest ctx
        | Some re =>
            let matches := FindStringSubmatch re fieldValue in
            if (1 <? length matches)%nat then Some (nth 1 matches "")
            else rangeRule rest ctx
        end
  end.

Fixpoint ExtractVersion (rules : list (list (string * string))) (ctx : DetectionContext)
  : string :=
  match rules with
  | [] => ""
  | rule :: rest =>
      match rangeRule rule ctx with
      | Some v => v
      | None => ExtractVersion rest ctx
      end
  end.

End QueryEvaluator.

(** ** The machine the engine runs on *)

(** A Go [(T, error)] pair. *)
Inductive result (A : Type) : Type :=
| Ok (a : A)
| Err (e : string).
Arguments Ok {A} a.
Arguments Err {A} e.

(** [*Technology]: a location of the heap. *)
Abbreviation loc := positive.

(** [map[string]*Technology] *)
Abbreviation Results := (gmap string loc).

(** [net/http]'s request and response. [resp_Body] is what [io.ReadAll]
    yields on the response body. *)
Record HTTPRequest := mkHTTPRequest {
  req_Method : string;
  req_URL : string;
  req_Header : gmap string (list string)
}.

Record Response := mkResponse {
  resp_StatusCode : Z;
  resp_Header : gmap string (list string);
  resp_Body : result string
}.

(** What lies outside the package: the HTTP client and the clock, and the
    headless browser. [World] is the state of that outside; each call may
    change it, so that two requests for one URL need not agree. *)
Class HTTPLib (World : Type) := {
  NewRequestError : string → string → option string;
  CanonicalHeaderKey : string → string;
  Do : HTTPRequest → World → result Response * World;
  Sleep : Z → World → World
}.

Class Chromedp (World : Type) := {
  Navigate : string → World → option string * World;
  WaitReady : string → World → option string * World;
  EvaluateBool : string → World → result bool * World;
  EvaluateString : string → World → result string * World
}.

Record Machine (World : Type) := mkMachine {
  world : World;
  heap : gmap loc Technology
}.
Arguments mkMachine {World} world heap.
Arguments world {World} m.
Arguments heap {World} m.

(** The state monad of the engine. *)
Definition M (World A : Type) : Type := Machine World → A * Machine World.

Definition ret {World A} (a : A) : M World A := λ st, (a, st).
Definition bind {World A B} (m : M World A) (k : A → M World B) : M World B :=
  λ st, let '(a, st') := m st in k a st'.

#[global] Instance M_ret {World} : MRet (M World) := λ A, ret.
#[global] Instance M_bind {World} : MBind (M World) := λ A B k m, bind m k.

Definition onWorld {World A} (f : World → A * World) : M World A :=
  λ st, let '(a, w) := f (world st) in (a, mkMachine w (heap st)).

(** [&Technology{...}] *)
Definition new {World} (t : Technology) : M World loc :=
  λ st, let l := fresh (dom (heap st)) in (l, mkMachine (world st) (<[l := t]> (heap st))).

(** [p.Version]; every pointer the engine follows is one it has stored. *)
Definition loadVersion {World} (l : loc) : M World string :=
  λ st, (from_option Version "" (heap st !! l), st).

(** [p.Version = v] *)
Definition storeVersion {World} (l : loc) (v : string) : M World unit :=
  λ st, (tt, mkMachine (world st)
               (alter (λ t, mkTechnology (Name t) v) l (heap st))).

(** ** http_detector.go: the fetch pipeline *)

Definition MaxRetries : nat := 1.
Definition MaxRedirects : nat := 3.
Definition Second : Z := 1000000000.
Definition RequestTimeout : Z := 10 * Second.
Definition InitialBackoff : Z := 1 * Second.

Definition parseURL (urlStr : string) : result (gmap string string) :=
  let schemeEnd := Index urlStr "://" in
  if (schemeEnd =? -1)%Z then Err "invalid URL: no scheme"
  else
    let schemeEnd := Z.to_nat schemeEnd in
    let parts : gmap string string := <["scheme" := slice urlStr 0 schemeEnd]> ∅ in
    let rest := sliceFrom urlStr (schemeEnd + 3) in
    let slashIdx := Index rest "/" in
    let hostPort :=
      if (slashIdx =? -1)%Z then rest else slice rest 0 (Z.to_nat slashIdx) in
    let colonIdx := LastIndex hostPort ":" in
    if negb (colonIdx =? -1)%Z then
      Ok (<["port" := sliceFrom hostPort (Z.to_nat colonIdx + 1)]>
            (<["host" := slice hostPort 0 (Z.to_nat colonIdx)]> parts))
    else
      let parts := <["host" := hostPort]> parts in
      if String.eqb (parts !!! "scheme") "https"
      then Ok (<["port" := "443"]> parts)
      else Ok (<["port" := "80"]> parts).

Definition resolveURL (base relative : string) : result string :=
  if HasPrefix relative "http://" || HasPrefix relative "https://" then Ok relative
  else if HasPrefix relative "//" then
    match parseURL base with
    | Err e => Err e
    | Ok baseParts => Ok ((baseParts !!! "scheme") +:+ ":" +:+ relative)
    end
  else if HasPrefix relative "/" then
    let schemeEnd := Index base "://" in
    if (schemeEnd =? -1)%Z then Err "invalid base URL"
    else
      let schemeEnd := Z.to_nat schemeEnd in
      let rest := sliceFrom base (schemeEnd + 3) in
      let slashIdx := Index rest "/" in
      let basePrefix :=
        if (slashIdx =? -1)%Z then base
        else slice base 0 (schemeEnd + 3 + Z.to_nat slashIdx) in
      Ok (basePrefix +:+ relative)
  else if HasSuffix base "/" then Ok (base +:+ relative)
  else Ok (base +:+ "/" +:+ relative).

Definition isSameDomain (url1 url2 : gmap string string) : bool :=
  EqualFold (url1 !!! "host") (url2 !!! "host").

(** One turn of the loop that keeps the first occurrence of each header. *)
Definition collectHeader (allHeaders : gmap string string) (kv : string * list string)
  : gmap string string :=
  let '(k, v) := kv in
  if (0 <? length v)%nat then
    match allHeaders !! k with
    | None => <[k := nth 0 v ""]> allHeaders
    | Some _ => allHeaders
    end
  else allHeaders.

Definition collectHeaders (allHeaders : gmap string string) (header : gmap string (list string))
  : gmap string string :=
  foldl collectHeader allHeaders (map_to_list header).

(** The context [makeRequest] returns once the loop is left. *)
Definition contextOf (allBodies : list string) (allHeaders : gmap string string)
  : DetectionContext :=
  mkDetectionContext (Join allBodies (String "010"%char "")) allHeaders 200.

Section FetchPipeline.
Context {World : Type} {HL : HTTPLib World}.

Definition NewRequest (method url : string) : result HTTPRequest :=
  match NewRequestError method url with
  | Some e => Err e
  | None => Ok (mkHTTPRequest method url ∅)
  end.

(** [req.Header.Set(k, v)] *)
Definition HeaderSet (req : HTTPRequest) (kv : string * string) : HTTPRequest :=
  mkHTTPRequest (req_Method req) (req_URL req)
    (<[CanonicalHeaderKey kv.1 := [kv.2]]> (req_Header req)).

(** [resp.Header.Get(key)] *)
Definition HeaderGet (header : gmap string (list string)) (key : string) : string :=
  match header !! CanonicalHeaderKey key with
  | Some (v :: _) => v
  | _ => ""
  end.

(** The [for] loop of [makeRequest]. [redirectCount] only grows, and the
    loop goes round again only below [MaxRedirects]: the loop is written by
    recursion on [left = MaxRedirects - redirectCount], the hops still
    allowed, so that [redirectCount >= MaxRedirects] reads [left = 0]. *)
Fixpoint followRedirects (left : nat) (reqConfig : option RequestConfig)
    (currentURL : string) (allBodies : list string) (allHeaders : gmap string string)
    {struct left} : M World (result DetectionContext) :=
  let method :=
    match reqConfig with
    | Some c => if negb (String.eqb (Method c) "") then Method c else "GET"
    | None => "GET"
    end in
  match NewRequest method currentURL with
  | Err err => ret (Err err)
  | Ok req =>
      let req :=
        match reqConfig with
        | Some c => foldl HeaderSet req (map_to_list (ReqHeaders c))
        | None => req
        end in
      r ← onWorld (Do req);
      match r with
      | Err err => ret (Err err)
      | Ok resp =>
          match resp_Body resp with
          | Err err => ret (Err err)
          | Ok bodyBytes =>
              let allHeaders := collectHeaders allHeaders (resp_Header resp) in
              let allBodies :=
                if (0 <? String.length bodyBytes)%nat
                then (allBodies ++ [bodyBytes])%list else allBodies in
              let stop := ret (Ok (contextOf allBodies allHeaders)) in
              if (300 <=? resp_StatusCode resp)%Z && (resp_StatusCode resp <? 400)%Z then
                let location := HeaderGet (resp_Header resp) "Location" in
                if String.eqb location "" then stop
                else
                  match left with
                  | O => stop
                  | S left' =>
                      match parseURL currentURL with
                      | Err _ => stop
                      | Ok currentURLParsed =>
                          match resolveURL currentURL location with
                          | Err _ => stop
                          | Ok redirectURL =>
                              match parseURL redirectURL with
                              | Err _ => stop
                              | Ok redirectURLParsed =>
                                  if negb (isSameDomain currentURLParsed redirectURLParsed)
                                  then stop
                                  else followRedirects left' reqConfig redirectURL
                                         allBodies allHeaders
                              end
                          end
                      end
                  end
              else stop
          end
      end
  end.

Definition makeRequest (url : string) (reqConfig : option RequestConfig)
  : M World (result DetectionContext) :=
  followRedirects MaxRedirects reqConfig url [] ∅.

Definition itoa (n : nat) : string := NilEmpty.string_of_uint (Nat.to_uint n).

(** [fmt.Errorf("failed after %d retries: %w", MaxRetries, lastErr)] *)
Definition retriesError (lastErr : option string) : string :=
  "failed after " +:+ itoa MaxRetries +:+ " retries: "
  +:+ from_option id "%!w(<nil>)" lastErr.

(** [InitialBackoff * time.Duration(math.Pow(2, float64(retry)))]; the power
    of two is exact in floating point for the small [retry] of the loop. *)
Definition backoff (retry : nat) : Z := (InitialBackoff * 2 ^ Z.of_nat retry)%Z.

(** The loop [for retry := 0; retry <= MaxRetries; retry++], by recursion on
    the turns still to take, [MaxRetries + 1 - retry]. *)
Fixpoint retryLoop (turns retry : nat) (url : string) (reqConfig : option RequestConfig)
    (lastErr : option string) : M World (result DetectionContext) :=
  match turns with
  | O => ret (Err (retriesError lastErr))
  | S turns' =>
      r ← makeRequest url reqConfig;
      match r with
      | Ok ctx => ret (Ok ctx)
      | Err err =>
          _ ← (if (retry <? MaxRetries)%nat
               then onWorld (λ w, (tt, Sleep (backoff retry) w))
               else ret tt);
          retryLoop turns' (S retry) url reqConfig (Some err)
      end
  end.

Definition requestWithRetry (url : string) (reqConfig : option RequestConfig)
  : M World (result DetectionContext) :=
  retryLoop (MaxRetries + 1) 0 url reqConfig None.

End FetchPipeline.

(** A [for ... range] loop whose body runs in the machine. *)
Fixpoint foldM {World A B} (f : A → B → M World A) (a : A) (l : list B) : M World A :=
  match l with
  | [] => mret a
  | x :: l' => a' ← f a x; foldM f a' l'
  end.

(** ** http_detector.go: classification and the detection loop *)

Record PathClassification := mkPathClassification {
  pc_Path : string;
  RequestConf : option RequestConfig;
  Technologies : gmap string (list PathProbe)
}.

(** [pathMap[key].Technologies[techName] = append(..., probe)] *)
Definition appendProbe (techName : string) (probe : PathProbe) (pc : PathClassification)
  : PathClassification :=
  mkPathClassification (pc_Path pc) (RequestConf pc)
    (<[techName := (default [] (Technologies pc !! techName) ++ [probe])%list]>
       (Technologies pc)).

(** The body of the inner loop of [ClassifyByPath]. *)
Definition classifyProbe (techName : string) (pathMap : gmap string PathClassification)
    (probe : PathProbe) : gmap string PathClassification :=
  let key := Path probe in
  let pathMap :=
    match pathMap !! key with
    | None => <[key := mkPathClassification (Path probe) (Request probe) ∅]> pathMap
    | Some _ => pathMap
    end in
  alter (appendProbe techName probe) key pathMap.

Definition classifyFingerprint (pathMap : gmap string PathClassification)
    (kv : string * Fingerprint) : gmap string PathClassification :=
  foldl (classifyProbe kv.1) pathMap (Paths kv.2).

Definition classifyAll (fingerprints : gmap string Fingerprint)
  : gmap string PathClassification :=
  foldl classifyFingerprint ∅ (map_to_list fingerprints).

Definition ClassifyByPath (fingerprints : gmap string Fingerprint)
  : list PathClassification :=
  (map_to_list (classifyAll fingerprints)).*2.

(** The body of the loop that marks paths failed after a fatal network
    error; the loop ranges over [pathClassifications], all of it. *)
Definition markFailed (failedPaths : list string) (remainingClass : PathClassification)
  : list string :=
  let alreadyFailed := existsb (λ fp, String.eqb fp (pc_Path remainingClass)) failedPaths in
  if negb alreadyFailed then (failedPaths ++ [pc_Path remainingClass])%list
  else failedPaths.

Section DetectionLoop.
Context {World : Type} {HL : HTTPLib World} {RL : RegexpLib}.

(** The loop over the probes of one technology: the first probe that
    detects decides, and yields the version to record. *)
Fixpoint rangeProbes (probes : list PathProbe) (ctx : DetectionContext) : option string :=
  match probes with
  | [] => None
  | probe :: rest =>
      let '(detected, version) := Evaluate (DetectQuery probe) ctx in
      if detected then
        Some (if String.eqb version "" && (0 <? length (ExtractVersionRules probe))%nat
              then ExtractVersion (ExtractVersionRules probe) ctx
              else version)
      else rangeProbes rest ctx
  end.

Definition detectTechnology (ctx : DetectionContext) (results : Results)
    (kv : string * list PathProbe) : M World Results :=
  match rangeProbes kv.2 ctx with
  | None => mret results
  | Some version =>
      l ← new (mkTechnology kv.1 version);
      mret (<[kv.1 := l]> results)
  end.

(** The loop of [DetectHTTP] over the classified paths still to process. *)
Fixpoint rangeClassifications (baseURL : string)
    (pathClassifications todo : list PathClassification)
    (results : Results) (failedPaths : list string)
  : M World (Results * list string) :=
  match todo with
  | [] => mret (results, failedPaths)
  | classification :: rest =>
      let fullURL := TrimSuffix baseURL "/" +:+ pc_Path classification in
      r ← requestWithRetry fullURL (RequestConf classification);
      match r with
      | Err errStr =>
          let failedPaths := (failedPaths ++ [pc_Path classification])%list in
          if Contains errStr "no such host" || Contains errStr "network is unreachable"
          then mret (results, foldl markFailed failedPaths pathClassifications)
          else rangeClassifications baseURL pathClassifications rest results failedPaths
      | Ok ctx =>
          results ← foldM (detectTechnology ctx) results
                      (map_to_list (Technologies classification));
          rangeClassifications baseURL pathClassifications rest results failedPaths
      end
  end.

Definition DetectHTTP (baseURL : string) (fingerprints : gmap string Fingerprint)
  : M World (Results * list string) :=
  let pathClassifications := ClassifyByPath fingerprints in
  rangeClassifications baseURL pathClassifications pathClassifications ∅ [].

End DetectionLoop.

(** ** browser_detector.go *)

Record BrowserPathClassification := mkBrowserPathClassification {
  bpc_Path : string;
  bpc_Technologies : gmap string (list BrowserProbe)
}.

Definition appendBrowserProbe (techName : string) (probe : BrowserProbe)
    (pc : BrowserPathClassification) : BrowserPathClassification :=
  mkBrowserPathClassification (bpc_Path pc)
    (<[techName := (default [] (bpc_Technologies pc !! techName) ++ [probe])%list]>
       (bpc_Technologies pc)).

Definition classifyBrowserProbe (techName : string)
    (pathMap : gmap string BrowserPathClassification) (probe : BrowserProbe)
  : gmap string BrowserPathClassification :=
  let key := bp_Path probe in
  let pathMap :=
    match pathMap !! key with
    | None => <[key := mkBrowserPathClassification (bp_Path probe) ∅]> pathMap
    | Some _ => pathMap
    end in
  alter (appendBrowserProbe techName probe) key pathMap.

Definition ClassifyBrowserByPath (fingerprints : gmap string Fingerprint)
  : list BrowserPathClassification :=
  (map_to_list
     (foldl (λ pathMap kv, foldl (classifyBrowserProbe kv.1) pathMap (Browser kv.2))
        ∅ (map_to_list fingerprints))).*2.

Section BrowserStage.
Context {World : Type} {CD : Chromedp World}.

Definition ShouldRunBrowserDetection (techName : string) (results : Results)
    (probe : BrowserProbe) : M World bool :=
  match results !! techName with
  | None => mret (HasDetectionCapability probe)
  | Some tech =>
      v ← loadVersion tech;
      if negb (String.eqb v "") then mret false
      else mret (HasVersionCapability probe)
  end.

(** [fmt.Sprintf("(function(){ %s })()", js)] *)
Definition wrapScript (js : string) : string := "(function(){ " +:+ js +:+ " })()".

(** The loop over the browser probes of one technology; a [break] ends it. *)
Fixpoint rangeBrowserProbes (techName : string) (probes : list BrowserProbe)
    (results : Results) : M World Results :=
  match probes with
  | [] => mret results
  | probe :: rest =>
      run ← ShouldRunBrowserDetection techName results probe;
      if negb run then rangeBrowserProbes techName rest results
      else
        detected ←
          ((if negb (String.eqb (Detection probe) "") then
             r ← onWorld (EvaluateBool (wrapScript (Detection probe)));
             mret (match r with Ok result => result | Err _ => false end)
           else mret false) : M World bool);
        version ←
          ((if detected
              || (bool_decide (is_Some (results !! techName))
                  && negb (String.eqb (bp_Version probe) ""))
           then
             if negb (String.eqb (bp_Version probe) "") then
               r ← onWorld (EvaluateString (wrapScript (bp_Version probe)));
               mret (match r with Ok versionResult => versionResult | Err _ => "" end)
             else mret ""
           else mret "") : M World string);
        if (detected : bool) then
          match results !! techName with
          | None =>
              l ← new (mkTechnology techName version);
              mret (<[techName := l]> results)
          | Some tech =>
              v ← loadVersion tech;
              if negb (String.eqb version "") && String.eqb v ""
              then _ ← storeVersion tech version; mret results
              else mret results
          end
        else
          match results !! techName with
          | Some tech =>
              v ← loadVersion tech;
              if negb (String.eqb version "") && String.eqb v ""
              then _ ← storeVersion tech version; mret results
              else rangeBrowserProbes techName rest results
          | None => rangeBrowserProbes techName rest results
          end
  end.

Definition browsePath (baseURL : string) (results : Results)
    (classification : BrowserPathClassification) : M World Results :=
  let fullURL := TrimSuffix baseURL "/" +:+ bpc_Path classification in
  err ← onWorld (Navigate fullURL);
  match err with
  | Some _ => mret results
  | None =>
      err ← onWorld (WaitReady "body");
      match err with
      | Some _ => mret results
      | None =>
          foldM (λ results kv, rangeBrowserProbes kv.1 kv.2 results) results
            (map_to_list (bpc_Technologies classification))
      end
  end.

(** [DetectBrowser]. The new map [results] gets the pointers of
    [httpResults], not copies of the records behind them. Every [return]
    of the function carries a nil error. *)
Definition DetectBrowser (baseURL : string) (fingerprints : gmap string Fingerprint)
    (httpResults : Results) : M World (result Results) :=
  let results : Results := map_fold (λ k v results, <[k := v]> results) ∅ httpResults in
  let pathClassifications := ClassifyBrowserByPath fingerprints in
  if (length pathClassifications =? 0)%nat then mret (Ok results)
  else
    results ← foldM (browsePath baseURL) results pathClassifications;
    mret (Ok results).

End BrowserStage.

(** ** detector.go *)

Record DetectResult := mkDetectResult {
  dr_Technologies : list Technology;
  FailedPaths : list string
}.

(** The names a run of the closure can add: every name some fingerprint
    implies. The closure loop goes round at most once more than there are
    such names, since every round but the last adds one of them. *)
Definition impliedNames (fingerprints : gmap string Fingerprint) : list string :=
  concat (Implies <$> (map_to_list fingerprints).*2).

Section Engine.
Context {World : Type} {HL : HTTPLib World} {CD : Chromedp World} {RL : RegexpLib}.

(** The body of the loop over [fp.Implies]. *)
Definition addImplied (acc : Results * bool) (implied : string)
  : M World (Results * bool) :=
  match acc.1 !! implied with
  | Some _ => mret acc
  | None =>
      l ← new (mkTechnology implied "");
      mret (<[implied := l]> acc.1, true)
  end.

(** The body of the loop over the detected technologies. *)
Definition visitTechnology (fingerprints : gmap string Fingerprint)
    (acc : Results * bool) (techName : string) : M World (Results * bool) :=
  match fingerprints !! techName with
  | None => mret acc
  | Some fp => foldM addImplied acc (Implies fp)
  end.

(** One round of [for techName := range results], over the names present
    when the round starts; a name added during a round is visited in the
    next one at the latest, which the round's [changed = true] brings about. *)
Definition impliedPass (fingerprints : gmap string Fingerprint) (results : Results)
  : M World (Results * bool) :=
  foldM (visitTechnology fingerprints) (results, false) (map_to_list results).*1.

(** [for changed { ... }], with the rounds counted down by [fuel]; [None]
    says the count ran out before a round left [changed] false. *)
Fixpoint closureLoop (fuel : nat) (fingerprints : gmap string Fingerprint)
    (results : Results) : M World (option Results) :=
  match fuel with
  | O => mret None
  | S fuel' =>
      acc ← impliedPass fingerprints results;
      if (acc.2 : bool) then closureLoop fuel' fingerprints acc.1
      else mret (Some acc.1)
  end.

Definition addImpliedTechnologies (fingerprints : gmap string Fingerprint)
    (results : Results) : M World (option Results) :=
  closureLoop (S (length (impliedNames fingerprints))) fingerprints results.

(** [*tech] *)
Definition load (l : loc) : M World Technology :=
  λ st, (from_option id (mkTechnology "" "") (heap st !! l), st).

Definition Detect (fingerprints : gmap string Fingerprint) (url : string)
    (useBrowser : bool) : M World (option DetectResult) :=
  hr ← DetectHTTP url fingerprints;
  let httpResults := hr.1 in
  let failedPaths := hr.2 in
  finalResults ←
    ((if useBrowser then
        br ← DetectBrowser url fingerprints httpResults;
        match br with
        | Err _ => mret httpResults
        | Ok browserResults => mret browserResults
        end
      else mret httpResults) : M World Results);
  closed ← addImpliedTechnologies fingerprints finalResults;
  match closed with
  | None => mret None
  | Some finalResults =>
      techs ← foldM (λ techs kv, tech ← load kv.2; mret (techs ++ [tech])%list)
                [] (map_to_list (finalResults : Results));
      mret (Some (mkDetectResult techs failedPaths))
  end.

Definition DetectHTTPOnly (fingerprints : gmap string Fingerprint) (url : string)
  : M World (option DetectResult) := Detect fingerprints url false.

Definition DetectFull (fingerprints : gmap string Fingerprint) (url : string)
  : M World (option DetectResult) := Detect fingerprints url true.

End Engine.

(** ** The vocabulary of the specification

    Definitions that follow the words of the specification, to state what
    the code above is compared with. *)

(** The world after the backoff sleep between the two attempts. *)
Definition pause {World} `{HTTPLib World} (st : Machine World) : Machine World :=
  mkMachine (Sleep InitialBackoff (world st)) (heap st).

Section RedirectChains.
Context {World : Type} {HL : HTTPLib World}.

(** The request the pipeline sends for a URL. *)
Definition requestFor (reqConfig : option RequestConfig) (url : string)
  : result HTTPRequest :=
  match reqConfig with
  | Some c =>
      match NewRequest (if negb (String.eqb (Method c) "") then Method c else "GET") url with
      | Ok req => Ok (foldl HeaderSet req (map_to_list (ReqHeaders c)))
      | Err e => Err e
      end
  | None => NewRequest "GET" url
  end.


(** The URL a response redirects to, when it is a redirect with a location
    on the host of the current URL. *)
Definition sameHostRedirect (currentURL : string) (resp : Response) : option string :=
  if (300 <=? resp_StatusCode resp)%Z && (resp_StatusCode resp <? 400)%Z then
    let location := HeaderGet (resp_Header resp) "Location" in
    if String.eqb location "" then None
    else
      match parseURL currentURL, resolveURL currentURL location with
      | Ok cur, Ok redirectURL =>
          match parseURL redirectURL with
          | Ok red => if isSameDomain cur red then Some redirectURL else None
          | Err _ => None
          end
      | _, _ => None
      end
  else None.


End RedirectChains.





(** ** Scenarios

    Small instances of the outside world on which the engine can be run. *)

(** A regexp engine that knows literal patterns only: a pattern matches
    where it occurs, and has no capture group. *)
Definition literalRegexp : RegexpLib := {|
  Regexp := string;
  Compile := λ pattern, Some pattern;
  FindStringSubmatch := λ re s, if Contains s re then [re] else []
|}.

(** A response with no header at all and an empty body. *)
Definition bareContext : DetectionContext := mkDetectionContext "" ∅ 200.

(** [{"headers.x-powered-by": {"$exists": false}}] *)
Definition absentPoweredBy : Query :=
  [("headers.x-powered-by", VMap [("$exists", VBool false)])].

(** A network that answers by a script and keeps a log: [serve n url] is the
    answer to the request for [url] when [n] requests went before; the URLs
    requested and the sleeps are logged in order. *)
Record Net := mkNet { requested : list string; slept : list Z }.

Definition scripted (serve : nat → string → result Response) : HTTPLib Net := {|
  NewRequestError := λ _ _, None;
  CanonicalHeaderKey := id;
  Do := λ req w,
    (serve (length (requested w)) (req_URL req),
     mkNet (requested w ++ [req_URL req])%list (slept w));
  Sleep := λ d w, mkNet (requested w) (slept w ++ [d])%list
|}.

Definition start : Machine Net := mkMachine (mkNet [] []) ∅.

Definition respond (status : Z) (header : list (string * list string)) (body : string)
  : result Response :=
  Ok (mkResponse status (list_to_map header) (Ok body)).


(** A to B to C on one host; every hop has a body, A and B both name a
    server, B and C both set a cookie. *)
Definition threeHops (n : nat) (url : string) : result Response :=
  if String.eqb url "http://a.test/" then
    respond 301 [("Location", ["/b"]); ("Server", ["front"])] "A"
  else if String.eqb url "http://a.test/b" then
    respond 302 [("Location", ["http://A.test:8080/c"]); ("Server", ["middle"]);
                 ("Set-Cookie", ["b=1"])] "B"
  else if String.eqb url "http://A.test:8080/c" then
    respond 200 [("Set-Cookie", ["c=1"])] "C"
  else Err "connection refused".

(** A server that answers every request with 404. *)
Definition notFound (n : nat) (url : string) : result Response :=
  respond 404 [] "no such page".

(** A server that times out on every request. *)
Definition timesOut (n : nat) (url : string) : result Response :=
  Err "context deadline exceeded".




(** What a fetch from the server that answers 404 returns. *)
Definition notFoundContext : DetectionContext :=
  mkDetectionContext "no such page" ∅ 200.

(** The set of names the closure draws from. *)
Definition impliedSet (fingerprints : gmap string Fingerprint) : gset string :=
  list_to_set (impliedNames fingerprints).

(** How the closure loops move the result map, the [changed] flag and the
    machine from [a] to [b]: entries and records are kept, names are added
    from [U] only, each with a record of its own and an empty version, and
    the flag is raised exactly when a name is added. *)
Definition grows {World} (U : gset string)
    (a b : (Results * bool) * Machine World) : Prop :=
  a.1.1 ⊆ b.1.1
  ∧ heap a.2 ⊆ heap b.2
  ∧ world b.2 = world a.2
  ∧ dom b.1.1 ⊆ dom a.1.1 ∪ U
  ∧ (a.1.2 = true → b.1.2 = true)
  ∧ (b.1.2 = false → b = a)
  ∧ (b.1.2 = true → a.1.2 = true ∨ ∃ n, n ∈ dom b.1.1 ∧ n ∉ dom a.1.1)
  ∧ (∀ n l, b.1.1 !! n = Some l → a.1.1 !! n = None →
            heap b.2 !! l = Some (mkTechnology n "")).

(** A result map is closed when it holds whatever its technologies imply. *)
Definition closedUnder (fingerprints : gmap string Fingerprint) (results : Results)
  : Prop :=
  ∀ techName fp implied,
    is_Some (results !! techName) → fingerprints !! techName = Some fp →
    implied ∈ Implies fp → is_Some (results !! implied).

(** [grows] between two states of the closure, the flag left out. *)
Definition extends {World} (U : gset string)
    (x y : Results * Machine World) : Prop :=
  grows U ((x.1, true), x.2) ((y.1, true), y.2).

(** Next.js implies React, React implies JavaScript; WordPress implies PHP
    and MySQL. *)
Definition fingerprint (implies : list string) (paths : list PathProbe)
    (browser : list BrowserProbe) : Fingerprint :=
  mkFingerprint [] implies paths browser.

Definition webStack : gmap string Fingerprint :=
  list_to_map [("Next.js", fingerprint ["React"] [] []);
               ("React", fingerprint ["JavaScript"] [] []);
               ("WordPress", fingerprint ["PHP"; "MySQL"] [] [])].

(** Next.js detected with version 14.1.0, its record at location 1. *)
Definition nextDetected : Machine Net :=
  mkMachine (mkNet [] []) {[ 1%positive := mkTechnology "Next.js" "14.1.0" ]}.

(** Three technologies, each probed at a path of its own. *)
Definition bodyHas (word : string) : Query := [("body", VMap [("$regex", VStr word)])].

Definition probeAt (path : string) (request : option RequestConfig) (detect : Query)
  : PathProbe := mkPathProbe path request detect [].

Definition threePaths : gmap string Fingerprint :=
  list_to_map [("Alpha", fingerprint [] [probeAt "/" None (bodyHas "alpha")] []);
               ("Beta", fingerprint [] [probeAt "/admin" None (bodyHas "beta")] []);
               ("Gamma", fingerprint [] [probeAt "/login" None (bodyHas "gamma")] [])].

(** The first request is answered; from the second on the name of the host
    no longer resolves. *)
Definition dnsDies (n : nat) (url : string) : result Response :=
  if (n =? 0)%nat then respond 200 [] "alpha beta gamma"
  else Err "dial tcp: lookup a.test: no such host".

(** The second request times out, the others are answered. *)
Definition oneTimeout (n : nat) (url : string) : result Response :=
  if (n =? 1)%nat || (n =? 2)%nat then Err "context deadline exceeded"
  else respond 200 [] "alpha beta gamma".

(** React, found over HTTP without a version, has a browser probe at [/]
    that reads the version; Vue has a browser probe at [/slow]. The browser
    answers every version script with 18.2.0, and fails to open [/slow]. *)
Definition reactAndVue : gmap string Fingerprint :=
  list_to_map [("React", fingerprint [] [probeAt "/" None (bodyHas "react")]
                           [mkBrowserProbe "/" "" "return React.version"]);
               ("Vue", fingerprint [] []
                         [mkBrowserProbe "/slow" "return !!window.Vue" ""])].

Definition headless : Chromedp Net := {|
  Navigate := λ url w,
    (if String.eqb url "http://a.test/slow" then Some "context deadline exceeded"
     else None, w);
  WaitReady := λ sel w, (None, w);
  EvaluateBool := λ script w, (Ok true, w);
  EvaluateString := λ script w, (Ok "18.2.0", w)
|}.

(** A server whose every page mentions react. *)
Definition reactSite (n : nat) (url : string) : result Response :=
  respond 200 [] "built with react".

(** The state the HTTP stage leaves: React detected, no version, its record
    at location 1. *)
Definition reactDetected : Machine Net :=
  mkMachine (mkNet ["http://a.test/"] []) {[ 1%positive := mkTechnology "React" "" ]}.

Definition reactResults : Results := {[ "React" := 1%positive ]}.

(** A probe that a fingerprint of the rule store declares. *)
Definition declared (fingerprints : gmap string Fingerprint) (techName : string)
    (probe : PathProbe) : Prop :=
  ∃ fp, fingerprints !! techName = Some fp ∧ probe ∈ Paths fp.

(** A probe of a technology that a group holds. *)
Definition inGroup (pc : PathClassification) (techName : string) (probe : PathProbe)
  : Prop :=
  probe ∈ default [] (Technologies pc !! techName).


(** The probes of the rule store, in the order [ClassifyByPath] meets them. *)
Definition probesOf (fingerprints : gmap string Fingerprint) : list (string * PathProbe) :=
  map_to_list fingerprints ≫= λ kv, pair kv.1 <$> Paths kv.2.

(** What holds of the groups once the probes [done] are classified. *)
Definition classified (pathMap : gmap string PathClassification)
    (done : list (string * PathProbe)) : Prop :=
  (∀ key pc, pathMap !! key = Some pc →
     pc_Path pc = key
     ∧ ∃ t p, (t, p) ∈ done ∧ Path p = key ∧ RequestConf pc = Request p
              ∧ inGroup pc t p)
  ∧ (∀ key pc t p, pathMap !! key = Some pc → inGroup pc t p →
       (t, p) ∈ done ∧ Path p = key)
  ∧ (∀ t p, (t, p) ∈ done → ∃ pc, pathMap !! Path p = Some pc ∧ inGroup pc t p).

(** Two technologies probe [/], one with the default request and one with
    a POST. *)
Definition getProbe : PathProbe := probeAt "/" None (bodyHas "alpha").
Definition postProbe : PathProbe :=
  probeAt "/" (Some (mkRequestConfig "POST" ∅ VNil)) (bodyHas "beta").

Definition twoShapes : gmap string Fingerprint :=
  list_to_map [("Alpha", fingerprint [] [getProbe] []);
               ("Beta", fingerprint [] [postProbe] [])].

(** A set of names that holds whatever its members imply. *)
Definition closedSet (fingerprints : gmap string Fingerprint) (names : gset string)
  : Prop :=
  ∀ techName fp implied,
    techName ∈ names → fingerprints !! techName = Some fp →
    implied ∈ Implies fp → implied ∈ names.

(** What the browser stage may do to a result map and the records behind
    it: keep every entry with its pointer, keep the name of every record,
    and keep every version that is not empty. *)
Definition upgrades (x y : Results * gmap loc Technology) : Prop :=
  x.1 ⊆ y.1
  ∧ ∀ l t, x.2 !! l = Some t →
           ∃ t', y.2 !! l = Some t' ∧ Name t' = Name t
                 ∧ (Version t ≠ "" → Version t' = Version t).

(** ** Further vocabulary and scenarios *)

(** The last version that is not empty, the empty one if there is none. *)
Definition lastNonEmpty (versions : list string) : string :=
  default "" (last (filter (λ v, v ≠ "") versions)).

(** The operand shape an operator expects: a string for [$regex], [$eq]
    and [$ne], a boolean for [$exists], a list for [$in] and [$nin]. *)
Definition isOperator (operator : string) : bool :=
  existsb (String.eqb operator) ["$regex"; "$eq"; "$ne"; "$exists"; "$in"; "$nin"].

Definition wellShaped (operator : string) (operand : Value) : bool :=
  match operand with
  | VStr _ => existsb (String.eqb operator) ["$regex"; "$eq"; "$ne"]
  | VBool _ => String.eqb operator "$exists"
  | VList _ => existsb (String.eqb operator) ["$in"; "$nin"]
  | _ => false
  end.

(** A context with one header, as a server sends it. *)
Definition nginxContext : DetectionContext :=
  mkDetectionContext "welcome" {[ "Server" := "nginx/1.18.0" ]} 200.

(** The version a child of a combinator yields; a child that is not an
    object yields none. *)
Definition childVersion {RL : RegexpLib} (ctx : DetectionContext) (cond : Value) : string :=
  match cond with
  | VMap condMap => (evaluateQuery condMap ctx).2
  | _ => ""
  end.

(** The first entry of an operator object whose key is an operator. *)
Fixpoint firstOperator (condMap : list (string * Value)) : option (string * Value) :=
  match condMap with
  | [] => None
  | (operator, operand) :: rest =>
      if isOperator operator then Some (operator, operand) else firstOperator rest
  end.

(** [{"headers.server": {"$eq": "nginx/1.18.0"}}] *)
Definition serverIsNginx : Value := VMap [("$eq", VStr "nginx/1.18.0")].

(** A regexp engine that knows a literal followed by one group for the
    rest of the string: a pattern matches the strings it is a prefix of,
    and its one group is what follows the prefix. *)
Definition captureRest : RegexpLib := {|
  Regexp := string;
  Compile := λ pattern, Some pattern;
  FindStringSubmatch := λ re s,
    if String.prefix re s
    then s :: String.substring (String.length re) (String.length s - String.length re) s
           :: []
    else []
|}.

(** What follows the authority in a URL: nothing, or a path that starts
    with a slash. *)
Definition pathOrNothing (tail : string) : Prop :=
  tail = "" ∨ ∃ t, tail = "/" +:+ t.

(** What [parseURL] makes of a scheme and an authority. *)
Definition authorityParts (scheme authority : string) : gmap string string :=
  let parts : gmap string string := <["scheme" := scheme]> ∅ in
  let colonIdx := LastIndex authority ":" in
  if negb (colonIdx =? -1)%Z then
    <["port" := sliceFrom authority (Z.to_nat colonIdx + 1)]>
      (<["host" := slice authority 0 (Z.to_nat colonIdx)]> parts)
  else
    let parts := <["host" := authority]> parts in
    if String.eqb (parts !!! "scheme") "https"
    then <["port" := "443"]> parts
    else <["port" := "80"]> parts.

(** What the engine asks of the network and of the clock. *)
Inductive Event : Type :=
| Requested (url : string)
| Slept (d : Z).

(** Any client and clock, with a log of what is asked of them kept beside
    their state; the answers are those of the client itself. *)
Definition logged {World} (HL : HTTPLib World) : HTTPLib (World * list Event) := {|
  NewRequestError := NewRequestError;
  CanonicalHeaderKey := CanonicalHeaderKey;
  Do := λ req wl,
    let '(r, w') := Do req wl.1 in (r, (w', (wl.2 ++ [Requested (req_URL req)])%list));
  Sleep := λ d wl, (Sleep d wl.1, (wl.2 ++ [Slept d])%list)
|}.

(** Two URLs that [parseURL] accepts and [isSameDomain] takes for one
    domain. *)
Definition sameDomainURLs (u u' : string) : Prop :=
  ∃ parts parts', parseURL u = Ok parts ∧ parseURL u' = Ok parts'
                  ∧ isSameDomain parts parts' = true.

(** A sequence of URLs each on the domain of the one before. *)
Fixpoint followed (urls : list string) : Prop :=
  match urls with
  | u :: ((u' :: _) as rest) => sameDomainURLs u u' ∧ followed rest
  | _ => True
  end.

(** The requests of one attempt: none, or some that start at [url], at
    most one more than the redirect limit, each on the domain of the one
    before. *)
Definition attemptFrom (url : string) (urls : list string) : Prop :=
  (urls = [] ∨ head urls = Some url)
  ∧ (List.length urls ≤ MaxRedirects + 1)%nat
  ∧ followed urls.

(** What [DetectHTTP] may report: each entry points to a record of its own
    made during the run, under the entry's name, with the version that one
    declared probe of that technology yields on some response. *)
Definition reportedBy {RL : RegexpLib} (fingerprints : gmap string Fingerprint)
    (old : gmap loc Technology) (results : Results) (h : gmap loc Technology) : Prop :=
  ∀ t l, results !! t = Some l →
    old !! l = None
    ∧ ∃ p ctx v, declared fingerprints t p ∧ rangeProbes [p] ctx = Some v
                 ∧ h !! l = Some (mkTechnology t v).

(** The probes a technology declares at a path, in the order of their
    declaration. *)
Definition probesAt (fingerprints : gmap string Fingerprint) (techName path : string)
  : list PathProbe :=
  filter (λ p, Path p = path) (from_option Paths [] (fingerprints !! techName)).

(** The probes of [techName] at [path] among those classified so far. *)
Definition doneAt (done : list (string * PathProbe)) (techName path : string)
  : list PathProbe :=
  (filter (λ tp, tp.1 = techName ∧ Path tp.2 = path) done).*2.

(** What holds of the lists of the groups once the probes [done] are
    classified. *)
Definition ordered (pathMap : gmap string PathClassification)
    (done : list (string * PathProbe)) : Prop :=
  (∀ key pc t, pathMap !! key = Some pc →
     default [] (Technologies pc !! t) = doneAt done t key
     ∧ Technologies pc !! t ≠ Some [])
  ∧ (∀ key t, pathMap !! key = None → doneAt done t key = []).

(** No probe of the list can tell anything new of the technology: it is not
    in the results and no probe has a detection script, or it is there with
    a version, or it is there without one and no probe has a version
    script. *)
Definition idle (techName : string) (probes : list BrowserProbe) (results : Results)
    (h : gmap loc Technology) : Prop :=
  match results !! techName with
  | None => Forall (λ probe, Detection probe = "") probes
  | Some tech =>
      from_option Version "" (h !! tech) ≠ ""
      ∨ Forall (λ probe, bp_Version probe = "") probes
  end.

(** A browser that opens no page. *)
Definition offline : Chromedp Net := {|
  Navigate := λ url w, (Some "net::ERR_INTERNET_DISCONNECTED", w);
  WaitReady := λ sel w, (None, w);
  EvaluateBool := λ script w, (Ok true, w);
  EvaluateString := λ script w, (Ok "18.2.0", w)
|}.

(** Every entry of the results points to a record that bears the name of
    the entry. *)
Definition named (results : Results) (h : gmap loc Technology) : Prop :=
  ∀ t l, results !! t = Some l → ∃ v, h !! l = Some (mkTechnology t v).

(** ** loader.go *)

(** The disk as the loader reads it, and the JSON decoder:
    [filepath.Join], [filepath.Glob], [os.ReadFile], and [json.Unmarshal]
    into a [FingerprintDB], of which the loader takes [Apps]. *)
Class FileSystem := {
  filepathJoin : string → string → string;
  Glob : string → result (list string);
  ReadFile : string → result string;
  Unmarshal : string → result (gmap string Fingerprint)
}.

Record Detector := mkDetector {
  d_fingerprints : gmap string Fingerprint;
  d_insecureSkipVerify : bool
}.

Section Loader.
Context {FS : FileSystem}.

Definition loadFile (path : string) : result (gmap string Fingerprint) :=
  match ReadFile path with
  | Err err => Err err
  | Ok data =>
      match Unmarshal data with
      | Err err => Err err
      | Ok apps => Ok apps
      end
  end.

(** [for name, fp := range fingerprints { allFingerprints[name] = fp }] *)
Definition mergeFingerprints (allFingerprints fingerprints : gmap string Fingerprint)
  : gmap string Fingerprint :=
  map_fold (λ name fp allFingerprints, <[name := fp]> allFingerprints)
    allFingerprints fingerprints.

(** The loop of [LoadAll] over the files. *)
Fixpoint rangeFiles (files : list string) (allFingerprints : gmap string Fingerprint)
  : result (gmap string Fingerprint) :=
  match files with
  | [] => Ok allFingerprints
  | file :: rest =>
      match loadFile file with
      | Err err => Err ("failed to load " +:+ file +:+ ": " +:+ err)
      | Ok fingerprints => rangeFiles rest (mergeFingerprints allFingerprints fingerprints)
      end
  end.

Definition LoadAll (fingerprintsDir : string) : result (gmap string Fingerprint) :=
  match Glob (filepathJoin fingerprintsDir "*.json") with
  | Err err => Err ("failed to list fingerprint files: " +:+ err)
  | Ok files => rangeFiles files ∅
  end.

(** [NewDetectorWithOptions], as far as the rule store goes. *)
Definition NewDetectorWithOptions (fingerprintsDir : string) (insecureSkipVerify : bool)
  : result Detector :=
  match LoadAll fingerprintsDir with
  | Err err => Err ("failed to load fingerprints: " +:+ err)
  | Ok fingerprints => Ok (mkDetector fingerprints insecureSkipVerify)
  end.

Definition NewDetector (fingerprintsDir : string) : result Detector :=
  NewDetectorWithOptions fingerprintsDir false.

End Loader.

(** A disk with two directories: in [rules], two files that both describe
    Alpha; in [broken], a file that is cut short between two that are not. *)
Definition disk : FileSystem := {|
  filepathJoin := λ dir name, dir +:+ "/" +:+ name;
  Glob := λ pattern,
    if String.eqb pattern "rules/*.json" then Ok ["rules/a.json"; "rules/b.json"]
    else if String.eqb pattern "broken/*.json"
         then Ok ["broken/a.json"; "broken/b.json"; "broken/c.json"]
    else Ok [];
  ReadFile := λ path, Ok path;
  Unmarshal := λ data,
    if String.eqb data "rules/a.json"
    then Ok {[ "Alpha" := fingerprint [] [getProbe] [];
               "Beta" := fingerprint [] [postProbe] [] ]}
    else if String.eqb data "rules/b.json"
         then Ok {[ "Alpha" := fingerprint ["Beta"] [postProbe] [] ]}
    else if String.eqb data "broken/b.json" then Err "unexpected end of JSON input"
    else Ok ∅
|}.

(** * Properties *)

(** ** The query evaluator *)

Section QueryProperties.
Context {RL : RegexpLib}.

(** Induction on a decoded JSON value, with the hypothesis for every
    element of a list and every value of a map. *)
Lemma Value_nested_ind (P : Value → Prop) :
  P VNil → (∀ b, P (VBool b)) → (∀ n, P (VNum n)) → (∀ s, P (VStr s)) →
  (∀ l, Forall P l → P (VList l)) →
  (∀ m, Forall (λ kv, P kv.2) m → P (VMap m)) →
  ∀ v, P v.
Proof.
  intros HNil HBool HNum HStr HList HMap.
  fix IH 1. intros [ | b | n | s | l | m].
  - exact HNil.
  - apply HBool.
  - apply HNum.
  - apply HStr.
  - apply HList. induction l as [ | v l IHl]; constructor; [apply IH | exact IHl].
  - apply HMap. induction m as [ | [k v] m IHm]; constructor; [apply IH | exact IHm].
Qed.

(** [evaluateKey] is the [switch] of [evaluateQuery], with the combinators
    calling [evaluateQuery] itself. *)
Lemma evaluateKey_eq key value ctx :
  evaluateKey key value ctx =
    if String.eqb key "$or" then evaluateOr evaluateQuery value ctx
    else if String.eqb key "$and" then evaluateAnd evaluateQuery value ctx
    else if String.eqb key "$not" then evaluateNot evaluateQuery value ctx
    else if String.eqb key "$nor" then evaluateNor evaluateQuery value ctx
    else evaluateField key value ctx.
Proof. destruct value; reflexivity. Qed.

Lemma evaluateQuery_cons key value rest ctx :
  evaluateQuery ((key, value) :: rest) ctx = evaluateKey key value ctx.
Proof. reflexivity. Qed.

Lemma evaluateQuery_not value ctx :
  evaluateQuery [("$not", value)] ctx = evaluateNot evaluateQuery value ctx.
Proof. rewrite evaluateQuery_cons, evaluateKey_eq. reflexivity. Qed.


Lemma evaluateField_absent fieldPath condition ctx :
  getFieldValue fieldPath ctx = "" →
  evaluateField fieldPath condition ctx = (false, "").
Proof. intros Habsent. unfold evaluateField. rewrite Habsent. reflexivity. Qed.

(** The evaluator reads the body and the headers of a context and nothing
    else of it. *)
Lemma getFieldValue_reads fieldPath c1 c2 :
  Body c1 = Body c2 → Headers c1 = Headers c2 →
  getFieldValue fieldPath c1 = getFieldValue fieldPath c2.
Proof. intros HB HH. unfold getFieldValue. rewrite HB, HH. reflexivity. Qed.

Lemma evaluateKey_reads c1 c2 :
  Body c1 = Body c2 → Headers c1 = Headers c2 →
  ∀ value,
    (∀ key, evaluateKey key value c1 = evaluateKey key value c2)
    ∧ match value with
      | VMap q => evaluateQuery q c1 = evaluateQuery q c2
      | _ => True
      end.
Proof.
  intros HB HH value.
  induction value as [ | b | n | s | l IHl | m IHm] using Value_nested_ind;
    (split; [ | try exact I]).
  1-4: intros key; rewrite !evaluateKey_eq;
    repeat (destruct (String.eqb key _); [ reflexivity | ]);
    unfold evaluateField; rewrite (getFieldValue_reads key c1 c2 HB HH);
    reflexivity.
  - intros key; rewrite !evaluateKey_eq.
    destruct (String.eqb key "$or").
    { simpl. induction IHl as [ | v l Hv _ IHrest]; [reflexivity | ].
      destruct v as [ | | | | | q]; try exact IHrest.
      destruct Hv as [_ Hq]. simpl in *. rewrite Hq.
      destruct (evaluateQuery q c2) as [[] ?]; [reflexivity | exact IHrest]. }
    destruct (String.eqb key "$and").
    { unfold evaluateAnd. generalize "".
      induction IHl as [ | v l Hv _ IHrest]; intros acc; [reflexivity | ].
      destruct v as [ | | | | | q]; try reflexivity.
      destruct Hv as [_ Hq]. simpl. rewrite Hq.
      destruct (evaluateQuery q c2) as [[] ?]; [apply IHrest | reflexivity]. }
    destruct (String.eqb key "$not"); [reflexivity | ].
    destruct (String.eqb key "$nor").
    { simpl. induction IHl as [ | v l Hv _ IHrest]; [reflexivity | ].
      destruct v as [ | | | | | q]; try exact IHrest.
      destruct Hv as [_ Hq]. simpl in *. rewrite Hq.
      destruct (evaluateQuery q c2) as [[] ?]; [reflexivity | exact IHrest]. }
    unfold evaluateField; rewrite (getFieldValue_reads key c1 c2 HB HH); reflexivity.
  - assert (Hq : evaluateQuery m c1 = evaluateQuery m c2).
    { destruct IHm as [ | [k v] m' [Hk _] _]; [reflexivity | apply Hk]. }
    intros key; rewrite !evaluateKey_eq.
    repeat (destruct (String.eqb key _);
            [ first [ reflexivity | simpl; rewrite Hq; reflexivity ] | ]).
    unfold evaluateField; rewrite (getFieldValue_reads key c1 c2 HB HH); reflexivity.
  - destruct IHm as [ | [k v] m' [Hk _] _]; [reflexivity | apply Hk].
Qed.

Lemma evaluateQuery_reads query c1 c2 :
  Body c1 = Body c2 → Headers c1 = Headers c2 →
  evaluateQuery query c1 = evaluateQuery query c2.
Proof.
  intros HB HH. destruct query as [ | [key value] rest]; [reflexivity | ].
  apply (evaluateKey_reads c1 c2 HB HH value).
Qed.

(** C7: [AND] of no children is true with an empty version, and [OR] of no
    children is false, on every context. *)
Theorem and_or_of_nothing ctx :
  evaluateQuery [("$and", VList [])] ctx = (true, "")
  ∧ evaluateQuery [("$or", VList [])] ctx = (false, "").
Proof. split; reflexivity. Qed.


(** C1: a field condition on a field that resolves to the empty string does
    not match, whatever the condition: [evaluateField] returns before it
    looks at the operator, so [$exists: false] does not match either, though
    [evaluateExists] would answer true on the empty value. *)
Theorem absent_field_never_matches fieldPath ctx :
  getFieldValue fieldPath ctx = "" →
  (∀ condition, evaluateField fieldPath condition ctx = (false, ""))
  ∧ evaluateField fieldPath (VMap [("$exists", VBool false)]) ctx = (false, "")
  ∧ evaluateExists (getFieldValue fieldPath ctx) (VBool false) = (true, "").
Proof.
  intros Habsent. split; [ | split].
  - intros condition. apply evaluateField_absent, Habsent.
  - apply evaluateField_absent, Habsent.
  - rewrite Habsent. reflexivity.
Qed.

End QueryProperties.

(** The header is absent, and [$exists: false] on it does not match. *)
Lemma absent_field_never_matches_witness :
  getFieldValue "headers.x-powered-by" bareContext = ""
  ∧ evaluateQuery (RL := literalRegexp) absentPoweredBy bareContext = (false, "").
Proof.
  split; [reflexivity | ].
  exact (proj1 (proj2 (absent_field_never_matches (RL := literalRegexp)
                         "headers.x-powered-by" bareContext eq_refl))).
Defined.

(** ** The fetch pipeline *)

Ltac run_machine :=
  unfold mbind, M_bind, bind, mret, M_ret, ret, onWorld in *; simpl in *.

Section FetchProperties.
Context {World : Type} {HL : HTTPLib World}.

Lemma followRedirects_status left reqConfig :
  ∀ url bodies headers st ctx st',
    followRedirects left reqConfig url bodies headers st = (Ok ctx, st') →
    StatusCode ctx = 200%Z.
Proof.
  induction left as [ | left IH]; intros url bodies headers st ctx st' Hrun;
    simpl in Hrun; run_machine;
    repeat (case_match; simplify_eq; try reflexivity).
  all: try (eapply IH; eassumption).
Qed.

(** One turn of the loop of [makeRequest], in the vocabulary of the
    specification. *)
Lemma followRedirects_turn left reqConfig url bodies headers st :
  followRedirects left reqConfig url bodies headers st =
    match requestFor reqConfig url with
    | Err e => (Err e, st)
    | Ok req =>
        let '(r, w') := Do req (world st) in
        match r with
        | Err e => (Err e, mkMachine w' (heap st))
        | Ok resp =>
            match resp_Body resp with
            | Err e => (Err e, mkMachine w' (heap st))
            | Ok body =>
                let headers' := collectHeaders headers (resp_Header resp) in
                let bodies' := (bodies ++ filter (λ b, b ≠ "") [body])%list in
                match sameHostRedirect url resp, left with
                | Some url', S left' =>
                    followRedirects left' reqConfig url' bodies' headers'
                      (mkMachine w' (heap st))
                | _, _ => (Ok (contextOf bodies' headers'), mkMachine w' (heap st))
                end
            end
        end
    end.
Proof.
  assert (Hbody : ∀ body : string,
             (if (0 <? String.length body)%nat then (bodies ++ [body])%list else bodies)
             = (bodies ++ filter (λ b, b ≠ "") [body])%list).
  { intros [ | c body]; simpl.
    - rewrite app_nil_r. reflexivity.
    - rewrite filter_cons_True by discriminate. reflexivity. }
  unfold requestFor, sameHostRedirect.
  destruct left as [ | left]; simpl; run_machine;
    destruct reqConfig as [c | ]; simpl;
    repeat (case_match; simplify_eq; simpl in *; try rewrite Hbody in *;
            try reflexivity; try congruence).
Qed.

End FetchProperties.

Section ChainProperties.
Context {World : Type} {HL : HTTPLib World}.





End ChainProperties.

Section RetryProperties.
Context {World : Type} {HL : HTTPLib World}.

(** The retry loop, turn by turn: a second attempt is made after a failed
    first one and a sleep of [InitialBackoff], and never a third. *)
Lemma requestWithRetry_attempts url reqConfig st :
  requestWithRetry url reqConfig st =
    match makeRequest url reqConfig st with
    | (Ok ctx, st1) => (Ok ctx, st1)
    | (Err _, st1) =>
        match makeRequest url reqConfig (pause st1) with
        | (Ok ctx, st2) => (Ok ctx, st2)
        | (Err e2, st2) => (Err (retriesError (Some e2)), st2)
        end
    end.
Proof.
  unfold requestWithRetry, pause. simpl. run_machine.
  destruct (makeRequest url reqConfig st) as [[ctx | e1] st1]; [reflexivity | ].
  replace (backoff 0) with InitialBackoff by reflexivity.
  destruct (makeRequest url reqConfig _) as [[ctx | e2] st2]; reflexivity.
Qed.

Lemma requestWithRetry_status url reqConfig st ctx st' :
  requestWithRetry url reqConfig st = (Ok ctx, st') → StatusCode ctx = 200%Z.
Proof.
  rewrite requestWithRetry_attempts. unfold makeRequest. intros Hrun.
  destruct (followRedirects _ _ _ _ _ st) as [[c1 | e1] st1] eqn:H1.
  - simplify_eq. eapply followRedirects_status, H1.
  - destruct (followRedirects _ _ _ _ _ (pause st1)) as [[c2 | e2] st2] eqn:H2;
      simplify_eq. eapply followRedirects_status, H2.
Qed.

(** C6: the retry wrapper makes one attempt and, when that fails, sleeps
    and makes one more, and no third: a successful attempt's context is
    returned as it is, from the state that attempt left; when both attempts
    fail the error is the second attempt's, behind the annotation "failed
    after 1 retries: ". *)
Theorem retry_wrapper_two_attempts url reqConfig st :
  requestWithRetry url reqConfig st =
    match makeRequest url reqConfig st with
    | (Ok ctx, st1) => (Ok ctx, st1)
    | (Err _, st1) =>
        match makeRequest url reqConfig (pause st1) with
        | (Ok ctx, st2) => (Ok ctx, st2)
        | (Err e2, st2) => (Err ("failed after 1 retries: " +:+ e2), st2)
        end
    end.
Proof.
  unfold requestWithRetry. change (MaxRetries + 1) with 2. cbn [retryLoop].
  run_machine.
  destruct (makeRequest url reqConfig st) as [[ctx | e1] st1]; [reflexivity | ].
  change (mkMachine (Sleep (backoff 0) (world st1)) (heap st1)) with (pause st1).
  destruct (makeRequest url reqConfig (pause st1)) as [[ctx | e2] st2]; reflexivity.
Qed.

(** C10: a context that a fetch returns has the status marker 200, whatever
    the statuses of the responses behind it, and the evaluator gives the
    same answer whatever the marker is. *)
Theorem status_marker_is_200 {RL : RegexpLib} url reqConfig st ctx st' :
  makeRequest url reqConfig st = (Ok ctx, st')
  ∨ requestWithRetry url reqConfig st = (Ok ctx, st') →
  StatusCode ctx = 200%Z
  ∧ ∀ query status,
      evaluateQuery query (mkDetectionContext (Body ctx) (Headers ctx) status)
      = evaluateQuery query ctx.
Proof.
  intros Hfetch. split.
  - destruct Hfetch as [Hrun | Hrun].
    + eapply followRedirects_status, Hrun.
    + eapply requestWithRetry_status, Hrun.
  - intros query status. apply evaluateQuery_reads; reflexivity.
Qed.


End RetryProperties.

(** Both attempts time out: the URL is requested twice, with one sleep of a
    second in between. *)
Example two_timeouts :
  requestWithRetry (HL := scripted timesOut) "http://a.test/" None start
  = (Err "failed after 1 retries: context deadline exceeded",
     mkMachine (mkNet ["http://a.test/"; "http://a.test/"] [1000000000%Z]) ∅).
Proof. vm_compute. reflexivity. Qed.

(** A page answered with 404 is fetched into a context marked 200. *)
Lemma status_marker_is_200_witness :
  makeRequest (HL := scripted notFound) "http://a.test/" None start
  = (Ok notFoundContext, mkMachine (mkNet ["http://a.test/"] []) ∅)
  ∧ StatusCode notFoundContext = 200%Z
  ∧ ∀ query status,
      evaluateQuery (RL := literalRegexp) query
        (mkDetectionContext (Body notFoundContext) (Headers notFoundContext) status)
      = evaluateQuery (RL := literalRegexp) query notFoundContext.
Proof.
  assert (Hrun : makeRequest (HL := scripted notFound) "http://a.test/" None start
                 = (Ok notFoundContext, mkMachine (mkNet ["http://a.test/"] []) ∅))
    by (vm_compute; reflexivity).
  split; [exact Hrun | ].
  exact (status_marker_is_200 (HL := scripted notFound) (RL := literalRegexp)
           "http://a.test/" None start _ _ (or_introl Hrun)).
Defined.



(** What the A to B to C run returns. *)
Example abc_context :
  ∀ ctx st',
    makeRequest (HL := scripted threeHops) "http://a.test/" None start = (Ok ctx, st') →
    Body ctx = "A" +:+ String "010" ("B" +:+ String "010" "C")
    ∧ Headers ctx !! "Server" = Some "front"
    ∧ Headers ctx !! "Set-Cookie" = Some "b=1"
    ∧ Headers ctx !! "Location" = Some "/b".
Proof. intros ctx st' Hrun. vm_compute in Hrun. simplify_eq. vm_compute. auto. Qed.


(** ** The implication closure *)

Section ClosureProperties.
Context {World : Type}.
Implicit Types (a b c : (Results * bool) * Machine World) (U : gset string).
Implicit Types (st : Machine World) (acc : Results * bool).

Lemma grows_refl U a : grows U a a.
Proof.
  unfold grows. repeat split; try done; try set_solver.
  all: try (intros n l Hsome Hnone; congruence).
  all: intros Htrue; left; exact Htrue.
Qed.

Lemma grows_trans U a b c : grows U a b → grows U b c → grows U a c.
Proof.
  intros (Hr1 & Hh1 & Hw1 & Hd1 & Hf1 & Hs1 & Hn1 & He1)
         (Hr2 & Hh2 & Hw2 & Hd2 & Hf2 & Hs2 & Hn2 & He2).
  unfold grows. repeat split.
  - etrans; eassumption.
  - etrans; eassumption.
  - congruence.
  - intros x Hx. apply Hd2, elem_of_union in Hx as [Hx | Hx].
    + apply Hd1, Hx.
    + apply elem_of_union_r, Hx.
  - auto.
  - intros Hc. pose proof (Hs2 Hc) as ->. apply Hs1, Hc.
  - intros Hc. destruct (Hn2 Hc) as [Hb | (n & Hin & Hnot)].
    + destruct (Hn1 Hb) as [Ha | (n & Hin & Hnot)]; [left; exact Ha | ].
      right. exists n. split; [ | exact Hnot].
      apply (subseteq_dom _ _ Hr2). exact Hin.
    + right. exists n. split; [exact Hin | ].
      intros Hina. apply Hnot. apply (subseteq_dom _ _ Hr1). exact Hina.
  - intros n l Hc Ha. destruct (b.1.1 !! n) as [l' | ] eqn:Hb.
    + assert (l' = l) as ->.
      { pose proof (lookup_weaken _ _ _ _ Hb Hr2) as Hc'.
        rewrite Hc in Hc'. injection Hc' as ->. reflexivity. }
      eapply lookup_weaken; [apply (He1 n l Hb Ha) | exact Hh2].
    + apply (He2 n l Hc Hb).
Qed.

(** A loop whose every turn grows the state grows it as a whole. *)
Lemma foldM_grows {B} U (f : Results * bool → B → M World (Results * bool))
    (l : list B) :
  (∀ acc x st, x ∈ l → grows U (acc, st) (f acc x st)) →
  ∀ acc st, grows U (acc, st) (foldM f acc l st).
Proof.
  induction l as [ | x l IH]; intros Hf acc st.
  - apply grows_refl.
  - simpl. run_machine.
    pose proof (Hf acc x st (list_elem_of_here _ _)) as Hstep.
    destruct (f acc x st) as [acc' st'].
    eapply grows_trans; [exact Hstep | ].
    apply IH. intros acc0 y st0 Hy. apply Hf. apply list_elem_of_further, Hy.
Qed.

Context {HL : HTTPLib World} {CD : Chromedp World} {RL : RegexpLib}.

Lemma addImplied_grows U acc implied st :
  implied ∈ U → grows U (acc, st) (addImplied acc implied st).
Proof.
  intros HU. unfold addImplied.
  destruct (acc.1 !! implied) as [l | ] eqn:Hlook; [apply grows_refl | ].
  run_machine. unfold new. simpl.
  assert (Hfresh : heap st !! fresh (dom (heap st)) = None).
  { apply not_elem_of_dom, is_fresh. }
  unfold grows; simpl. repeat split.
  - apply insert_subseteq, Hlook.
  - apply insert_subseteq, Hfresh.
  - rewrite dom_insert. intros x Hx.
    apply elem_of_union in Hx as [Hx%elem_of_singleton | Hx].
    + subst x. apply elem_of_union_r, HU.
    + apply elem_of_union_l, Hx.
  - discriminate.
  - intros _. right. exists implied. split.
    + rewrite dom_insert. apply elem_of_union_l, elem_of_singleton. reflexivity.
    + apply not_elem_of_dom, Hlook.
  - intros n l Hn Hacc. destruct (decide (n = implied)) as [-> | Hne].
    + rewrite lookup_insert_eq in Hn. simplify_eq. apply lookup_insert_eq.
    + rewrite lookup_insert_ne in Hn by done. congruence.
Qed.

Lemma implies_in_set fingerprints techName fp implied :
  fingerprints !! techName = Some fp → implied ∈ Implies fp →
  implied ∈ impliedSet fingerprints.
Proof.
  intros Hfp Hin. unfold impliedSet, impliedNames.
  apply elem_of_list_to_set, list_elem_of_In, in_concat. exists (Implies fp).
  split; [ | apply list_elem_of_In, Hin].
  apply list_elem_of_In, list_elem_of_fmap. exists fp. split; [reflexivity | ].
  apply list_elem_of_fmap. exists (techName, fp). split; [reflexivity | ].
  apply elem_of_map_to_list, Hfp.
Qed.

Lemma visitTechnology_grows fingerprints acc techName st :
  grows (impliedSet fingerprints) (acc, st) (visitTechnology fingerprints acc techName st).
Proof.
  unfold visitTechnology.
  destruct (fingerprints !! techName) as [fp | ] eqn:Hfp; [ | apply grows_refl].
  apply foldM_grows. intros acc0 implied st0 Hin.
  apply addImplied_grows. eapply implies_in_set; eassumption.
Qed.

Lemma impliedPass_grows fingerprints results st :
  grows (impliedSet fingerprints) ((results, false), st) (impliedPass fingerprints results st).
Proof.
  unfold impliedPass. apply foldM_grows. intros acc x st0 _.
  apply visitTechnology_grows.
Qed.

Lemma grows_extends U a b : grows U a b → extends U (a.1.1, a.2) (b.1.1, b.2).
Proof.
  intros (Hr & Hh & Hw & Hd & _ & _ & _ & He).
  unfold extends, grows; simpl. repeat split; try done. intros _. left. reflexivity.
Qed.

Lemma extends_trans U (x y z : Results * Machine World) :
  extends U x y → extends U y z → extends U x z.
Proof. apply grows_trans. Qed.

Lemma extends_refl U (x : Results * Machine World) : extends U x x.
Proof. apply grows_refl. Qed.

Lemma foldM_addImplied_grows (implies : list string) acc st :
  grows (list_to_set implies) (acc, st) (foldM addImplied acc implies st).
Proof.
  apply foldM_grows. intros acc0 implied st0 Hin.
  apply addImplied_grows, elem_of_list_to_set, Hin.
Qed.

(** After the loop over [fp.Implies], every implied name is in the map. *)
Lemma addImplied_covers (implies : list string) :
  ∀ acc st implied, implied ∈ implies →
    is_Some ((foldM addImplied acc implies st).1.1 !! implied).
Proof.
  induction implies as [ | i implies IH]; intros acc st implied Hin.
  - inversion Hin.
  - simpl. run_machine.
    destruct (addImplied acc i st) as [acc1 st1] eqn:Hstep.
    apply elem_of_cons in Hin as [-> | Hin]; [ | apply IH, Hin].
    assert (Hhere : is_Some (acc1.1 !! i)).
    { unfold addImplied in Hstep. destruct (acc.1 !! i) eqn:Hlook.
      - run_machine. simplify_eq. rewrite Hlook. eauto.
      - run_machine. unfold new in Hstep. simplify_eq. simpl.
        rewrite lookup_insert_eq. eauto. }
    destruct Hhere as [l Hl].
    destruct (foldM_addImplied_grows implies acc1 st1) as [Hsub _].
    exists l. eapply lookup_weaken; [exact Hl | exact Hsub].
Qed.

Lemma visitTechnology_covers fingerprints acc st techName fp implied :
  fingerprints !! techName = Some fp → implied ∈ Implies fp →
  is_Some ((visitTechnology fingerprints acc techName st).1.1 !! implied).
Proof.
  intros Hfp Hin. unfold visitTechnology. rewrite Hfp.
  apply addImplied_covers, Hin.
Qed.

Lemma visited_covers fingerprints (names : list string) :
  ∀ acc st techName fp implied,
    techName ∈ names → fingerprints !! techName = Some fp → implied ∈ Implies fp →
    is_Some ((foldM (visitTechnology fingerprints) acc names st).1.1 !! implied).
Proof.
  induction names as [ | x names IH]; intros acc st techName fp implied Hin Hfp Himp.
  - inversion Hin.
  - simpl. run_machine.
    destruct (visitTechnology fingerprints acc x st) as [acc1 st1] eqn:Hstep.
    apply elem_of_cons in Hin as [-> | Hin]; [ | eapply IH; eassumption].
    pose proof (visitTechnology_covers fingerprints acc st x fp implied Hfp Himp) as [l Hl].
    rewrite Hstep in Hl.
    pose proof (foldM_grows (impliedSet fingerprints) (visitTechnology fingerprints)
                  names (λ acc0 y st0 _, visitTechnology_grows fingerprints acc0 y st0)
                  acc1 st1) as [Hsub _].
    exists l. eapply lookup_weaken; [exact Hl | exact Hsub].
Qed.

(** A round that leaves [changed] false has changed nothing, and then the
    map is closed. *)
Lemma quiet_pass fingerprints results st results' st' :
  impliedPass fingerprints results st = ((results', false), st') →
  results' = results ∧ st' = st ∧ closedUnder fingerprints results.
Proof.
  intros Hpass.
  pose proof (impliedPass_grows fingerprints results st) as Hgrow.
  rewrite Hpass in Hgrow.
  destruct Hgrow as (_ & _ & _ & _ & _ & Hsame & _). simpl in Hsame.
  specialize (Hsame eq_refl). simplify_eq. repeat split.
  intros techName fp implied [l Hl] Hfp Himp.
  assert (Hin : techName ∈ (map_to_list results).*1).
  { apply list_elem_of_fmap. exists (techName, l). split; [reflexivity | ].
    apply elem_of_map_to_list, Hl. }
  pose proof (visited_covers fingerprints _ (results, false) st techName fp implied
                Hin Hfp Himp) as Hcov.
  unfold impliedPass in Hpass. rewrite Hpass in Hcov. exact Hcov.
Qed.

(** A round that raises [changed] uses up one of the names still to add. *)
Lemma loud_pass fingerprints results st results' st' :
  impliedPass fingerprints results st = ((results', true), st') →
  size (impliedSet fingerprints ∖ dom results')
  < size (impliedSet fingerprints ∖ dom results).
Proof.
  intros Hpass.
  pose proof (impliedPass_grows fingerprints results st) as Hgrow.
  rewrite Hpass in Hgrow.
  destruct Hgrow as (Hsub & _ & _ & Hdom & _ & _ & Hnew & _). simpl in *.
  destruct (Hnew eq_refl) as [Hfalse | (n & Hin & Hnot)]; [discriminate | ].
  apply subset_size. split.
  - intros x [HxU Hx]%elem_of_difference. apply elem_of_difference. split; [exact HxU | ].
    intros Hold. apply Hx. apply (subseteq_dom _ _ Hsub), Hold.
  - intros Hback.
    assert (HnU : n ∈ impliedSet fingerprints).
    { apply Hdom, elem_of_union in Hin as [Hin | Hin]; [contradiction | exact Hin]. }
    assert (Hn : n ∈ impliedSet fingerprints ∖ dom results).
    { apply elem_of_difference. split; assumption. }
    apply Hback, elem_of_difference in Hn as [_ Hn]. contradiction.
Qed.

(** The closure loop ends, within as many rounds as there are names to add
    and one more, on a closed map that a further round leaves as it is. *)
Lemma closureLoop_ends fingerprints :
  ∀ fuel results st,
    size (impliedSet fingerprints ∖ dom results) < fuel →
    ∃ closed st',
      closureLoop fuel fingerprints results st = (Some closed, st')
      ∧ extends (impliedSet fingerprints) (results, st) (closed, st')
      ∧ impliedPass fingerprints closed st' = ((closed, false), st')
      ∧ closedUnder fingerprints closed.
Proof.
  induction fuel as [ | fuel IH]; intros results st Hfuel; [lia | ].
  simpl. run_machine.
  destruct (impliedPass fingerprints results st) as [[results' changed] st1] eqn:Hpass.
  pose proof (impliedPass_grows fingerprints results st) as Hgrow.
  rewrite Hpass in Hgrow. apply grows_extends in Hgrow. simpl in Hgrow.
  destruct changed; simpl.
  - pose proof (loud_pass _ _ _ _ _ Hpass) as Hless.
    destruct (IH results' st1) as (closed & st' & Hloop & Hext & Hfix & Hclosed); [lia | ].
    exists closed, st'. split; [exact Hloop | ]. split; [ | split; assumption].
    eapply extends_trans; eassumption.
  - destruct (quiet_pass _ _ _ _ _ Hpass) as (-> & -> & Hclosed).
    exists results, st. split; [reflexivity | ]. split; [apply extends_refl | ].
    split; assumption.
Qed.

Lemma impliedSet_size fingerprints (results : Results) :
  size (impliedSet fingerprints ∖ dom results) < S (length (impliedNames fingerprints)).
Proof.
  apply Nat.lt_succ_r. etrans; [apply subseteq_size, subseteq_difference_l; reflexivity | ].
  unfold impliedSet. generalize (impliedNames fingerprints). intros l.
  induction l as [ | x l IH].
  - rewrite list_to_set_nil, size_empty. simpl. lia.
  - rewrite list_to_set_cons, size_union_alt, size_singleton. simpl.
    pose proof (subseteq_size (list_to_set l ∖ {[x]}) (list_to_set l : gset string)
                  (subseteq_difference_l _ _ _ (reflexivity _))).
    lia.
Qed.

(** The closure adds no name that a closed set around the detected names
    does without: what it returns is the least closed map. *)
Lemma foldM_within {B} (names : gset string)
    (f : Results * bool → B → M World (Results * bool)) (l : list B) :
  (∀ acc x st, x ∈ l → dom acc.1 ⊆ names → dom (f acc x st).1.1 ⊆ names) →
  ∀ acc st, dom acc.1 ⊆ names → dom (foldM f acc l st).1.1 ⊆ names.
Proof.
  induction l as [ | x l IH]; intros Hf acc st Hacc; [exact Hacc | ].
  simpl. run_machine.
  pose proof (Hf acc x st (list_elem_of_here _ _) Hacc) as Hstep.
  destruct (f acc x st) as [acc' st']. apply IH; [ | exact Hstep].
  intros acc0 y st0 Hy. apply Hf, list_elem_of_further, Hy.
Qed.

Lemma addImplied_within (names : gset string) acc implied st :
  implied ∈ names → dom acc.1 ⊆ names → dom (addImplied acc implied st).1.1 ⊆ names.
Proof.
  intros Hin Hacc. unfold addImplied.
  destruct (acc.1 !! implied); [exact Hacc | ].
  run_machine. unfold new. simpl. rewrite dom_insert.
  intros x [->%elem_of_singleton | Hx]%elem_of_union; [exact Hin | apply Hacc, Hx].
Qed.

Lemma impliedPass_within fingerprints (names : gset string) (results : Results) st :
  closedSet fingerprints names → dom results ⊆ names →
  dom (impliedPass fingerprints results st).1.1 ⊆ names.
Proof.
  intros Hclosed Hres. unfold impliedPass.
  apply foldM_within; [ | exact Hres].
  intros acc techName st0 Hin Hacc. unfold visitTechnology.
  destruct (fingerprints !! techName) as [fp | ] eqn:Hfp; [ | exact Hacc].
  apply foldM_within; [ | exact Hacc].
  intros acc1 implied st1 Himp Hacc1. apply addImplied_within; [ | exact Hacc1].
  apply (Hclosed techName fp implied); [ | exact Hfp | exact Himp].
  apply Hres. apply list_elem_of_fmap in Hin as ([t l] & -> & Hin).
  apply elem_of_dom. exists l. apply elem_of_map_to_list, Hin.
Qed.

Lemma closureLoop_within fingerprints (names : gset string) :
  closedSet fingerprints names →
  ∀ fuel (results : Results) st closed st',
    closureLoop fuel fingerprints results st = (Some closed, st') →
    dom results ⊆ names → dom closed ⊆ names.
Proof.
  intros Hclosed. induction fuel as [ | fuel IH]; intros results st closed st' Hloop Hres.
  - discriminate Hloop.
  - simpl in Hloop. run_machine.
    pose proof (impliedPass_within fingerprints names results st Hclosed Hres) as Hpass.
    destruct (impliedPass fingerprints results st) as [[results' changed] st1].
    simpl in *. destruct changed.
    + eapply IH; eassumption.
    + simplify_eq. exact Hpass.
Qed.

(** C8: the implication closure returns, and running it again on what it
    returned gives the same map and leaves the machine as it is; the map it
    returns is closed under implication and has no name that a closed set
    around the initial names lacks; every entry of the initial map is in it
    with the pointer it had, no record of the heap is changed, and a name
    it adds has a record of its own with an empty version. *)
Theorem closure_idempotent fingerprints (results : Results) st :
  ∃ closed st',
    addImpliedTechnologies fingerprints results st = (Some closed, st')
    ∧ addImpliedTechnologies fingerprints closed st' = (Some closed, st')
    ∧ closedUnder fingerprints closed
    ∧ (∀ names, closedSet fingerprints names → dom results ⊆ names →
                dom closed ⊆ names)
    ∧ (∀ name l, results !! name = Some l → closed !! name = Some l)
    ∧ (∀ l tech, heap st !! l = Some tech → heap st' !! l = Some tech)
    ∧ (∀ name l, closed !! name = Some l → results !! name = None →
                 heap st' !! l = Some (mkTechnology name ""))
    ∧ world st' = world st.
Proof.
  destruct (closureLoop_ends fingerprints _ results st
              (impliedSet_size fingerprints results))
    as (closed & st' & Hloop & Hext & Hfix & Hclosed).
  destruct Hext as (Hsub & Hheap & Hworld & _ & _ & _ & _ & Hnew).
  simpl in Hsub, Hheap, Hworld, Hnew.
  exists closed, st'. split; [exact Hloop | ]. split; [ | split; [exact Hclosed | ]].
  - unfold addImpliedTechnologies. simpl. run_machine. rewrite Hfix. reflexivity.
  - split; [ | split; [ | split; [ | split; [exact Hnew | exact Hworld]]]].
    + intros names Hnames Hres.
      eapply closureLoop_within; [exact Hnames | exact Hloop | exact Hres].
    + intros name l Hl. eapply lookup_weaken; eassumption.
    + intros l tech Hl. eapply lookup_weaken; eassumption.
Qed.

End ClosureProperties.

(** Next.js brings React, and React brings JavaScript, each without a
    version; Next.js keeps its own. *)
Example closure_of_next :
  ∃ closed st',
    addImpliedTechnologies webStack {[ "Next.js" := 1%positive ]} nextDetected
    = (Some closed, st')
    ∧ size closed = 3
    ∧ (closed !! "Next.js" ≫= λ l, heap st' !! l) = Some (mkTechnology "Next.js" "14.1.0")
    ∧ (closed !! "React" ≫= λ l, heap st' !! l) = Some (mkTechnology "React" "")
    ∧ (closed !! "JavaScript" ≫= λ l, heap st' !! l) = Some (mkTechnology "JavaScript" "").
Proof.
  eexists _, _. split; [vm_compute; reflexivity | ].
  vm_compute. auto.
Qed.

(** ** The detection loop *)

(** After a fatal network error every classified path is in the list of
    failed paths, those fetched before the error among them. *)
Lemma markFailed_keeps (pathClassifications : list PathClassification) :
  ∀ failedPaths path,
    path ∈ failedPaths → path ∈ foldl markFailed failedPaths pathClassifications.
Proof.
  induction pathClassifications as [ | pc pcs IH]; intros failedPaths path Hin;
    [exact Hin | ].
  simpl. apply IH. unfold markFailed.
  destruct (negb _); [apply elem_of_app; left; exact Hin | exact Hin].
Qed.

Lemma markFailed_all (pathClassifications : list PathClassification) :
  ∀ failedPaths pc,
    pc ∈ pathClassifications →
    pc_Path pc ∈ foldl markFailed failedPaths pathClassifications.
Proof.
  induction pathClassifications as [ | pc0 pcs IH]; intros failedPaths pc Hin.
  - inversion Hin.
  - simpl. apply elem_of_cons in Hin as [-> | Hin]; [ | apply IH, Hin].
    apply markFailed_keeps. unfold markFailed.
    destruct (existsb _ failedPaths) eqn:Hex; simpl.
    + apply existsb_exists in Hex as (fp & Hfp & Heq).
      apply String.eqb_eq in Heq. subst fp. apply list_elem_of_In, Hfp.
    + apply elem_of_app. right. apply list_elem_of_here.
Qed.

Section FatalErrors.
Context {World : Type} {HL : HTTPLib World} {RL : RegexpLib}.

(** A fatal error ends the run where it occurs, with every classified path
    in the list of failed paths. *)
Lemma fatal_marks_every_path baseURL all pc rest (results : Results) failed
    (st st' : Machine World) e :
  requestWithRetry (TrimSuffix baseURL "/" +:+ pc_Path pc) (RequestConf pc) st
  = (Err e, st') →
  Contains e "no such host" || Contains e "network is unreachable" = true →
  ∃ failed',
    rangeClassifications baseURL all (pc :: rest) results failed st
    = ((results, failed'), st')
    ∧ (∀ q, q ∈ all → pc_Path q ∈ failed')
    ∧ (∀ path, path ∈ failed → path ∈ failed').
Proof.
  intros Hfetch Hfatal. simpl. run_machine. rewrite Hfetch, Hfatal.
  eexists. split; [reflexivity | ]. split.
  - intros q Hq. apply markFailed_all, Hq.
  - intros path Hpath. apply markFailed_keeps, elem_of_app. left. exact Hpath.
Qed.

(** Any other failure marks the path it occurs on, and the run goes on. *)
Lemma other_failure_marks_own_path baseURL all pc rest (results : Results) failed
    (st st' : Machine World) e :
  requestWithRetry (TrimSuffix baseURL "/" +:+ pc_Path pc) (RequestConf pc) st
  = (Err e, st') →
  Contains e "no such host" || Contains e "network is unreachable" = false →
  rangeClassifications baseURL all (pc :: rest) results failed st
  = rangeClassifications baseURL all rest results (failed ++ [pc_Path pc])%list st'.
Proof.
  intros Hfetch Hfatal. simpl. run_machine. rewrite Hfetch, Hfatal. reflexivity.
Qed.

(** A fetched path has its technologies evaluated, and the run goes on:
    every turn of the loop takes one classification and fetches it once. *)
Lemma fetched_path_moves_on baseURL all pc rest (results : Results) failed
    (st st' : Machine World) ctx :
  requestWithRetry (TrimSuffix baseURL "/" +:+ pc_Path pc) (RequestConf pc) st
  = (Ok ctx, st') →
  rangeClassifications baseURL all (pc :: rest) results failed st
  = (let '(results', st'') :=
       foldM (detectTechnology ctx) results (map_to_list (Technologies pc)) st' in
     rangeClassifications baseURL all rest results' failed st'').
Proof. intros Hfetch. simpl. run_machine. rewrite Hfetch. reflexivity. Qed.

End FatalErrors.

(** C2, on a run of three classified paths: [/admin] is fetched and Beta is
    detected on it; the fetch of [/login] fails twice with "no such host";
    [/] is not requested. The list of failed paths then holds [/login], the
    path [/] that was not attempted, and also [/admin], which had been
    fetched. *)
Theorem fatal_error_marks_fetched_path :
  let run := DetectHTTP (HL := scripted dnsDies) (RL := literalRegexp)
               "http://a.test" threePaths start in
  pc_Path <$> ClassifyByPath threePaths = ["/admin"; "/login"; "/"]
  ∧ requested (world run.2)
    = ["http://a.test/admin"; "http://a.test/login"; "http://a.test/login"]
  ∧ is_Some (run.1.1 !! "Beta")
  ∧ run.1.2 = ["/login"; "/admin"; "/"].
Proof. vm_compute. repeat split; eauto. Qed.

(** A failure that is not fatal marks its own path and no other: the fetch
    of [/login] times out twice, and the two other paths are fetched. *)
Example timeout_marks_one_path :
  let run := DetectHTTP (HL := scripted oneTimeout) (RL := literalRegexp)
               "http://a.test/" threePaths start in
  run.1.2 = ["/login"]
  ∧ requested (world run.2)
    = ["http://a.test/admin"; "http://a.test/login"; "http://a.test/login";
       "http://a.test/"]
  ∧ is_Some (run.1.1 !! "Alpha") ∧ is_Some (run.1.1 !! "Beta").
Proof. vm_compute. repeat split; eauto. Qed.

(** ** The browser stage *)

Lemma upgrades_refl x : upgrades x x.
Proof. split; [reflexivity | ]. intros l t Hl. exists t. auto. Qed.

Lemma upgrades_trans x y z : upgrades x y → upgrades y z → upgrades x z.
Proof.
  intros [Hr1 Hh1] [Hr2 Hh2]. split; [etrans; eassumption | ].
  intros l t Hl. destruct (Hh1 l t Hl) as (t1 & Hl1 & Hn1 & Hv1).
  destruct (Hh2 l t1 Hl1) as (t2 & Hl2 & Hn2 & Hv2).
  exists t2. split; [exact Hl2 | ]. split; [congruence | ].
  intros Hv. rewrite <- (Hv1 Hv). apply Hv2. rewrite (Hv1 Hv). exact Hv.
Qed.

Lemma upgrades_new (results : Results) (h : gmap loc Technology) techName t :
  results !! techName = None →
  upgrades (results, h) (<[techName := fresh (dom h)]> results, <[fresh (dom h) := t]> h).
Proof.
  intros Hnone. split; simpl.
  - apply insert_subseteq, Hnone.
  - intros l t0 Hl. exists t0. split; [ | auto].
    rewrite lookup_insert_ne; [exact Hl | ].
    intros <-. apply (is_fresh (dom h)), elem_of_dom. eauto.
Qed.

Lemma upgrades_store (results : Results) (h : gmap loc Technology) tech v :
  from_option Version "" (h !! tech) = "" →
  upgrades (results, h) (results, alter (λ t, mkTechnology (Name t) v) tech h).
Proof.
  intros Hempty. split; [reflexivity | ]. simpl. intros l t Hl.
  destruct (decide (l = tech)) as [-> | Hne].
  - rewrite lookup_alter_eq, Hl. simpl. eexists. split; [reflexivity | ].
    split; [reflexivity | ]. rewrite Hl in Hempty. simpl in Hempty. congruence.
  - rewrite lookup_alter_ne by congruence. exists t. auto.
Qed.

Section BrowserProperties.
Context {World : Type} {CD : Chromedp World}.

Lemma foldM_upgrades {B} (f : Results → B → M World Results) (l : list B) :
  (∀ results x st, upgrades (results, heap st)
                     ((f results x st).1, heap (f results x st).2)) →
  ∀ results st, upgrades (results, heap st)
                  ((foldM f results l st).1, heap (foldM f results l st).2).
Proof.
  intros Hf. induction l as [ | x l IH]; intros results st; [apply upgrades_refl | ].
  simpl. run_machine. pose proof (Hf results x st) as Hstep.
  destruct (f results x st) as [results' st1]. simpl in Hstep.
  eapply upgrades_trans; [exact Hstep | apply IH].
Qed.

Lemma rangeBrowserProbes_upgrades techName (probes : list BrowserProbe) :
  ∀ (results : Results) (st : Machine World),
    upgrades (results, heap st)
      ((rangeBrowserProbes techName probes results st).1,
       heap (rangeBrowserProbes techName probes results st).2).
Proof.
  induction probes as [ | probe probes IH]; intros results st; [apply upgrades_refl | ].
  assert (Hrest : ∀ w, upgrades (results, heap st)
            ((rangeBrowserProbes techName probes results (mkMachine w (heap st))).1,
             heap (rangeBrowserProbes techName probes results (mkMachine w (heap st))).2))
    by (intros w; apply (IH results (mkMachine w (heap st)))).
  assert (Hhere : upgrades (results, heap st)
            ((rangeBrowserProbes techName probes results st).1,
             heap (rangeBrowserProbes techName probes results st).2))
    by apply IH.
  simpl. unfold ShouldRunBrowserDetection, loadVersion, storeVersion, new.
  run_machine.
  repeat (case_match; simplify_eq; simpl in *);
    try apply upgrades_refl; try apply Hrest; try exact Hhere;
    try (apply upgrades_new; assumption);
    try (apply upgrades_store; simpl;
         match goal with
         | Hv : (_ =? "") = true |- _ => apply String.eqb_eq in Hv; exact Hv
         | Hv : _ && (_ =? "") = true |- _ =>
             apply andb_true_iff in Hv as [_ Hv]; apply String.eqb_eq in Hv; exact Hv
         end).
Qed.

Lemma browsePath_upgrades baseURL (results : Results)
    (classification : BrowserPathClassification) (st : Machine World) :
  upgrades (results, heap st)
    ((browsePath baseURL results classification st).1,
     heap (browsePath baseURL results classification st).2).
Proof.
  unfold browsePath. run_machine.
  destruct (Navigate _ (world st)) as [[err | ] w1]; simpl; [apply upgrades_refl | ].
  destruct (WaitReady _ w1) as [[err | ] w2]; simpl; [apply upgrades_refl | ].
  apply (foldM_upgrades (λ results kv, rangeBrowserProbes kv.1 kv.2 results)
           _ (λ r kv s, rangeBrowserProbes_upgrades kv.1 kv.2 r s)
           results (mkMachine w2 (heap st))).
Qed.

(** The browser stage keeps every entry of the map it is given with its
    pointer, keeps every name and every version that is not empty, and
    returns no error. *)
Lemma DetectBrowser_upgrades baseURL fingerprints (httpResults : Results)
    (st : Machine World) :
  ∃ results st',
    DetectBrowser baseURL fingerprints httpResults st = (Ok results, st')
    ∧ upgrades (httpResults, heap st) (results, heap st').
Proof.
  assert (Hcopy : map_fold (λ k (v : loc) (results : Results), <[k := v]> results)
                    ∅ httpResults = httpResults).
  { apply (map_fold_weak_ind (λ r m, r = m)); [reflexivity | ].
    intros k v m r Hk ->. reflexivity. }
  unfold DetectBrowser. rewrite Hcopy.
  destruct (length _ =? 0)%nat; run_machine.
  { eexists _, _. split; [reflexivity | apply upgrades_refl]. }
  pose proof (foldM_upgrades (browsePath baseURL) (ClassifyBrowserByPath fingerprints)
                (browsePath_upgrades baseURL) httpResults st) as Hfold.
  destruct (foldM (browsePath baseURL) httpResults _ st) as [results st'].
  eexists _, _. split; [reflexivity | exact Hfold].
Qed.

End BrowserProperties.

(** [DetectBrowser] never returns an error: the branch of [Detect] that
    falls back on the HTTP results is never taken. *)
Lemma DetectBrowser_never_fails {World} {CD : Chromedp World}
    baseURL fingerprints (httpResults : Results) (st : Machine World) :
  ∃ results st', DetectBrowser baseURL fingerprints httpResults st = (Ok results, st').
Proof.
  unfold DetectBrowser. destruct (length _ =? 0)%nat; run_machine; [eauto | ].
  destruct (foldM _ _ _ st) as [results st']. eauto.
Qed.

(** C4, on a site where React is detected over HTTP without a version: the
    HTTP stage leaves React's record at location 1 with an empty version;
    the browser stage, handed that result map, fails to open one of its two
    paths, returns no error, and has written the version 18.2.0 into the
    record the HTTP result map points to, so that the entry of the HTTP
    results itself now reads 18.2.0. *)
Theorem browser_stage_writes_through :
  DetectHTTP (HL := scripted reactSite) (RL := literalRegexp)
    "http://a.test/" reactAndVue start
  = ((reactResults, []), reactDetected)
  ∧ (reactResults !! "React" ≫= λ tech, heap reactDetected !! tech)
    = Some (mkTechnology "React" "")
  ∧ ∃ st',
      DetectBrowser (CD := headless) "http://a.test/" reactAndVue reactResults reactDetected
      = (Ok reactResults, st')
      ∧ (reactResults !! "React" ≫= λ tech, heap st' !! tech)
        = Some (mkTechnology "React" "18.2.0").
Proof.
  split; [vm_compute; reflexivity | ].
  split; [vm_compute; reflexivity | ].
  eexists. split; vm_compute; reflexivity.
Qed.

(** The same site through [Detect]: without the browser stage React has no
    version, with it React has the version the browser read. *)
Example detect_react :
  (Detect (HL := scripted reactSite) (CD := headless) (RL := literalRegexp)
     reactAndVue "http://a.test/" false start).1
  = Some (mkDetectResult [mkTechnology "React" ""] [])
  ∧ (Detect (HL := scripted reactSite) (CD := headless) (RL := literalRegexp)
       reactAndVue "http://a.test/" true start).1
    = Some (mkDetectResult [mkTechnology "React" "18.2.0"] []).
Proof. split; vm_compute; reflexivity. Qed.

(** ** Path classification *)

Lemma classifyProbe_lookup techName (pathMap : gmap string PathClassification) probe key :
  classifyProbe techName pathMap probe !! key
  = if decide (key = Path probe)
    then Some (appendProbe techName probe
                 (default (mkPathClassification (Path probe) (Request probe) ∅)
                    (pathMap !! Path probe)))
    else pathMap !! key.
Proof.
  unfold classifyProbe.
  destruct (decide (key = Path probe)) as [-> | Hne].
  - rewrite lookup_alter_eq. destruct (pathMap !! Path probe) as [pc | ] eqn:Hlook.
    + rewrite Hlook. reflexivity.
    + rewrite lookup_insert_eq. reflexivity.
  - rewrite lookup_alter_ne by congruence.
    destruct (pathMap !! Path probe); [reflexivity | ].
    rewrite lookup_insert_ne by congruence. reflexivity.
Qed.

Lemma inGroup_appendProbe techName probe pc t p :
  inGroup (appendProbe techName probe pc) t p
  ↔ inGroup pc t p ∨ (t = techName ∧ p = probe).
Proof.
  unfold inGroup, appendProbe. simpl.
  destruct (decide (t = techName)) as [-> | Hne].
  - rewrite lookup_insert_eq. simpl. rewrite elem_of_app, list_elem_of_singleton.
    naive_solver.
  - rewrite lookup_insert_ne by congruence. naive_solver.
Qed.

Lemma inGroup_new path request t p :
  ¬ inGroup (mkPathClassification path request ∅) t p.
Proof. unfold inGroup. simpl. rewrite lookup_empty. simpl. apply not_elem_of_nil. Qed.

Lemma classified_empty : classified ∅ [].
Proof.
  unfold classified. split; [ | split].
  - intros key pc Hlook. rewrite lookup_empty in Hlook. discriminate.
  - intros key pc t p Hlook. rewrite lookup_empty in Hlook. discriminate.
  - intros t p Hin. inversion Hin.
Qed.

Lemma classified_step pathMap done techName probe :
  classified pathMap done →
  classified (classifyProbe techName pathMap probe) (done ++ [(techName, probe)]).
Proof.
  intros (Hkey & Hin & Hdone). unfold classified. split; [ | split].
  - intros key pc. rewrite classifyProbe_lookup.
    destruct (decide (key = Path probe)) as [-> | Hne].
    + intros [= <-]. destruct (pathMap !! Path probe) as [pc0 | ] eqn:Hlook; simpl.
      * destruct (Hkey _ _ Hlook) as (Hpath & t & p & Hp & Hpp & Hreq & Hg).
        split; [exact Hpath | ]. exists t, p.
        split; [apply elem_of_app; left; exact Hp | ].
        split; [exact Hpp | ]. split; [exact Hreq | ].
        apply inGroup_appendProbe. left. exact Hg.
      * split; [reflexivity | ]. exists techName, probe.
        split; [apply elem_of_app; right; apply list_elem_of_here | ].
        split; [reflexivity | ]. split; [reflexivity | ].
        apply inGroup_appendProbe. right. split; reflexivity.
    + intros Hlook.
      destruct (Hkey _ _ Hlook) as (Hpath & t & p & Hp & Hpp & Hreq & Hg).
      split; [exact Hpath | ]. exists t, p.
      split; [apply elem_of_app; left; exact Hp | ]. repeat split; assumption.
  - intros key pc t p. rewrite classifyProbe_lookup.
    destruct (decide (key = Path probe)) as [-> | Hne].
    + intros [= <-]. rewrite inGroup_appendProbe. intros [Hold | [-> ->]].
      * destruct (pathMap !! Path probe) as [pc0 | ] eqn:Hlook; simpl in Hold.
        -- destruct (Hin _ _ _ _ Hlook Hold) as [Hp Hpp].
           split; [apply elem_of_app; left; exact Hp | exact Hpp].
        -- exfalso. exact (inGroup_new _ _ _ _ Hold).
      * split; [apply elem_of_app; right; apply list_elem_of_here | reflexivity].
    + intros Hlook Hg. destruct (Hin _ _ _ _ Hlook Hg) as [Hp Hpp].
      split; [apply elem_of_app; left; exact Hp | exact Hpp].
  - intros t p [Hold | Hnew%list_elem_of_singleton]%elem_of_app.
    + destruct (Hdone _ _ Hold) as (pc & Hlook & Hg).
      rewrite classifyProbe_lookup.
      destruct (decide (Path p = Path probe)) as [Heq | Hne].
      * eexists. split; [reflexivity | ]. apply inGroup_appendProbe. left.
        rewrite <- Heq, Hlook. exact Hg.
      * exists pc. split; assumption.
    + injection Hnew as -> ->. rewrite classifyProbe_lookup.
      rewrite decide_True by reflexivity.
      eexists. split; [reflexivity | ]. apply inGroup_appendProbe. right. split; reflexivity.
Qed.

Lemma classified_foldl (probes : list (string * PathProbe)) :
  ∀ pathMap done,
    classified pathMap done →
    classified (foldl (λ pm tp, classifyProbe tp.1 pm tp.2) pathMap probes)
      (done ++ probes).
Proof.
  induction probes as [ | [t p] probes IH]; intros pathMap done Hinv; simpl.
  - rewrite app_nil_r. exact Hinv.
  - replace (done ++ (t, p) :: probes)%list with ((done ++ [(t, p)]) ++ probes)%list
      by (rewrite <- app_assoc; reflexivity).
    apply IH, classified_step, Hinv.
Qed.

Lemma classifyAll_flat fingerprints :
  classifyAll fingerprints
  = foldl (λ pm tp, classifyProbe tp.1 pm tp.2) ∅ (probesOf fingerprints).
Proof.
  unfold classifyAll, probesOf. generalize (∅ : gmap string PathClassification).
  induction (map_to_list fingerprints) as [ | [t fp] l IH]; intros pathMap;
    [reflexivity | ].
  simpl. rewrite foldl_app, IH. f_equal.
  unfold classifyFingerprint. simpl. rewrite foldl_fmap. reflexivity.
Qed.

Lemma declared_probesOf fingerprints t p :
  (t, p) ∈ probesOf fingerprints ↔ declared fingerprints t p.
Proof.
  unfold probesOf, declared. rewrite list_elem_of_bind. split.
  - intros ([t' fp] & Hin & Hkv). simpl in Hin.
    apply list_elem_of_fmap in Hin as (p' & [= -> ->] & Hp).
    exists fp. split; [apply elem_of_map_to_list, Hkv | exact Hp].
  - intros (fp & Hfp & Hp). exists (t, fp). split.
    + simpl. apply list_elem_of_fmap. exists p. split; [reflexivity | exact Hp].
    + apply elem_of_map_to_list, Hfp.
Qed.

Lemma classifyAll_classified fingerprints :
  classified (classifyAll fingerprints) (probesOf fingerprints).
Proof.
  rewrite classifyAll_flat.
  apply (classified_foldl (probesOf fingerprints) ∅ [] classified_empty).
Qed.

Lemma ClassifyByPath_elem fingerprints pc :
  pc ∈ ClassifyByPath fingerprints
  ↔ ∃ key, classifyAll fingerprints !! key = Some pc.
Proof.
  unfold ClassifyByPath. rewrite list_elem_of_fmap. split.
  - intros ([key pc'] & -> & Hin). exists key. apply elem_of_map_to_list, Hin.
  - intros (key & Hlook). exists (key, pc). split; [reflexivity | ].
    apply elem_of_map_to_list, Hlook.
Qed.

Lemma ClassifyByPath_paths fingerprints :
  pc_Path <$> ClassifyByPath fingerprints = (map_to_list (classifyAll fingerprints)).*1.
Proof.
  unfold ClassifyByPath. rewrite <- list_fmap_compose.
  apply list_fmap_ext. intros i [key pc] Hin%list_elem_of_lookup_2%elem_of_map_to_list.
  simpl. apply (proj1 (classifyAll_classified fingerprints)), Hin.
Qed.





(** * Further properties of the code *)

(** ** query.go: the combinators *)

Section CombinatorProperties.
Context {RL : RegexpLib}.

Lemma rangeOr_shape ev ctx (l : list Value) :
  rangeOr ev ctx l = (false, "") ∨ (rangeOr ev ctx l).1 = true.
Proof.
  induction l as [ | c l IH]; [left; reflexivity | ].
  destruct c as [ | | | | | q]; simpl; try exact IH.
  destruct (ev q ctx) as [[] v]; [right; reflexivity | exact IH].
Qed.

Lemma rangeAnd_shape ev ctx (l : list Value) :
  ∀ version, rangeAnd ev ctx version l = (false, "")
             ∨ (rangeAnd ev ctx version l).1 = true.
Proof.
  induction l as [ | c l IH]; intros version; [right; reflexivity | ].
  destruct c as [ | | | | | q]; simpl; try (left; reflexivity).
  destruct (ev q ctx) as [[] v]; simpl; [apply IH | left; reflexivity].
Qed.

Lemma rangeNor_version ev ctx (l : list Value) : (rangeNor ev ctx l).2 = "".
Proof.
  induction l as [ | c l IH]; [reflexivity | ].
  destruct c as [ | | | | | q]; simpl; try exact IH.
  destruct (ev q ctx) as [[] v]; [reflexivity | exact IH].
Qed.

Lemma evaluateRegex_shape fieldValue pattern :
  evaluateRegex fieldValue pattern = (false, "")
  ∨ (evaluateRegex fieldValue pattern).1 = true.
Proof.
  unfold evaluateRegex. destruct pattern; try (left; reflexivity).
  destruct (Compile _); [ | left; reflexivity].
  destruct (length _ =? 0)%nat; [left | right]; reflexivity.
Qed.

Lemma rangeOperators_shape fieldValue (condMap : list (string * Value)) :
  rangeOperators fieldValue condMap = (false, "")
  ∨ (rangeOperators fieldValue condMap).1 = true.
Proof.
  induction condMap as [ | [operator operand] rest IH]; [left; reflexivity | ].
  cbn [rangeOperators].
  destruct (String.eqb operator "$regex"); [apply evaluateRegex_shape | ].
  destruct (String.eqb operator "$eq").
  { destruct operand; simpl; try (left; reflexivity).
    destruct (String.eqb fieldValue s); [right | left]; reflexivity. }
  destruct (String.eqb operator "$ne").
  { destruct operand; simpl; try (left; reflexivity).
    destruct (String.eqb fieldValue s); [left | right]; reflexivity. }
  destruct (String.eqb operator "$exists").
  { destruct operand; simpl; try (left; reflexivity).
    destruct (Bool.eqb _ b); [right | left]; reflexivity. }
  destruct (String.eqb operator "$in").
  { destruct operand; simpl; try (left; reflexivity).
    destruct (rangeIn fieldValue l); [right | left]; reflexivity. }
  destruct (String.eqb operator "$nin").
  { destruct operand; simpl; try (left; reflexivity).
    destruct (rangeIn fieldValue l); [left | right]; reflexivity. }
  exact IH.
Qed.

(** Whatever the expression, a result that is not a match carries no
    version. *)
Theorem no_match_no_version (query : Query) ctx :
  evaluateQuery query ctx = (false, "") ∨ (evaluateQuery query ctx).1 = true.
Proof.
  destruct query as [ | [key value] rest]; [left; reflexivity | ].
  rewrite evaluateQuery_cons, evaluateKey_eq.
  destruct (String.eqb key "$or").
  { destruct value; try (left; reflexivity). apply rangeOr_shape. }
  destruct (String.eqb key "$and").
  { destruct value; try (left; reflexivity). apply rangeAnd_shape. }
  destruct (String.eqb key "$not").
  { destruct value as [ | | | | | q]; try (left; reflexivity). simpl.
    destruct (evaluateQuery q ctx) as [[] v]; [left | right]; reflexivity. }
  destruct (String.eqb key "$nor").
  { destruct value as [ | | | | l | ]; try (left; reflexivity). simpl.
    pose proof (rangeNor_version evaluateQuery ctx l) as Hv.
    destruct (rangeNor evaluateQuery ctx l) as [[] v]; simpl in Hv; subst;
      [right | left]; reflexivity. }
  unfold evaluateField. destruct (String.eqb _ ""); [left; reflexivity | ].
  destruct value; try (left; reflexivity). apply rangeOperators_shape.
Qed.

End CombinatorProperties.

Section CombinatorSemantics.
Context {RL : RegexpLib}.

Lemma evaluateQuery_or value ctx :
  evaluateQuery [("$or", value)] ctx = evaluateOr evaluateQuery value ctx.
Proof. rewrite evaluateQuery_cons, evaluateKey_eq. reflexivity. Qed.

Lemma evaluateQuery_and value ctx :
  evaluateQuery [("$and", value)] ctx = evaluateAnd evaluateQuery value ctx.
Proof. rewrite evaluateQuery_cons, evaluateKey_eq. reflexivity. Qed.

Lemma evaluateQuery_nor value ctx :
  evaluateQuery [("$nor", value)] ctx = evaluateNor evaluateQuery value ctx.
Proof. rewrite evaluateQuery_cons, evaluateKey_eq. reflexivity. Qed.

Lemma rangeOr_first ctx (l : list Value) v :
  rangeOr evaluateQuery ctx l = (true, v) →
  ∃ l1 q l2, l = (l1 ++ VMap q :: l2)%list ∧ evaluateQuery q ctx = (true, v)
             ∧ ∀ q', VMap q' ∈ l1 → (evaluateQuery q' ctx).1 = false.
Proof.
  induction l as [ | c l IH]; [discriminate | ].
  assert (Hskip : rangeOr evaluateQuery ctx l = (true, v) →
                  (∀ q', c = VMap q' → (evaluateQuery q' ctx).1 = false) →
                  ∃ l1 q l2, (c :: l) = (l1 ++ VMap q :: l2)%list
                             ∧ evaluateQuery q ctx = (true, v)
                             ∧ ∀ q', VMap q' ∈ l1 → (evaluateQuery q' ctx).1 = false).
  { intros Hl Hc. destruct (IH Hl) as (l1 & q & l2 & -> & Hq & Hbefore).
    exists (c :: l1), q, l2. split; [reflexivity | ]. split; [exact Hq | ].
    intros q' [Heq | Hin]%elem_of_cons; [apply Hc; symmetry; exact Heq | apply Hbefore, Hin]. }
  destruct c as [ | | | | | q]; simpl; try (intros Hl; apply Hskip; [exact Hl | discriminate]).
  destruct (evaluateQuery q ctx) as [[] vq] eqn:Hq.
  - intros [= <-]. exists [], q, l. split; [reflexivity | ]. split; [exact Hq | ].
    intros q' Hin. inversion Hin.
  - intros Hl. apply Hskip; [exact Hl | ]. intros q' [= <-]. rewrite Hq. reflexivity.
Qed.

Lemma rangeOr_some ctx (l : list Value) q :
  VMap q ∈ l → (evaluateQuery q ctx).1 = true → (rangeOr evaluateQuery ctx l).1 = true.
Proof.
  intros Hin Hq. induction l as [ | c l IH]; [inversion Hin | ].
  apply elem_of_cons in Hin as [<- | Hin].
  - simpl. destruct (evaluateQuery q ctx) as [[] v]; [reflexivity | discriminate].
  - destruct c as [ | | | | | q0]; simpl; try (apply IH, Hin).
    destruct (evaluateQuery q0 ctx) as [[] v]; [reflexivity | apply IH, Hin].
Qed.

(** [$or] over a list matches exactly when some child that is an object
    matches, and then returns the version of the first such child. *)
Theorem or_first_match (l : list Value) ctx :
  ((evaluateQuery [("$or", VList l)] ctx).1 = true
   ↔ ∃ q, VMap q ∈ l ∧ (evaluateQuery q ctx).1 = true)
  ∧ ∀ v, evaluateQuery [("$or", VList l)] ctx = (true, v) →
         ∃ l1 q l2, l = (l1 ++ VMap q :: l2)%list ∧ evaluateQuery q ctx = (true, v)
                    ∧ ∀ q', VMap q' ∈ l1 → (evaluateQuery q' ctx).1 = false.
Proof.
  rewrite evaluateQuery_or. simpl. split; [split | ].
  - intros Hor. destruct (rangeOr evaluateQuery ctx l) as [b v] eqn:Hrun.
    simpl in Hor. subst b.
    destruct (rangeOr_first ctx l v Hrun) as (l1 & q & l2 & -> & Hq & _).
    exists q. split; [ | rewrite Hq; reflexivity].
    apply elem_of_app. right. apply list_elem_of_here.
  - intros (q & Hin & Hq). eapply rangeOr_some; eassumption.
  - apply rangeOr_first.
Qed.

Lemma rangeAnd_all ctx (l : list Value) :
  ∀ acc,
    ((rangeAnd evaluateQuery ctx acc l).1 = true
     ↔ ∀ c, c ∈ l → ∃ q, c = VMap q ∧ (evaluateQuery q ctx).1 = true)
    ∧ ((rangeAnd evaluateQuery ctx acc l).1 = true →
       (rangeAnd evaluateQuery ctx acc l).2
       = default acc (last (filter (λ v, v ≠ "") (childVersion ctx <$> l)))).
Proof.
  induction l as [ | c l IH]; intros acc.
  { split; [split | ]; [ | reflexivity | reflexivity].
    intros _ c Hc. inversion Hc. }
  assert (Hbad : (∀ q, c ≠ VMap q) →
                 ¬ ∀ c0, c0 ∈ c :: l → ∃ q, c0 = VMap q ∧ (evaluateQuery q ctx).1 = true).
  { intros Hc Hall. destruct (Hall c (list_elem_of_here _ _)) as (q & -> & _).
    exact (Hc q eq_refl). }
  destruct c as [ | | | | | q]; cbn [rangeAnd];
    try (split; [split; [discriminate | intros Hall; exfalso; eapply Hbad;
                           [discriminate | exact Hall]] | discriminate]).
  assert (Hcv : childVersion ctx (VMap q) = (evaluateQuery q ctx).2) by reflexivity.
  rewrite fmap_cons, Hcv. clear Hcv.
  destruct (evaluateQuery q ctx) as [[] vq] eqn:Hq; cbn [negb fst snd].
  - destruct (IH (if negb (String.eqb vq "") then vq else acc)) as [Hiff Hver].
    split; [split | ].
    + intros Hrun c [-> | Hin]%elem_of_cons.
      * exists q. rewrite Hq. split; reflexivity.
      * apply Hiff; assumption.
    + intros Hall. apply Hiff. intros c Hin. apply Hall, list_elem_of_further, Hin.
    + intros Hrun. rewrite (Hver Hrun). clear Hiff Hver Hrun.
      generalize (childVersion ctx <$> l). intros versions.
      destruct (String.eqb_spec vq "") as [-> | Hne]; cbn [negb].
      * rewrite filter_cons_False by (intros Hn; apply Hn; reflexivity). reflexivity.
      * rewrite filter_cons_True by exact Hne.
        destruct (filter _ versions) as [ | v vs]; [reflexivity | ].
        rewrite (last_cons_cons vq v vs).
        destruct (last (v :: vs)) eqn:Hlast; [reflexivity | ].
        apply last_None in Hlast. discriminate.
  - split; [split; [discriminate | ] | discriminate].
    intros Hall. destruct (Hall (VMap q) (list_elem_of_here _ _)) as (q' & [= <-] & Hm).
    rewrite Hq in Hm. discriminate.
Qed.

(** [$and] over a list matches exactly when every child is an object that
    matches, and then returns the last version that is not empty. *)
Theorem and_all_last_version (l : list Value) ctx :
  ((evaluateQuery [("$and", VList l)] ctx).1 = true
   ↔ ∀ c, c ∈ l → ∃ q, c = VMap q ∧ (evaluateQuery q ctx).1 = true)
  ∧ ((evaluateQuery [("$and", VList l)] ctx).1 = true →
     (evaluateQuery [("$and", VList l)] ctx).2 = lastNonEmpty (childVersion ctx <$> l)).
Proof. rewrite evaluateQuery_and. apply (rangeAnd_all ctx l ""). Qed.

Lemma rangeNor_or ctx (l : list Value) :
  rangeNor evaluateQuery ctx l = (negb (rangeOr evaluateQuery ctx l).1, "").
Proof.
  induction l as [ | c l IH]; [reflexivity | ].
  destruct c as [ | | | | | q]; simpl; try exact IH.
  destruct (evaluateQuery q ctx) as [[] v]; [reflexivity | exact IH].
Qed.

(** [$nor] over a list is [$not] of [$or] over it; over a value that is not
    a list [$nor] does not match, while [$not] of [$or] does. *)
Theorem nor_is_not_or value ctx :
  match value with
  | VList _ =>
      evaluateQuery [("$nor", value)] ctx
      = evaluateQuery [("$not", VMap [("$or", value)])] ctx
  | _ =>
      evaluateQuery [("$nor", value)] ctx = (false, "")
      ∧ evaluateQuery [("$not", VMap [("$or", value)])] ctx = (true, "")
  end.
Proof.
  rewrite evaluateQuery_nor, evaluateQuery_not. unfold evaluateNot.
  rewrite evaluateQuery_or.
  destruct value as [ | | | | l | ]; try (split; reflexivity).
  simpl. rewrite rangeNor_or.
  destruct (rangeOr evaluateQuery ctx l) as [b v]. reflexivity.
Qed.

Lemma rangeIn_elem fieldValue (values : list Value) :
  rangeIn fieldValue values = true ↔ VStr fieldValue ∈ values.
Proof.
  induction values as [ | v values IH]; simpl.
  - split; [discriminate | intros Hin; inversion Hin].
  - rewrite elem_of_cons, <- IH.
    destruct v as [ | | | s | | ]; try (split; [auto | intros [[=] | ?]; assumption]).
    destruct (String.eqb_spec fieldValue s) as [-> | Hne].
    + split; auto.
    + split; [auto | intros [[= ->] | ?]; [contradiction | assumption]].
Qed.

(** [$in] and [$nin] never both match; over a list of values one is the
    negation of the other, and [$in] matches exactly when the value is a
    string of the list; over anything else neither matches. *)
Theorem in_nin_dual fieldValue operand :
  (evaluateIn fieldValue operand).1 && (evaluateNotIn fieldValue operand).1 = false
  ∧ match operand with
    | VList values =>
        (evaluateNotIn fieldValue operand).1 = negb (evaluateIn fieldValue operand).1
        ∧ ((evaluateIn fieldValue operand).1 = true ↔ VStr fieldValue ∈ values)
    | _ =>
        evaluateIn fieldValue operand = (false, "")
        ∧ evaluateNotIn fieldValue operand = (false, "")
    end.
Proof.
  destruct operand as [ | | | | values | ]; simpl; try (split; [ | split]; reflexivity).
  split; [apply andb_negb_r | ]. split; [reflexivity | apply rangeIn_elem].
Qed.

Lemma rangeOperators_first fieldValue (condMap : list (string * Value)) :
  (rangeOperators fieldValue condMap).1 = true →
  ∃ operator operand,
    firstOperator condMap = Some (operator, operand)
    ∧ wellShaped operator operand = true.
Proof.
  induction condMap as [ | [operator operand] rest IH]; [discriminate | ].
  cbn [rangeOperators firstOperator]. unfold isOperator, wellShaped. cbn [existsb].
  destruct (String.eqb operator "$regex") eqn:H1; simpl.
  { intros Hm. exists operator, operand. split; [reflexivity | ].
    destruct operand; try discriminate Hm;
      simpl; rewrite ?H1, ?H2, ?H3, ?H4, ?H5, ?H6; reflexivity. }
  destruct (String.eqb operator "$eq") eqn:H2; simpl.
  { intros Hm. exists operator, operand. split; [reflexivity | ].
    destruct operand; try discriminate Hm;
      simpl; rewrite ?H1, ?H2, ?H3, ?H4, ?H5, ?H6; reflexivity. }
  destruct (String.eqb operator "$ne") eqn:H3; simpl.
  { intros Hm. exists operator, operand. split; [reflexivity | ].
    destruct operand; try discriminate Hm;
      simpl; rewrite ?H1, ?H2, ?H3, ?H4, ?H5, ?H6; reflexivity. }
  destruct (String.eqb operator "$exists") eqn:H4; simpl.
  { intros Hm. exists operator, operand. split; [reflexivity | ].
    destruct operand; try discriminate Hm;
      simpl; rewrite ?H1, ?H2, ?H3, ?H4, ?H5, ?H6; reflexivity. }
  destruct (String.eqb operator "$in") eqn:H5; simpl.
  { intros Hm. exists operator, operand. split; [reflexivity | ].
    destruct operand; try discriminate Hm;
      simpl; rewrite ?H1, ?H2, ?H3, ?H4, ?H5, ?H6; reflexivity. }
  destruct (String.eqb operator "$nin") eqn:H6; simpl.
  { intros Hm. exists operator, operand. split; [reflexivity | ].
    destruct operand; try discriminate Hm;
      simpl; rewrite ?H1, ?H2, ?H3, ?H4, ?H5, ?H6; reflexivity. }
  exact IH.
Qed.

(** A field condition matches only if the field resolves to a value that
    is not empty, the condition is an object, and the first operator of the
    object has an operand of the shape the operator expects: a condition
    that is not an object, one with no known operator and one whose operand
    has the wrong shape do not match. *)
Theorem match_needs_shape fieldPath condition ctx :
  (evaluateField fieldPath condition ctx).1 = true →
  getFieldValue fieldPath ctx ≠ ""
  ∧ ∃ condMap operator operand,
      condition = VMap condMap
      ∧ firstOperator condMap = Some (operator, operand)
      ∧ wellShaped operator operand = true.
Proof.
  unfold evaluateField.
  destruct (String.eqb_spec (getFieldValue fieldPath ctx) "") as [Hempty | Hfull];
    [discriminate | ].
  intros Hm. split; [exact Hfull | ].
  destruct condition as [ | | | | | condMap]; try discriminate Hm.
  destruct (rangeOperators_first _ _ Hm) as (operator & operand & Hfirst & Hshape).
  exists condMap, operator, operand. auto.
Qed.

End CombinatorSemantics.

(** The server header equals what the condition asks for. *)
Lemma match_needs_shape_witness :
  (evaluateField (RL := literalRegexp) "headers.server" serverIsNginx nginxContext).1 = true
  ∧ getFieldValue "headers.server" nginxContext ≠ "".
Proof.
  assert (Hm : (evaluateField (RL := literalRegexp) "headers.server" serverIsNginx
                  nginxContext).1 = true) by (vm_compute; reflexivity).
  split; [exact Hm | ].
  exact (proj1 (match_needs_shape (RL := literalRegexp) _ _ _ Hm)).
Defined.

(** ** Strings: what the package relies on *)

Lemma append_cons c (s t : string) : String c s +:+ t = String c (s +:+ t).
Proof. reflexivity. Qed.

Lemma append_empty_r (s : string) : s +:+ "" = s.
Proof.
  induction s as [ | c s IH]; [reflexivity | ]. rewrite append_cons, IH. reflexivity.
Qed.

Lemma append_assoc (a b c : string) : (a +:+ b) +:+ c = a +:+ (b +:+ c).
Proof.
  induction a as [ | x a IH]; [reflexivity | ]. rewrite !append_cons, IH. reflexivity.
Qed.

Lemma splitFrom_nonempty sep (s : string) : ∀ skip cur, splitFrom sep skip cur s ≠ [].
Proof.
  induction s as [ | c s IH]; intros skip cur; cbn [splitFrom]; [discriminate | ].
  destruct skip; [ | apply IH].
  destruct (String.prefix sep (String c s)); [discriminate | apply IH].
Qed.

(** A string in which the separator does not occur is split into itself. *)
Lemma splitFrom_absent sep (s : string) :
  ∀ cur, Contains s sep = false → splitFrom sep 0 cur s = [cur +:+ s].
Proof.
  unfold Contains. induction s as [ | c s IH]; intros cur Habsent.
  - simpl. rewrite append_empty_r. reflexivity.
  - cbn [splitFrom String.index] in Habsent |- *.
    destruct (String.prefix sep (String c s)); [discriminate | ].
    rewrite IH.
    + rewrite append_assoc. reflexivity.
    + destruct (String.index 0 sep s); [discriminate | reflexivity].
Qed.

(** A string in which the separator first occurs at [n] is split into what
    is before [n] and at least one more part. *)
Lemma splitFrom_first sep (s : string) :
  sep ≠ "" →
  ∀ cur n, String.index 0 sep s = Some n →
    ∃ rest, splitFrom sep 0 cur s = (cur +:+ String.substring 0 n s) :: rest
            ∧ rest ≠ [].
Proof.
  intros Hsep. induction s as [ | c s IH]; intros cur n Hidx.
  - simpl in Hidx. destruct sep; [contradiction | discriminate].
  - cbn [splitFrom String.index] in Hidx |- *.
    destruct (String.prefix sep (String c s)).
    + injection Hidx as <-. eexists. split; [ | apply splitFrom_nonempty].
      cbn [String.substring]. rewrite append_empty_r. reflexivity.
    + destruct (String.index 0 sep s) as [m | ] eqn:Hm; [ | discriminate].
      injection Hidx as <-.
      destruct (IH (cur +:+ String c "") m eq_refl) as (rest & Hsplit & Hrest).
      exists rest. split; [ | exact Hrest].
      rewrite Hsplit, append_assoc. reflexivity.
Qed.

(** Joining by a dot what was split at the dots gives the string back. *)
Lemma join_split_dot (s : string) :
  ∀ cur, Join (splitFrom "." 0 cur s) "." = cur +:+ s.
Proof.
  unfold Join. induction s as [ | c s IH]; intros cur.
  - simpl. rewrite append_empty_r. reflexivity.
  - cbn [splitFrom]. destruct (String.prefix "." (String c s)) eqn:Hp.
    + cbn [String.prefix] in Hp.
      destruct (ascii_dec "." c) as [<- | Hne]; [ | discriminate Hp].
      change (String.length "." - 1) with 0.
      pose proof (IH "") as Hrest.
      destruct (splitFrom "." 0 "" s) as [ | x xs] eqn:Hs;
        [exfalso; exact (splitFrom_nonempty _ _ _ _ Hs) | ].
      cbn [String.concat]. cbn [String.concat] in Hrest. rewrite Hrest. reflexivity.
    + rewrite IH, append_assoc. reflexivity.
Qed.

(** ** query.go: patterns and field references *)

Section FieldProperties.
Context {RL : RegexpLib}.

(** A pattern without the version marker is compiled whole, and a match on
    it never yields a version. *)
Theorem regex_without_marker fieldValue patternStr :
  Contains patternStr "\;version:" = false →
  evaluateRegex fieldValue (VStr patternStr)
  = match Compile patternStr with
    | None => (false, "")
    | Some re => (negb (length (FindStringSubmatch re fieldValue) =? 0)%nat, "")
    end.
Proof.
  intros Habsent. unfold evaluateRegex, Split.
  rewrite (splitFrom_absent _ _ "" Habsent). simpl.
  change ("" +:+ patternStr) with patternStr.
  destruct (Compile patternStr); [ | reflexivity].
  destruct (length _ =? 0)%nat; reflexivity.
Qed.

(** A pattern with the version marker is compiled up to the first marker,
    whatever follows it, and a match yields the first capture group as the
    version when there is one. *)
Theorem regex_with_marker fieldValue patternStr n :
  String.index 0 "\;version:" patternStr = Some n →
  evaluateRegex fieldValue (VStr patternStr)
  = match Compile (String.substring 0 n patternStr) with
    | None => (false, "")
    | Some re =>
        match FindStringSubmatch re fieldValue with
        | [] => (false, "")
        | [_] => (true, "")
        | _ :: group :: _ => (true, group)
        end
    end.
Proof.
  intros Hidx. unfold evaluateRegex, Split.
  destruct (splitFrom_first "\;version:" patternStr ltac:(discriminate) "" n Hidx)
    as (rest & -> & Hrest).
  destruct rest as [ | r rest]; [contradiction | ]. simpl.
  change ("" +:+ String.substring 0 n patternStr) with (String.substring 0 n patternStr).
  destruct (Compile _); [ | reflexivity].
  destruct (FindStringSubmatch _ _) as [ | whole [ | group groups]]; reflexivity.
Qed.

Lemma prefix_empty (s : string) : String.prefix "" s = true.
Proof. destruct s; reflexivity. Qed.

Lemma splitFrom_dot cur (rest : string) :
  splitFrom "." 0 cur (String "." rest) = cur :: splitFrom "." 0 "" rest.
Proof. cbn [splitFrom String.prefix]. simpl. rewrite prefix_empty. reflexivity. Qed.

Lemma splitFrom_other cur c (rest : string) :
  c ≠ "."%char →
  splitFrom "." 0 cur (String c rest) = splitFrom "." 0 (cur +:+ String c "") rest.
Proof.
  intros Hc. cbn [splitFrom String.prefix].
  destruct (ascii_dec "." c) as [<- | _]; [contradiction | reflexivity].
Qed.

Lemma Split_headers (name : string) :
  Split ("headers." +:+ name) "." = "headers" :: Split name ".".
Proof.
  unfold Split. rewrite !append_cons. change ("" +:+ name) with name.
  rewrite !splitFrom_other by discriminate. rewrite splitFrom_dot. reflexivity.
Qed.

Lemma Split_body (rest : string) :
  Split ("body." +:+ rest) "." = "body" :: Split rest ".".
Proof.
  unfold Split. rewrite !append_cons. change ("" +:+ rest) with rest.
  rewrite !splitFrom_other by discriminate. rewrite splitFrom_dot. reflexivity.
Qed.

Lemma rangeHeaders_absent name (l : list (string * string)) :
  (∀ k v, (k, v) ∈ l → EqualFold k name = false) → rangeHeaders name l = "".
Proof.
  induction l as [ | [k v] l IH]; intros Hall; [reflexivity | ]. simpl.
  rewrite (Hall k v (list_elem_of_here _ _)). apply IH.
  intros k' v' Hin. eapply Hall, list_elem_of_further, Hin.
Qed.

Lemma rangeHeaders_present name (l : list (string * string)) k v :
  (k, v) ∈ l → EqualFold k name = true →
  (∀ k' v', (k', v') ∈ l → EqualFold k' name = true → v' = v) →
  rangeHeaders name l = v.
Proof.
  intros Hin Hfold Hsame. induction l as [ | [k0 v0] l IH]; [inversion Hin | ].
  simpl. destruct (EqualFold k0 name) eqn:H0.
  - apply (Hsame k0 v0 (list_elem_of_here _ _) H0).
  - apply elem_of_cons in Hin as [[= -> ->] | Hin]; [congruence | ].
    apply IH; [exact Hin | ].
    intros k' v' Hin'. apply Hsame, list_elem_of_further, Hin'.
Qed.

Lemma getFieldValue_headers name ctx :
  getFieldValue ("headers." +:+ name) ctx
  = rangeHeaders name (map_to_list (Headers ctx)).
Proof.
  unfold getFieldValue. rewrite Split_headers.
  cbn [nth tl length]. unfold Split. rewrite join_split_dot.
  destruct (splitFrom "." 0 "" name) eqn:Hs;
    [exfalso; exact (splitFrom_nonempty _ _ _ _ Hs) | reflexivity].
Qed.

(** How a field reference resolves: [body], and [body] followed by a dot
    and anything, is the body; [headers] alone and any other first part is
    the empty string; [headers.] followed by a name is looked up under that
    whole name, dots included, and is the empty string when no header name
    equals it up to case. *)
Theorem field_reference_resolution ctx :
  getFieldValue "body" ctx = Body ctx
  ∧ (∀ rest, getFieldValue ("body." +:+ rest) ctx = Body ctx)
  ∧ getFieldValue "headers" ctx = ""
  ∧ (∀ name, getFieldValue ("headers." +:+ name) ctx
             = rangeHeaders name (map_to_list (Headers ctx)))
  ∧ (∀ name, (∀ k, is_Some (Headers ctx !! k) → EqualFold k name = false) →
             getFieldValue ("headers." +:+ name) ctx = "")
  ∧ (∀ fieldPath, nth 0 (Split fieldPath ".") "" ≠ "body" →
                  nth 0 (Split fieldPath ".") "" ≠ "headers" →
                  getFieldValue fieldPath ctx = "").
Proof.
  pose proof (λ name, getFieldValue_headers name ctx) as Hname.
  split; [reflexivity | ]. split; [ | split; [reflexivity | split; [exact Hname | split]]].
  - intros rest. unfold getFieldValue. rewrite Split_body. reflexivity.
  - intros name Hnone. rewrite Hname. apply rangeHeaders_absent.
    intros k v Hin%elem_of_map_to_list. apply Hnone. eauto.
  - intros fieldPath Hb Hh. unfold getFieldValue.
    destruct (String.eqb_spec (nth 0 (Split fieldPath ".") "") "body"); [contradiction | ].
    destruct (String.eqb_spec (nth 0 (Split fieldPath ".") "") "headers");
      [contradiction | reflexivity].
Qed.

(** A header is found under its name in any case: when a header name of
    the context equals the name asked for up to case, and every header name
    that does so carries the same value, the reference resolves to that
    value. *)
Theorem header_lookup_ignores_case ctx name k v :
  Headers ctx !! k = Some v → EqualFold k name = true →
  (∀ k' v', Headers ctx !! k' = Some v' → EqualFold k' name = true → v' = v) →
  getFieldValue ("headers." +:+ name) ctx = v.
Proof.
  intros Hk Hfold Hsame.
  rewrite getFieldValue_headers.
  apply (rangeHeaders_present name _ k v).
  - apply elem_of_map_to_list, Hk.
  - exact Hfold.
  - intros k' v' Hin%elem_of_map_to_list. apply Hsame, Hin.
Qed.

End FieldProperties.

(** The marker is absent, the pattern is compiled whole. *)
Lemma regex_without_marker_witness :
  Contains "nginx" "\;version:" = false
  ∧ evaluateRegex (RL := literalRegexp) "nginx/1.18.0" (VStr "nginx") = (true, "").
Proof.
  split; [reflexivity | ].
  exact (regex_without_marker (RL := literalRegexp) "nginx/1.18.0" "nginx" eq_refl).
Defined.

(** The marker is at position 6; the version is what the group captures. *)
Lemma regex_with_marker_witness :
  String.index 0 "\;version:" "nginx/\;version:\1" = Some 6
  ∧ evaluateRegex (RL := captureRest) "nginx/1.18.0" (VStr "nginx/\;version:\1")
    = (true, "1.18.0").
Proof.
  split; [reflexivity | ].
  exact (regex_with_marker (RL := captureRest) "nginx/1.18.0" "nginx/\;version:\1" 6
           eq_refl).
Defined.

(** The header [Server] is found under the name [SERVER]. *)
Lemma header_lookup_ignores_case_witness :
  Headers nginxContext !! "Server" = Some "nginx/1.18.0"
  ∧ EqualFold "Server" "SERVER" = true
  ∧ getFieldValue "headers.SERVER" nginxContext = "nginx/1.18.0".
Proof.
  split; [reflexivity | ]. split; [reflexivity | ].
  apply (header_lookup_ignores_case nginxContext "SERVER" "Server" "nginx/1.18.0");
    [reflexivity | reflexivity | ].
  intros k' v' Hk' _. unfold nginxContext in Hk'. cbn [Headers] in Hk'.
  apply lookup_singleton_Some in Hk' as [_ <-]. reflexivity.
Defined.

(** ** http_detector.go: URLs *)

Lemma length_append (a b : string) :
  String.length (a +:+ b) = String.length a + String.length b.
Proof.
  induction a as [ | c a IH]; [reflexivity | ].
  rewrite append_cons. simpl. rewrite IH. reflexivity.
Qed.

Lemma substring_all (s : string) : String.substring 0 (String.length s) s = s.
Proof. induction s as [ | c s IH]; simpl; [reflexivity | rewrite IH; reflexivity]. Qed.

Lemma substring_prefix (a b : string) :
  String.substring 0 (String.length a) (a +:+ b) = a.
Proof.
  induction a as [ | c a IH]; [destruct b; reflexivity | ].
  rewrite append_cons. simpl. rewrite IH. reflexivity.
Qed.

Lemma substring_suffix (a b : string) n :
  String.substring (String.length a) n (a +:+ b) = String.substring 0 n b.
Proof. induction a as [ | c a IH]; [reflexivity | rewrite append_cons; exact IH]. Qed.

Lemma slice_prefix (a b : string) : slice (a +:+ b) 0 (String.length a) = a.
Proof. unfold slice. rewrite Nat.sub_0_r. apply substring_prefix. Qed.

Lemma sliceFrom_suffix (a b : string) : sliceFrom (a +:+ b) (String.length a) = b.
Proof.
  unfold sliceFrom. rewrite substring_suffix, length_append.
  replace (String.length a + String.length b - String.length a) with (String.length b)
    by lia.
  apply substring_all.
Qed.

Lemma prefix_append (a b : string) : String.prefix a (a +:+ b) = true.
Proof.
  induction a as [ | c a IH]; [apply prefix_empty | ].
  rewrite append_cons. cbn [String.prefix].
  destruct (ascii_dec c c); [exact IH | contradiction].
Qed.

Lemma no_char_cons c a (s : string) :
  Contains (String a s) (String c "") = false → a ≠ c ∧ Contains s (String c "") = false.
Proof.
  unfold Contains. cbn [String.index String.prefix].
  destruct (ascii_dec c a) as [<- | Hne].
  - rewrite prefix_empty. discriminate.
  - intros Hrest. split; [congruence | ].
    destruct (String.index 0 (String c "") s); [discriminate | reflexivity].
Qed.

(** Where a separator is first found after a string that lacks its first
    character. *)
Lemma index_after c (sep' s rest : string) :
  Contains s (String c "") = false →
  String.index 0 (String c sep') (s +:+ String c sep' +:+ rest)
  = Some (String.length s).
Proof.
  induction s as [ | a s IH]; intros Hno.
  - change ("" +:+ String c sep' +:+ rest) with (String c (sep' +:+ rest)).
    cbn [String.index]. change (String c (sep' +:+ rest)) with (String c sep' +:+ rest).
    rewrite prefix_append. reflexivity.
  - apply no_char_cons in Hno as [Hne Hno]. rewrite append_cons.
    cbn [String.index String.prefix].
    destruct (ascii_dec c a) as [-> | _]; [contradiction | ].
    rewrite (IH Hno). reflexivity.
Qed.

Lemma index_absent c (sep' s : string) :
  Contains s (String c "") = false → String.index 0 (String c sep') s = None.
Proof.
  induction s as [ | a s IH]; intros Hno; [reflexivity | ].
  apply no_char_cons in Hno as [Hne Hno]. cbn [String.index String.prefix].
  destruct (ascii_dec c a) as [-> | _]; [contradiction | ].
  rewrite (IH Hno). reflexivity.
Qed.

Lemma lastIndexFrom_absent c (s : string) :
  Contains s (String c "") = false →
  ∀ i found, lastIndexFrom (String c "") s i found = found.
Proof.
  induction s as [ | a s IH]; intros Hno i found; [reflexivity | ].
  apply no_char_cons in Hno as [Hne Hno]. cbn [lastIndexFrom String.prefix].
  destruct (ascii_dec c a) as [-> | _]; [contradiction | ]. apply IH, Hno.
Qed.

Lemma lastIndexFrom_last c (h p : string) :
  Contains p (String c "") = false →
  ∀ i found,
    lastIndexFrom (String c "") (h +:+ String c p) i found
    = Z.of_nat (i + String.length h).
Proof.
  intros Hno. induction h as [ | a h IH]; intros i found.
  - change ("" +:+ String c p) with (String c p). cbn [lastIndexFrom String.prefix].
    destruct (ascii_dec c c); [ | contradiction]. rewrite prefix_empty.
    rewrite lastIndexFrom_absent by exact Hno. simpl. f_equal. lia.
  - rewrite append_cons. cbn [lastIndexFrom]. rewrite IH. simpl. f_equal. lia.
Qed.

Lemma of_nat_not_minus_one n : (Z.of_nat n =? -1)%Z = false.
Proof. apply Z.eqb_neq. lia. Qed.

(** [parseURL] reads the scheme before [://] and the authority up to the
    first slash, and does not look at what follows. *)
Lemma parseURL_shape scheme authority tail :
  Contains scheme ":" = false → Contains authority "/" = false →
  pathOrNothing tail →
  parseURL (scheme +:+ "://" +:+ authority +:+ tail)
  = Ok (authorityParts scheme authority).
Proof.
  intros Hscheme Hauth Htail. unfold parseURL, Index.
  rewrite (index_after ":" "//" scheme (authority +:+ tail) Hscheme).
  rewrite of_nat_not_minus_one, Nat2Z.id.
  rewrite slice_prefix.
  assert (Hrest : sliceFrom (scheme +:+ "://" +:+ authority +:+ tail)
                    (String.length scheme + 3) = authority +:+ tail).
  { rewrite <- (append_assoc scheme "://" (authority +:+ tail)).
    replace (String.length scheme + 3) with (String.length (scheme +:+ "://"))
      by (rewrite length_append; reflexivity).
    apply sliceFrom_suffix. }
  rewrite Hrest. clear Hrest.
  assert (Hhost : (if (match String.index 0 "/" (authority +:+ tail) with
                       | Some n => Z.of_nat n
                       | None => -1
                       end =? -1)%Z
                   then authority +:+ tail
                   else slice (authority +:+ tail) 0
                          (Z.to_nat match String.index 0 "/" (authority +:+ tail) with
                                    | Some n => Z.of_nat n
                                    | None => -1
                                    end)) = authority).
  { destruct Htail as [-> | [t ->]].
    - rewrite append_empty_r, (index_absent "/" "" authority Hauth). reflexivity.
    - change ("/" +:+ t) with (String "/" "" +:+ t).
      rewrite (index_after "/" "" authority t Hauth).
      rewrite of_nat_not_minus_one, Nat2Z.id. apply slice_prefix. }
  rewrite Hhost. unfold authorityParts.
  destruct (negb _); [reflexivity | ].
  destruct (String.eqb _ "https"); reflexivity.
Qed.

(** A URL made of a scheme, an authority without a port and a path parses
    into that scheme, the authority as the host, and the default port: 443
    for [https], 80 for any other scheme. *)
Theorem parseURL_default_port scheme host tail :
  Contains scheme ":" = false → Contains host "/" = false →
  Contains host ":" = false → pathOrNothing tail →
  parseURL (scheme +:+ "://" +:+ host +:+ tail)
  = Ok (<["port" := if String.eqb scheme "https" then "443" else "80"]>
          (<["host" := host]> (<["scheme" := scheme]> ∅))).
Proof.
  intros Hscheme Hslash Hcolon Htail.
  rewrite (parseURL_shape scheme host tail Hscheme Hslash Htail).
  unfold authorityParts, LastIndex.
  rewrite (lastIndexFrom_absent ":" host Hcolon). simpl.
  rewrite lookup_total_insert_ne by discriminate. rewrite lookup_total_insert_eq.
  destruct (String.eqb scheme "https"); reflexivity.
Qed.

(** A URL whose authority ends in a colon and a port parses into the
    scheme, what is before that colon as the host, and the port: the path
    and the default ports play no part. *)
Theorem parseURL_explicit_port scheme host port tail :
  Contains scheme ":" = false → Contains host "/" = false →
  Contains port "/" = false → Contains port ":" = false → pathOrNothing tail →
  parseURL (scheme +:+ "://" +:+ (host +:+ ":" +:+ port) +:+ tail)
  = Ok (<["port" := port]> (<["host" := host]> (<["scheme" := scheme]> ∅))).
Proof.
  intros Hscheme Hhost Hport Hcolon Htail.
  assert (Hauth : Contains (host +:+ ":" +:+ port) "/" = false).
  { unfold Contains.
    destruct (String.index 0 "/" (host +:+ ":" +:+ port)) as [n | ] eqn:Hidx;
      [ | reflexivity].
    exfalso. clear -Hhost Hport Hidx. revert n Hidx.
    induction host as [ | a host IH]; intros n Hidx.
    - change ("" +:+ ":" +:+ port) with (String ":" port) in Hidx.
      cbn [String.index String.prefix] in Hidx.
      destruct (ascii_dec "/" ":"); [discriminate | ].
      rewrite (index_absent "/" "" port Hport) in Hidx. discriminate.
    - apply no_char_cons in Hhost as [Hne Hhost]. rewrite append_cons in Hidx.
      cbn [String.index String.prefix] in Hidx.
      destruct (ascii_dec "/" a) as [Heq | _]; [congruence | ].
      destruct (String.index 0 "/" (host +:+ ":" +:+ port)) as [m | ] eqn:Hm;
        [ | discriminate].
      exact (IH Hhost m eq_refl). }
  rewrite (parseURL_shape scheme _ tail Hscheme Hauth Htail).
  assert (Hlast : LastIndex (host +:+ ":" +:+ port) ":"
                   = Z.of_nat (String.length host))
    by exact (lastIndexFrom_last ":" host port Hcolon 0 (-1)%Z).
  unfold authorityParts. rewrite Hlast.
  rewrite of_nat_not_minus_one, Nat2Z.id. cbn [negb].
  rewrite slice_prefix.
  replace (String.length host + 1) with (String.length (host +:+ ":"))
    by (rewrite length_append; reflexivity).
  rewrite <- (append_assoc host ":" port), sliceFrom_suffix. reflexivity.
Qed.

(** [parseURL] fails exactly on a string without [://], and what it
    returns otherwise has a scheme, a host and a port and nothing else. *)
Theorem parseURL_needs_scheme urlStr :
  match parseURL urlStr with
  | Err e => Contains urlStr "://" = false ∧ e = "invalid URL: no scheme"
  | Ok parts =>
      Contains urlStr "://" = true
      ∧ dom parts = ({["scheme"; "host"; "port"]} : gset string)
  end.
Proof.
  unfold parseURL, Index, Contains.
  destruct (String.index 0 "://" urlStr) as [n | ]; [ | split; reflexivity].
  rewrite of_nat_not_minus_one. cbv zeta.
  destruct (negb _); [ | destruct (String.eqb _ "https")];
    (split; [reflexivity | ]);
    rewrite !dom_insert_L, dom_empty_L; set_solver.
Qed.

Lemma EqualFold_refl (s : string) : EqualFold s s = true.
Proof.
  induction s as [ | c s IH]; [reflexivity | ]. simpl.
  rewrite Ascii.eqb_refl. exact IH.
Qed.

Lemma isSameDomain_refl (parts : gmap string string) : isSameDomain parts parts = true.
Proof. apply EqualFold_refl. Qed.

(** A redirect to an absolute path resolves to that path on the scheme and
    authority of the current URL, whatever the current path is, and so
    stays on the same domain. *)
Theorem absolute_path_redirect_same_host scheme authority tail r :
  Contains scheme ":" = false → Contains authority "/" = false →
  pathOrNothing tail → HasPrefix r "/" = false →
  resolveURL (scheme +:+ "://" +:+ authority +:+ tail) ("/" +:+ r)
  = Ok (scheme +:+ "://" +:+ authority +:+ "/" +:+ r)
  ∧ ∃ parts,
      parseURL (scheme +:+ "://" +:+ authority +:+ tail) = Ok parts
      ∧ parseURL (scheme +:+ "://" +:+ authority +:+ "/" +:+ r) = Ok parts
      ∧ isSameDomain parts parts = true.
Proof.
  intros Hscheme Hauth Htail Hr. split.
  - unfold resolveURL, HasPrefix in *.
    change ("/" +:+ r) with (String "/" r). cbn [String.prefix].
    destruct (ascii_dec "h" "/"); [discriminate | ].
    destruct (ascii_dec "/" "/"); [ | contradiction].
    rewrite Hr, prefix_empty. cbn [orb]. unfold Index.
    rewrite (index_after ":" "//" scheme (authority +:+ tail) Hscheme).
    rewrite of_nat_not_minus_one, Nat2Z.id.
    assert (Hrest : sliceFrom (scheme +:+ "://" +:+ authority +:+ tail)
                      (String.length scheme + 3) = authority +:+ tail).
    { rewrite <- (append_assoc scheme "://" (authority +:+ tail)).
      replace (String.length scheme + 3) with (String.length (scheme +:+ "://"))
        by (rewrite length_append; reflexivity).
      apply sliceFrom_suffix. }
    rewrite Hrest. clear Hrest.
    destruct Htail as [-> | [t ->]].
    + rewrite !append_empty_r, (index_absent "/" "" authority Hauth). simpl.
      rewrite !append_assoc. reflexivity.
    + change ("/" +:+ t) with (String "/" "" +:+ t).
      rewrite (index_after "/" "" authority t Hauth).
      rewrite of_nat_not_minus_one, Nat2Z.id.
      replace (String.length scheme + 3 + String.length authority)
        with (String.length (scheme +:+ "://" +:+ authority))
        by (rewrite !length_append; simpl; lia).
      rewrite <- (append_assoc "://" authority), <- (append_assoc scheme).
      rewrite slice_prefix. rewrite !append_assoc. reflexivity.
  - exists (authorityParts scheme authority).
    split; [apply parseURL_shape; assumption | ].
    split; [ | apply isSameDomain_refl].
    apply (parseURL_shape scheme authority ("/" +:+ r)); [assumption | assumption | ].
    right. exists r. reflexivity.
Qed.


(** The URL of the default port scenario. *)
Lemma parseURL_default_port_witness :
  Contains "https" ":" = false ∧ Contains "Example.org" "/" = false
  ∧ Contains "Example.org" ":" = false ∧ pathOrNothing "/a/b"
  ∧ parseURL "https://Example.org/a/b"
    = Ok (<["port" := "443"]> (<["host" := "Example.org"]> (<["scheme" := "https"]> ∅))).
Proof.
  assert (Htail : pathOrNothing "/a/b") by (right; exists "a/b"; reflexivity).
  split; [reflexivity | ]. split; [reflexivity | ]. split; [reflexivity | ].
  split; [exact Htail | ].
  exact (parseURL_default_port "https" "Example.org" "/a/b" eq_refl eq_refl eq_refl Htail).
Defined.

(** A host, a port and no path. *)
Lemma parseURL_explicit_port_witness :
  Contains "http" ":" = false ∧ Contains "a.test" "/" = false
  ∧ Contains "8080" "/" = false ∧ Contains "8080" ":" = false ∧ pathOrNothing ""
  ∧ parseURL "http://a.test:8080"
    = Ok (<["port" := "8080"]> (<["host" := "a.test"]> (<["scheme" := "http"]> ∅))).
Proof.
  assert (Htail : pathOrNothing "") by (left; reflexivity).
  repeat (split; [reflexivity | ]). split; [exact Htail | ].
  exact (parseURL_explicit_port "http" "a.test" "8080" "" eq_refl eq_refl eq_refl eq_refl
           Htail).
Defined.

(** From a page deep in a site to [/login]. *)
Lemma absolute_path_redirect_same_host_witness :
  Contains "http" ":" = false ∧ Contains "a.test:8080" "/" = false
  ∧ pathOrNothing "/shop/cart" ∧ HasPrefix "login" "/" = false
  ∧ resolveURL "http://a.test:8080/shop/cart" "/login" = Ok "http://a.test:8080/login".
Proof.
  assert (Htail : pathOrNothing "/shop/cart") by (right; exists "shop/cart"; reflexivity).
  split; [reflexivity | ]. split; [reflexivity | ]. split; [exact Htail | ].
  split; [reflexivity | ].
  exact (proj1 (absolute_path_redirect_same_host "http" "a.test:8080" "/shop/cart" "login"
                  eq_refl eq_refl Htail eq_refl)).
Defined.


(** ** http_detector.go: what a fetch asks of the network *)

Section RequestLog.
Context {World : Type} {HL : HTTPLib World}.

Lemma requestFor_URL reqConfig url req :
  requestFor reqConfig url = Ok req → req_URL req = url.
Proof.
  assert (Hset : ∀ (l : list (string * string)) r, req_URL (foldl HeaderSet r l) = req_URL r).
  { induction l as [ | kv l IH]; intros r; [reflexivity | ]. simpl. rewrite IH. reflexivity. }
  unfold requestFor, NewRequest. destruct reqConfig as [c | ].
  - destruct (NewRequestError _ url); [discriminate | ].
    intros [= <-]. rewrite Hset. reflexivity.
  - destruct (NewRequestError _ url); [discriminate | ]. intros [= <-]. reflexivity.
Qed.

Lemma sameHostRedirect_same url resp url' :
  sameHostRedirect url resp = Some url' → sameDomainURLs url url'.
Proof.
  unfold sameHostRedirect, sameDomainURLs. intros Hsame.
  repeat case_match; simplify_eq. eauto.
Qed.

Lemma followRedirects_log left reqConfig :
  ∀ url bodies headers (w : World) log h,
    ∃ r w' urls,
      followRedirects (HL := logged HL) left reqConfig url bodies headers
        (mkMachine (w, log) h)
      = (r, mkMachine (w', (log ++ (Requested <$> urls))%list) h)
      ∧ followRedirects (HL := HL) left reqConfig url bodies headers (mkMachine w h)
        = (r, mkMachine w' h)
      ∧ (urls = [] ∨ head urls = Some url)
      ∧ (List.length urls ≤ S left)%nat
      ∧ followed urls
      ∧ (∀ ctx, r = Ok ctx → urls ≠ []).
Proof.
  induction left as [ | left IH]; intros url bodies headers w log h;
    rewrite !followRedirects_turn;
    change (requestFor (HL := logged HL) reqConfig url) with (requestFor reqConfig url);
    change (@sameHostRedirect _ (logged HL)) with (@sameHostRedirect _ HL);
    (destruct (requestFor reqConfig url) as [req | e] eqn:Hreq;
     [ | exists (Err e), w, []; rewrite app_nil_r;
         repeat split; [left; reflexivity | simpl; lia | discriminate]]);
    pose proof (requestFor_URL _ _ _ Hreq) as Hurl;
    cbn [world heap Do logged fst snd]; rewrite Hurl;
    destruct (Do req w) as [[resp | e] w1];
    try (exists (Err e), w1, [url]; repeat split;
         [right; reflexivity | simpl; lia | discriminate]);
    (destruct (resp_Body resp) as [body | e];
     [ | exists (Err e), w1, [url]; repeat split;
         [right; reflexivity | simpl; lia | discriminate]]);
    cbv zeta.
  - eexists _, w1, [url].
    destruct (sameHostRedirect url resp);
      (split; [reflexivity | ]; split; [reflexivity | ]; split; [right; reflexivity | ];
       split; [simpl; lia | ]; split; [exact I | discriminate]).
  - destruct (sameHostRedirect url resp) as [url' | ] eqn:Hnext.
    + destruct (IH url' (bodies ++ filter (λ b, b ≠ "") [body])%list
                  (collectHeaders headers (resp_Header resp)) w1
                  (log ++ [Requested url])%list h)
        as (r & w' & urls & Hlog & Hrun & Hhead & Hlen & Hfollowed & Hok).
      exists r, w', (url :: urls). rewrite Hlog, Hrun.
      split; [rewrite <- app_assoc; reflexivity | ]. split; [reflexivity | ].
      split; [right; reflexivity | ]. split; [simpl; lia | ]. split; [ | discriminate].
      destruct urls as [ | u' urls]; [exact I | ].
      destruct Hhead as [Hnil | Hhead]; [discriminate | ]. injection Hhead as ->.
      split; [apply (sameHostRedirect_same _ _ _ Hnext) | exact Hfollowed].
    + eexists _, w1, [url]. split; [reflexivity | ]. split; [reflexivity | ].
      split; [right; reflexivity | ]. split; [simpl; lia | ].
      split; [exact I | discriminate].
Qed.

Lemma makeRequest_log url reqConfig (w : World) log h :
  ∃ r w' urls,
    makeRequest (HL := logged HL) url reqConfig (mkMachine (w, log) h)
    = (r, mkMachine (w', (log ++ (Requested <$> urls))%list) h)
    ∧ makeRequest (HL := HL) url reqConfig (mkMachine w h) = (r, mkMachine w' h)
    ∧ attemptFrom url urls
    ∧ (∀ ctx, r = Ok ctx → urls ≠ []).
Proof.
  destruct (followRedirects_log MaxRedirects reqConfig url [] ∅ w log h)
    as (r & w' & urls & Hlog & Hrun & Hhead & Hlen & Hfollowed & Hok).
  exists r, w', urls. unfold makeRequest, attemptFrom.
  split; [exact Hlog | ]. split; [exact Hrun | ].
  split; [ | exact Hok]. split; [exact Hhead | ]. split; [ | exact Hfollowed].
  unfold MaxRedirects in *. lia.
Qed.

(** [makeRequest] sends at most four requests, the first for the URL it is
    given and each further one for a URL on the domain of the one before;
    a result other than an error takes at least one request; the heap is
    left as it is; and a log kept beside the client changes nothing of what
    the client answers. *)
Theorem makeRequest_requests url reqConfig (w : World) log h :
  ∃ r w' urls,
    makeRequest (HL := logged HL) url reqConfig (mkMachine (w, log) h)
    = (r, mkMachine (w', (log ++ (Requested <$> urls))%list) h)
    ∧ makeRequest (HL := HL) url reqConfig (mkMachine w h) = (r, mkMachine w' h)
    ∧ (urls = [] ∨ head urls = Some url)
    ∧ (List.length urls ≤ 4)%nat
    ∧ followed urls
    ∧ (∀ ctx, r = Ok ctx → urls ≠ []).
Proof.
  destruct (makeRequest_log url reqConfig w log h)
    as (r & w' & urls & Hlog & Hrun & (Hhead & Hlen & Hfollowed) & Hok).
  exists r, w', urls. unfold MaxRedirects in Hlen. simpl in Hlen. eauto 10.
Qed.


End RequestLog.

(** ** http_detector.go: what the detection loop reports *)

Lemma markFailed_NoDup (pathClassifications : list PathClassification) :
  ∀ failedPaths, NoDup failedPaths → NoDup (foldl markFailed failedPaths pathClassifications).
Proof.
  induction pathClassifications as [ | pc pcs IH]; intros failedPaths Hnodup;
    [exact Hnodup | ].
  simpl. apply IH. unfold markFailed.
  destruct (existsb _ failedPaths) eqn:Hex; simpl; [exact Hnodup | ].
  apply NoDup_app. split; [exact Hnodup | ]. split; [ | apply NoDup_singleton].
  intros path Hin ->%list_elem_of_singleton.
  assert (Htrue : existsb (λ fp, String.eqb fp (pc_Path pc)) failedPaths = true).
  { apply existsb_exists. exists (pc_Path pc).
    split; [apply list_elem_of_In, Hin | apply String.eqb_refl]. }
  congruence.
Qed.

Lemma markFailed_from (pathClassifications : list PathClassification) :
  ∀ failedPaths path,
    path ∈ foldl markFailed failedPaths pathClassifications →
    path ∈ failedPaths ∨ path ∈ pc_Path <$> pathClassifications.
Proof.
  induction pathClassifications as [ | pc pcs IH]; intros failedPaths path Hin;
    [left; exact Hin | ].
  simpl in Hin. apply IH in Hin as [Hin | Hin].
  - unfold markFailed in Hin. destruct (negb _); [ | left; exact Hin].
    apply elem_of_app in Hin as [Hin | ->%list_elem_of_singleton]; [left; exact Hin | ].
    right. rewrite fmap_cons. apply list_elem_of_here.
  - right. rewrite fmap_cons. apply list_elem_of_further, Hin.
Qed.

Section DetectHTTPProperties.
Context {World : Type} {HL : HTTPLib World} {RL : RegexpLib}.

Lemma followRedirects_heap left reqConfig :
  ∀ url bodies headers (st : Machine World),
    heap (followRedirects left reqConfig url bodies headers st).2 = heap st.
Proof.
  induction left as [ | left IH]; intros url bodies headers st;
    rewrite followRedirects_turn;
    (destruct (requestFor reqConfig url); [ | reflexivity]);
    destruct (Do _ (world st)) as [[resp | e] w1]; try reflexivity;
    (destruct (resp_Body resp); [ | reflexivity]); cbv zeta.
  - destruct (sameHostRedirect url resp); reflexivity.
  - destruct (sameHostRedirect url resp); [rewrite IH | ]; reflexivity.
Qed.

Lemma requestWithRetry_heap url reqConfig (st : Machine World) :
  heap (requestWithRetry url reqConfig st).2 = heap st.
Proof.
  rewrite requestWithRetry_attempts. unfold makeRequest.
  pose proof (followRedirects_heap MaxRedirects reqConfig url [] ∅ st) as H1.
  destruct (followRedirects MaxRedirects reqConfig url [] ∅ st) as [[ctx | e1] st1];
    [exact H1 | ].
  pose proof (followRedirects_heap MaxRedirects reqConfig url [] ∅ (pause st1)) as H2.
  destruct (followRedirects MaxRedirects reqConfig url [] ∅ (pause st1))
    as [[ctx | e2] st2]; simpl in *; congruence.
Qed.

Lemma rangeProbes_some (probes : list PathProbe) ctx v :
  rangeProbes probes ctx = Some v → ∃ p, p ∈ probes ∧ rangeProbes [p] ctx = Some v.
Proof.
  induction probes as [ | probe rest IH]; [discriminate | ].
  cbn [rangeProbes]. destruct (Evaluate (DetectQuery probe) ctx) as [[ | ] version] eqn:Hev.
  - intros Hv. exists probe. split; [apply list_elem_of_here | ].
    cbn [rangeProbes]. rewrite Hev. exact Hv.
  - intros (p & Hp & Hv)%IH. exists p. split; [apply list_elem_of_further, Hp | exact Hv].
Qed.

Lemma detectTechnology_reported fingerprints old ctx (technologies : list (string * list PathProbe)) :
  (∀ t probes p, (t, probes) ∈ technologies → p ∈ probes → declared fingerprints t p) →
  ∀ (results : Results) (st : Machine World),
    old ⊆ heap st → reportedBy fingerprints old results (heap st) →
    let out := foldM (detectTechnology ctx) results technologies st in
    old ⊆ heap out.2 ∧ reportedBy fingerprints old out.1 (heap out.2)
    ∧ world out.2 = world st.
Proof.
  induction technologies as [ | [t probes] rest IH]; intros Hdecl results st Hold Hrep.
  - simpl. auto.
  - assert (Hrest : ∀ t probes p, (t, probes) ∈ rest → p ∈ probes →
                                  declared fingerprints t p).
    { intros t' probes' p Hin. apply Hdecl, list_elem_of_further, Hin. }
    assert (Hstep : detectTechnology ctx results (t, probes) st
                    = match rangeProbes probes ctx with
                      | None => (results, st)
                      | Some v =>
                          (<[t := fresh (dom (heap st))]> results,
                           mkMachine (world st)
                             (<[fresh (dom (heap st)) := mkTechnology t v]> (heap st)))
                      end).
    { unfold detectTechnology. simpl. destruct (rangeProbes probes ctx); reflexivity. }
    cbn [foldM]. run_machine. rewrite Hstep. clear Hstep.
    destruct (rangeProbes probes ctx) as [v | ] eqn:Hv.
    + assert (Hfresh : heap st !! fresh (dom (heap st)) = None)
        by apply not_elem_of_dom, is_fresh.
      set (l := fresh (dom (heap st))) in *.
      apply (IH Hrest (<[t := l]> results)
               (mkMachine (world st) (<[l := mkTechnology t v]> (heap st)))).
      * simpl. etrans; [exact Hold | apply insert_subseteq, Hfresh].
      * intros t' l' Hlook. simpl.
        destruct (decide (t' = t)) as [-> | Hne].
        -- rewrite lookup_insert_eq in Hlook. injection Hlook as <-.
           split; [eapply lookup_weaken_None; eassumption | ].
           apply rangeProbes_some in Hv as (p & Hp & Hv).
           exists p, ctx, v. split; [eapply Hdecl; [apply list_elem_of_here | exact Hp] | ].
           split; [exact Hv | apply lookup_insert_eq].
        -- rewrite lookup_insert_ne in Hlook by congruence.
           destruct (Hrep t' l' Hlook) as (Hnew & p & ctx' & v' & Hp & Hv' & Hl').
           split; [exact Hnew | ]. exists p, ctx', v'.
           split; [exact Hp | ]. split; [exact Hv' | ].
           assert (l' ≠ l) by congruence.
           rewrite lookup_insert_ne by congruence. exact Hl'.
    + apply (IH Hrest results st Hold Hrep).
Qed.

Lemma rangeClassifications_reported baseURL fingerprints (all : list PathClassification) :
  (∀ pc t p, pc ∈ all → inGroup pc t p → declared fingerprints t p) →
  ∀ todo (results : Results) failedPaths (st : Machine World) old,
    (∀ pc, pc ∈ todo → pc ∈ all) →
    NoDup (failedPaths ++ (pc_Path <$> todo)) →
    (∀ path, path ∈ failedPaths → path ∈ pc_Path <$> all) →
    old ⊆ heap st → reportedBy fingerprints old results (heap st) →
    let out := rangeClassifications baseURL all todo results failedPaths st in
    old ⊆ heap out.2 ∧ reportedBy fingerprints old out.1.1 (heap out.2)
    ∧ NoDup out.1.2 ∧ (∀ path, path ∈ out.1.2 → path ∈ pc_Path <$> all).
Proof.
  intros Hdecl.
  induction todo as [ | pc rest IH];
    intros results failedPaths st old Htodo Hnodup Hfailed Hold Hrep.
  - simpl. rewrite app_nil_r in Hnodup. auto.
  - cbn [rangeClassifications]. run_machine.
    pose proof (requestWithRetry_heap (TrimSuffix baseURL "/" +:+ pc_Path pc)
                  (RequestConf pc) st) as Hheap.
    destruct (requestWithRetry (TrimSuffix baseURL "/" +:+ pc_Path pc)
                (RequestConf pc) st) as [[ctx | e] st1].
    + simpl in Hheap.
      assert (Hfold : let out := foldM (detectTechnology ctx) results
                                    (map_to_list (Technologies pc)) st1 in
                      old ⊆ heap out.2 ∧ reportedBy fingerprints old out.1 (heap out.2)
                      ∧ world out.2 = world st1).
      { apply detectTechnology_reported.
        - intros t probes p Hin%elem_of_map_to_list Hp.
          apply (Hdecl pc t p); [apply Htodo, list_elem_of_here | ].
          unfold inGroup. rewrite Hin. exact Hp.
        - rewrite Hheap. exact Hold.
        - rewrite Hheap. exact Hrep. }
      destruct (foldM (detectTechnology ctx) results (map_to_list (Technologies pc)) st1)
        as [results' st2]. simpl in Hfold. destruct Hfold as (H1 & H2 & _).
      apply IH; auto.
      * intros q Hq. apply Htodo, list_elem_of_further, Hq.
      * try rewrite fmap_cons in Hnodup. apply NoDup_app in Hnodup as (Hn1 & Hn2 & Hn3).
        apply NoDup_app. split; [exact Hn1 | ]. split.
        -- intros x Hx Hx'. apply (Hn2 x Hx), list_elem_of_further, Hx'.
        -- apply NoDup_cons in Hn3 as [_ Hn3]. exact Hn3.
    + simpl in Hheap.
      assert (Hnodup' : NoDup (failedPaths ++ [pc_Path pc])).
      { try rewrite fmap_cons in Hnodup. apply NoDup_app in Hnodup as (Hn1 & Hn2 & Hn3).
        apply NoDup_app. split; [exact Hn1 | ]. split; [ | apply NoDup_singleton].
        intros x Hx ->%list_elem_of_singleton. apply (Hn2 _ Hx), list_elem_of_here. }
      assert (Hfailed' : ∀ path, path ∈ (failedPaths ++ [pc_Path pc])%list →
                                 path ∈ pc_Path <$> all).
      { intros path [Hin | ->%list_elem_of_singleton]%elem_of_app; [apply Hfailed, Hin | ].
        apply list_elem_of_fmap. exists pc. split; [reflexivity | ].
        apply Htodo, list_elem_of_here. }
      destruct (Contains e "no such host" || Contains e "network is unreachable").
      * simpl. rewrite Hheap. split; [exact Hold | ]. split; [exact Hrep | ].
        split; [apply markFailed_NoDup, Hnodup' | ].
        intros path [Hin | Hin]%markFailed_from; [apply Hfailed', Hin | exact Hin].
      * apply IH; auto.
        -- intros q Hq. apply Htodo, list_elem_of_further, Hq.
        -- try rewrite fmap_cons in Hnodup. rewrite <- app_assoc. exact Hnodup.
        -- rewrite Hheap. exact Hold.
        -- rewrite Hheap. exact Hrep.
Qed.

Lemma DetectHTTP_reported baseURL fingerprints (st : Machine World) :
  let out := DetectHTTP baseURL fingerprints st in
  heap st ⊆ heap out.2
  ∧ reportedBy fingerprints (heap st) out.1.1 (heap out.2)
  ∧ NoDup out.1.2
  ∧ (∀ path, path ∈ out.1.2 → path ∈ pc_Path <$> ClassifyByPath fingerprints).
Proof.
  unfold DetectHTTP. apply rangeClassifications_reported.
  - intros pc t p [key Hpc]%ClassifyByPath_elem Hin.
    apply declared_probesOf.
    apply (proj1 (proj2 (classifyAll_classified fingerprints)) key pc t p Hpc Hin).
  - auto.
  - simpl. rewrite ClassifyByPath_paths. apply NoDup_fst_map_to_list.
  - intros path Hin. inversion Hin.
  - reflexivity.
  - intros t l Hlook. rewrite lookup_empty in Hlook. discriminate.
Qed.


Lemma detectTechnology_step ctx (results : Results) t probes (st : Machine World) :
  detectTechnology ctx results (t, probes) st
  = match rangeProbes probes ctx with
    | None => (results, st)
    | Some v =>
        (<[t := fresh (dom (heap st))]> results,
         mkMachine (world st) (<[fresh (dom (heap st)) := mkTechnology t v]> (heap st)))
    end.
Proof. unfold detectTechnology. simpl. destruct (rangeProbes probes ctx); reflexivity. Qed.

Lemma detectTechnology_other ctx (technologies : list (string * list PathProbe)) t :
  t ∉ technologies.*1 →
  ∀ (results : Results) (st : Machine World),
    (foldM (detectTechnology ctx) results technologies st).1 !! t = results !! t.
Proof.
  induction technologies as [ | [t' probes] rest IH]; intros Hnotin results st;
    [reflexivity | ].
  rewrite fmap_cons in Hnotin. apply not_elem_of_cons in Hnotin as [Hne Hnotin].
  cbn [foldM]. run_machine. rewrite detectTechnology_step.
  destruct (rangeProbes probes ctx); rewrite (IH Hnotin); [ | reflexivity].
  apply lookup_insert_ne. congruence.
Qed.

Lemma detectTechnology_keeps ctx (technologies : list (string * list PathProbe)) :
  ∀ (results : Results) (st : Machine World),
    heap st ⊆ heap (foldM (detectTechnology ctx) results technologies st).2.
Proof.
  induction technologies as [ | [t probes] rest IH]; intros results st; [reflexivity | ].
  cbn [foldM]. run_machine. rewrite detectTechnology_step.
  destruct (rangeProbes probes ctx); [ | apply IH].
  etrans; [ | apply IH]. simpl. apply insert_subseteq, not_elem_of_dom, is_fresh.
Qed.

(** What a fetched path does to the results.  A technology of the path one
    of whose probes matches the response gets a record made then, with the
    version of its first matching probe: an entry it had from an earlier
    path is replaced, version and all.  A technology of the path none of
    whose probes matches keeps the entry it had, if any. *)
Theorem fetched_path_decides ctx pc (results : Results) (st : Machine World) t probes :
  Technologies pc !! t = Some probes →
  let out := foldM (detectTechnology ctx) results (map_to_list (Technologies pc)) st in
  match rangeProbes probes ctx with
  | Some v =>
      ∃ l, out.1 !! t = Some l ∧ heap st !! l = None
           ∧ heap out.2 !! l = Some (mkTechnology t v)
  | None => out.1 !! t = results !! t
  end.
Proof.
  intros Hlook%elem_of_map_to_list.
  pose proof (NoDup_fst_map_to_list (Technologies pc)) as Hnodup.
  revert results st Hlook Hnodup.
  induction (map_to_list (Technologies pc)) as [ | [t' probes'] rest IH];
    intros results st Hin Hnodup; [inversion Hin | ].
  rewrite fmap_cons in Hnodup. apply NoDup_cons in Hnodup as [Hnotin Hnodup].
  cbv zeta. cbn [foldM]. run_machine. rewrite detectTechnology_step.
  apply elem_of_cons in Hin as [[= <- <-] | Hin].
  - destruct (rangeProbes probes ctx) as [v | ].
    + exists (fresh (dom (heap st))).
      rewrite (detectTechnology_other ctx rest t Hnotin), lookup_insert_eq.
      split; [reflexivity | ]. split; [apply not_elem_of_dom, is_fresh | ].
      eapply lookup_weaken; [ | apply detectTechnology_keeps].
      simpl. apply lookup_insert_eq.
    + apply detectTechnology_other, Hnotin.
  - assert (Hne : t ≠ t').
    { intros ->. apply Hnotin, list_elem_of_fmap. exists (t', probes). auto. }
    destruct (rangeProbes probes' ctx) as [v' | ].
    + specialize (IH (<[t' := fresh (dom (heap st))]> results)
                    (mkMachine (world st)
                       (<[fresh (dom (heap st)) := mkTechnology t' v']> (heap st)))
                    Hin Hnodup).
      cbv zeta in IH. destruct (rangeProbes probes ctx) as [v | ].
      * destruct IH as (l & H1 & H2 & H3). exists l.
        split; [exact H1 | ]. split; [ | exact H3].
        simpl in H2. apply lookup_insert_None in H2 as [H2 _]. exact H2.
      * rewrite IH. apply lookup_insert_ne. congruence.
    + apply (IH results st Hin Hnodup).
Qed.

End DetectHTTPProperties.

(** Alpha, found with version 1.0 on an earlier path, is found again on a
    page that gives no version. *)
Lemma fetched_path_decides_witness :
  let pc := mkPathClassification "/" None {[ "Alpha" := [getProbe] ]} in
  let results : Results := {[ "Alpha" := 1%positive ]} in
  let st := mkMachine (mkNet [] []) {[ 1%positive := mkTechnology "Alpha" "1.0" ]} in
  let out := foldM (detectTechnology (RL := literalRegexp)
                      (mkDetectionContext "alpha" ∅ 200))
               results (map_to_list (Technologies pc)) st in
  Technologies pc !! "Alpha" = Some [getProbe]
  ∧ ∃ l, out.1 !! "Alpha" = Some l ∧ heap st !! l = None
         ∧ heap out.2 !! l = Some (mkTechnology "Alpha" "").
Proof.
  split; [reflexivity | ].
  exact (fetched_path_decides (RL := literalRegexp) (mkDetectionContext "alpha" ∅ 200)
           (mkPathClassification "/" None {[ "Alpha" := [getProbe] ]})
           {[ "Alpha" := 1%positive ]}
           (mkMachine (mkNet [] []) {[ 1%positive := mkTechnology "Alpha" "1.0" ]})
           "Alpha" [getProbe] eq_refl).
Defined.

(** ** http_detector.go: the order of the probes of a group *)

Lemma doneAt_app done t p techName path :
  doneAt (done ++ [(t, p)]) techName path
  = (doneAt done techName path
       ++ if decide (t = techName ∧ Path p = path) then [p] else [])%list.
Proof.
  unfold doneAt. rewrite filter_app, fmap_app. f_equal.
  destruct (decide (t = techName ∧ Path p = path)) as [Hyes | Hno].
  - rewrite filter_cons_True by exact Hyes. reflexivity.
  - rewrite filter_cons_False by exact Hno. reflexivity.
Qed.

Lemma ordered_step pathMap done techName probe :
  ordered pathMap done →
  ordered (classifyProbe techName pathMap probe) (done ++ [(techName, probe)]).
Proof.
  intros [Hsome Hnone]. split.
  - intros key pc t. rewrite classifyProbe_lookup, doneAt_app.
    destruct (decide (key = Path probe)) as [-> | Hne].
    + intros [= <-]. unfold appendProbe. cbn [Technologies].
      assert (Hold : default [] (Technologies
                        (default (mkPathClassification (Path probe) (Request probe) ∅)
                           (pathMap !! Path probe)) !! t)
                     = doneAt done t (Path probe)
                     ∧ Technologies
                         (default (mkPathClassification (Path probe) (Request probe) ∅)
                            (pathMap !! Path probe)) !! t ≠ Some []).
      { destruct (pathMap !! Path probe) as [pc0 | ] eqn:Hlook.
        - apply (Hsome _ _ t Hlook).
        - simpl. rewrite lookup_empty, (Hnone _ t Hlook). split; [reflexivity | discriminate]. }
      destruct Hold as [Hold Hnonempty].
      destruct (decide (techName = t)) as [-> | Hne].
      * rewrite lookup_insert_eq, decide_True by auto. simpl. rewrite Hold.
        split; [reflexivity | ]. intros [= Hnil]. apply app_eq_nil in Hnil as [_ Hnil].
        discriminate.
      * rewrite lookup_insert_ne by congruence.
        rewrite decide_False by (intros [? _]; congruence).
        rewrite app_nil_r. split; [exact Hold | exact Hnonempty].
    + intros Hlook. rewrite decide_False by (intros [_ ?]; congruence).
      rewrite app_nil_r. apply (Hsome _ _ t Hlook).
  - intros key t. rewrite classifyProbe_lookup, doneAt_app.
    destruct (decide (key = Path probe)) as [-> | Hne]; [discriminate | ].
    intros Hlook. rewrite decide_False by (intros [_ ?]; congruence).
    rewrite app_nil_r. apply (Hnone _ t Hlook).
Qed.

Lemma ordered_foldl (probes : list (string * PathProbe)) :
  ∀ pathMap done,
    ordered pathMap done →
    ordered (foldl (λ pm tp, classifyProbe tp.1 pm tp.2) pathMap probes) (done ++ probes).
Proof.
  induction probes as [ | [t p] probes IH]; intros pathMap done Hord.
  - simpl. rewrite app_nil_r. exact Hord.
  - simpl. rewrite (cons_middle (t, p)), app_assoc. apply IH, ordered_step, Hord.
Qed.

Lemma doneAt_declared (l : list (string * Fingerprint)) techName path :
  NoDup l.*1 →
  doneAt (l ≫= λ kv, pair kv.1 <$> Paths kv.2) techName path
  = filter (λ p, Path p = path)
      (from_option Paths [] ((list_to_map l : gmap string Fingerprint) !! techName)).
Proof.
  assert (Hone : ∀ t (probes : list PathProbe),
             (filter (λ tp : string * PathProbe, tp.1 = techName ∧ Path tp.2 = path)
                (pair t <$> probes)).*2
             = if decide (t = techName) then filter (λ p, Path p = path) probes else []).
  { intros t probes. induction probes as [ | p probes IH].
    - destruct (decide (t = techName)); reflexivity.
    - rewrite fmap_cons. destruct (decide (t = techName)) as [-> | Hne].
      + destruct (decide (Path p = path)) as [Hp | Hp].
        * rewrite !filter_cons_True by auto. rewrite fmap_cons, IH. reflexivity.
        * rewrite !filter_cons_False by (try intros [_ ?]; auto). exact IH.
      + rewrite filter_cons_False by (intros [? _]; auto). exact IH. }
  induction l as [ | [t fp] l IH]; intros Hnodup.
  - reflexivity.
  - rewrite fmap_cons in Hnodup. apply NoDup_cons in Hnodup as [Hnotin Hnodup].
    rewrite bind_cons. unfold doneAt in *. rewrite filter_app, fmap_app, Hone, (IH Hnodup).
    cbn [list_to_map foldr fst snd]. simpl.
    destruct (decide (t = techName)) as [-> | Hne].
    + rewrite lookup_insert_eq. simpl.
      rewrite (not_elem_of_list_to_map_1 _ _ Hnotin). simpl. apply app_nil_r.
    + rewrite lookup_insert_ne by congruence. reflexivity.
Qed.

(** A group of [ClassifyByPath] holds, for each technology, the probes the
    technology declares at the path of the group, all of them and in the
    order of their declaration; a technology with no probe at that path has
    no entry in the group, and no entry is an empty list. *)
Theorem classification_keeps_probe_order fingerprints pc t :
  pc ∈ ClassifyByPath fingerprints →
  default [] (Technologies pc !! t) = probesAt fingerprints t (pc_Path pc)
  ∧ Technologies pc !! t ≠ Some [].
Proof.
  intros [key Hpc]%ClassifyByPath_elem.
  destruct (proj1 (classifyAll_classified fingerprints) key pc Hpc) as [Hkey _].
  rewrite classifyAll_flat in Hpc.
  destruct (ordered_foldl (probesOf fingerprints) ∅ []) as [Hsome _].
  { split; [intros ? ? ?; rewrite lookup_empty; discriminate | reflexivity]. }
  destruct (Hsome key pc t Hpc) as [Hlist Hnonempty].
  split; [ | exact Hnonempty].
  rewrite Hlist, Hkey. unfold probesOf, probesAt. simpl.
  rewrite doneAt_declared by apply NoDup_fst_map_to_list.
  rewrite list_to_map_to_list. reflexivity.
Qed.

(** The group of [/] of the two technologies that probe it. *)
Lemma classification_keeps_probe_order_witness :
  let pc := mkPathClassification "/" None {[ "Alpha" := [getProbe]; "Beta" := [postProbe] ]} in
  pc ∈ ClassifyByPath twoShapes
  ∧ default [] (Technologies pc !! "Beta") = probesAt twoShapes "Beta" "/"
  ∧ Technologies pc !! "Beta" ≠ Some [].
Proof.
  assert (Hin : mkPathClassification "/" None
                  {[ "Alpha" := [getProbe]; "Beta" := [postProbe] ]}
                ∈ ClassifyByPath twoShapes).
  { vm_compute. apply list_elem_of_here. }
  split; [exact Hin | ].
  exact (classification_keeps_probe_order twoShapes _ "Beta" Hin).
Defined.

(** ** browser_detector.go: when the browser stage does nothing *)

Section BrowserIdle.
Context {World : Type} {CD : Chromedp World}.

(** The probes of a technology of which no probe can tell anything new are
    all skipped: no script is evaluated, and the results, the records and
    the browser are left as they are. *)
Theorem idle_probes_not_run techName (probes : list BrowserProbe) (results : Results)
    (st : Machine World) :
  idle techName probes results (heap st) →
  rangeBrowserProbes techName probes results st = (results, st).
Proof.
  unfold idle. induction probes as [ | probe rest IH]; intros Hidle; [reflexivity | ].
  cbn [rangeBrowserProbes]. unfold ShouldRunBrowserDetection, loadVersion,
    HasDetectionCapability, HasVersionCapability. run_machine.
  destruct (results !! techName) as [tech | ] eqn:Hlook.
  - destruct Hidle as [Hversion | Hall].
    + destruct (String.eqb_spec (from_option Version "" (heap st !! tech)) "")
        as [Hempty | _]; [contradiction | ].
      simpl. apply IH. left. exact Hversion.
    + apply Forall_cons in Hall as [Hprobe Hall]. rewrite Hprobe.
      destruct (String.eqb (from_option Version "" (heap st !! tech)) ""); simpl;
        apply IH; right; exact Hall.
  - apply Forall_cons in Hidle as [Hprobe Hall]. rewrite Hprobe. simpl.
    apply IH. exact Hall.
Qed.

Lemma copy_results (httpResults : Results) :
  map_fold (λ k (v : loc) (results : Results), <[k := v]> results) ∅ httpResults
  = httpResults.
Proof.
  apply (map_fold_weak_ind (λ r m, r = m)); [reflexivity | ].
  intros k v m r Hk ->. reflexivity.
Qed.

Lemma no_browser_probes (fingerprints : gmap string Fingerprint) :
  (∀ t fp, fingerprints !! t = Some fp → Browser fp = []) →
  ClassifyBrowserByPath fingerprints = [].
Proof.
  intros Hnone. unfold ClassifyBrowserByPath.
  assert (Hfold : ∀ (l : list (string * Fingerprint)) pathMap,
             (∀ kv, kv ∈ l → Browser kv.2 = []) →
             foldl (λ pathMap kv, foldl (classifyBrowserProbe kv.1) pathMap (Browser kv.2))
               pathMap l = pathMap).
  { induction l as [ | kv l IH]; intros pathMap Hall; [reflexivity | ].
    simpl. rewrite (Hall kv) by apply list_elem_of_here. simpl.
    apply IH. intros kv' Hin. apply Hall, list_elem_of_further, Hin. }
  rewrite Hfold.
  - rewrite map_to_list_empty. reflexivity.
  - intros [t fp] Hin%elem_of_map_to_list. apply (Hnone t fp Hin).
Qed.

(** With no browser probe in the rule store, [DetectBrowser] returns the
    map it is given and touches neither the browser nor a record. *)
Theorem browser_stage_without_probes baseURL fingerprints (httpResults : Results)
    (st : Machine World) :
  (∀ t fp, fingerprints !! t = Some fp → Browser fp = []) →
  DetectBrowser baseURL fingerprints httpResults st = (Ok httpResults, st).
Proof.
  intros Hnone. unfold DetectBrowser.
  rewrite copy_results, (no_browser_probes fingerprints Hnone). reflexivity.
Qed.

(** With a browser that opens no page, [DetectBrowser] returns the map it
    is given, and no record is made or changed. *)
Theorem browser_stage_offline baseURL fingerprints (httpResults : Results)
    (st : Machine World) :
  (∀ url w, (Navigate url w).1 ≠ None) →
  ∃ st', DetectBrowser baseURL fingerprints httpResults st = (Ok httpResults, st')
         ∧ heap st' = heap st.
Proof.
  intros Hfail. unfold DetectBrowser. rewrite copy_results.
  destruct (length _ =? 0)%nat; run_machine; [eauto | ].
  assert (Hfold : ∀ (l : list BrowserPathClassification) (s : Machine World),
             (foldM (browsePath baseURL) httpResults l s).1 = httpResults
             ∧ heap (foldM (browsePath baseURL) httpResults l s).2 = heap s).
  { induction l as [ | pc l IH]; intros s; [split; reflexivity | ].
    cbn [foldM]. run_machine. unfold browsePath at 1 3. run_machine.
    specialize (Hfail (TrimSuffix baseURL "/" +:+ bpc_Path pc) (world s)).
    destruct (Navigate _ (world s)) as [[err | ] w1]; [ | contradiction].
    simpl. apply (IH (mkMachine w1 (heap s))). }
  destruct (Hfold (ClassifyBrowserByPath fingerprints) st) as [H1 H2].
  destruct (foldM (browsePath baseURL) httpResults _ st) as [results st'].
  simpl in H1, H2. subst results. eauto.
Qed.

End BrowserIdle.

(** React with its version known, and a probe that could read a version. *)
Lemma idle_probes_not_run_witness :
  let st := mkMachine (mkNet [] []) {[ 1%positive := mkTechnology "React" "18.2.0" ]} in
  let probes := [mkBrowserProbe "/" "return !!window.React" "return React.version"] in
  idle "React" probes reactResults (heap st)
  ∧ rangeBrowserProbes (CD := headless) "React" probes reactResults st = (reactResults, st).
Proof.
  assert (Hidle : idle "React"
                    [mkBrowserProbe "/" "return !!window.React" "return React.version"]
                    reactResults {[ 1%positive := mkTechnology "React" "18.2.0" ]}).
  { left. vm_compute. discriminate. }
  split; [exact Hidle | ].
  exact (idle_probes_not_run (CD := headless) "React" _ reactResults
           (mkMachine (mkNet [] []) {[ 1%positive := mkTechnology "React" "18.2.0" ]})
           Hidle).
Defined.

(** The three technologies probed over HTTP only. *)
Lemma browser_stage_without_probes_witness :
  (∀ t fp, threePaths !! t = Some fp → Browser fp = [])
  ∧ DetectBrowser (CD := headless) "http://a.test" threePaths ∅ start = (Ok ∅, start).
Proof.
  assert (Hnone : ∀ t fp, threePaths !! t = Some fp → Browser fp = []).
  { apply (proj2 (map_Forall_to_list (λ _ fp, Browser fp = []) threePaths)).
    vm_compute. repeat constructor. }
  split; [exact Hnone | ].
  exact (browser_stage_without_probes (CD := headless) "http://a.test" threePaths ∅ start
           Hnone).
Defined.

(** React and Vue, with the browser that opens no page. *)
Lemma browser_stage_offline_witness :
  (∀ url w, (Navigate (Chromedp := offline) url w).1 ≠ None)
  ∧ ∃ st', DetectBrowser (CD := offline) "http://a.test/" reactAndVue reactResults
             reactDetected = (Ok reactResults, st')
           ∧ heap st' = heap reactDetected.
Proof.
  assert (Hfail : ∀ url w, (Navigate (Chromedp := offline) url w).1 ≠ None)
    by (intros url w; discriminate).
  split; [exact Hfail | ].
  exact (browser_stage_offline (CD := offline) "http://a.test/" reactAndVue reactResults
           reactDetected Hfail).
Defined.

(** ** detector.go: the result of a run *)

Lemma named_new (results : Results) (h : gmap loc Technology) techName v :
  named results h →
  named (<[techName := fresh (dom h)]> results)
    (<[fresh (dom h) := mkTechnology techName v]> h).
Proof.
  intros Hnamed t l Hlook. destruct (decide (t = techName)) as [-> | Hne].
  - rewrite lookup_insert_eq in Hlook. injection Hlook as <-.
    exists v. apply lookup_insert_eq.
  - rewrite lookup_insert_ne in Hlook by congruence.
    destruct (Hnamed t l Hlook) as [v' Hl]. exists v'.
    rewrite lookup_insert_ne; [exact Hl | ].
    intros <-. apply (is_fresh (dom h)), elem_of_dom. eauto.
Qed.

Lemma named_store (results : Results) (h : gmap loc Technology) tech v :
  named results h → named results (alter (λ t, mkTechnology (Name t) v) tech h).
Proof.
  intros Hnamed t l Hlook. destruct (Hnamed t l Hlook) as [v' Hl].
  destruct (decide (l = tech)) as [-> | Hne].
  - rewrite lookup_alter_eq, Hl. simpl. eauto.
  - rewrite lookup_alter_ne by congruence. eauto.
Qed.

Section RunProperties.
Context {World : Type} {HL : HTTPLib World} {CD : Chromedp World} {RL : RegexpLib}.

Lemma foldM_named {B} (f : Results → B → M World Results) (l : list B) :
  (∀ results x st, named results (heap st) →
                   named (f results x st).1 (heap (f results x st).2)) →
  ∀ results st, named results (heap st) →
                named (foldM f results l st).1 (heap (foldM f results l st).2).
Proof.
  intros Hf. induction l as [ | x l IH]; intros results st Hnamed; [exact Hnamed | ].
  simpl. run_machine. pose proof (Hf results x st Hnamed) as Hstep.
  destruct (f results x st) as [results' st1]. simpl in Hstep. apply IH, Hstep.
Qed.

Lemma rangeBrowserProbes_named techName (probes : list BrowserProbe) :
  ∀ (results : Results) (st : Machine World),
    named results (heap st) →
    named (rangeBrowserProbes techName probes results st).1
      (heap (rangeBrowserProbes techName probes results st).2).
Proof.
  induction probes as [ | probe probes IH]; intros results st Hnamed; [exact Hnamed | ].
  assert (Hrest : ∀ w,
            named (rangeBrowserProbes techName probes results (mkMachine w (heap st))).1
              (heap (rangeBrowserProbes techName probes results (mkMachine w (heap st))).2))
    by (intros w; apply (IH results (mkMachine w (heap st))), Hnamed).
  assert (Hhere : named (rangeBrowserProbes techName probes results st).1
                    (heap (rangeBrowserProbes techName probes results st).2))
    by apply IH, Hnamed.
  simpl. unfold ShouldRunBrowserDetection, loadVersion, storeVersion, new.
  run_machine.
  repeat (case_match; simplify_eq; simpl in *);
    try exact Hnamed; try apply Hrest; try exact Hhere;
    try (apply named_new; assumption);
    try (apply named_store; assumption).
Qed.

Lemma DetectBrowser_named baseURL fingerprints (httpResults : Results)
    (st : Machine World) :
  named httpResults (heap st) →
  ∃ results st',
    DetectBrowser baseURL fingerprints httpResults st = (Ok results, st')
    ∧ named results (heap st').
Proof.
  intros Hnamed. unfold DetectBrowser. rewrite copy_results.
  destruct (length _ =? 0)%nat; run_machine; [eauto | ].
  assert (Hfold : named (foldM (browsePath baseURL) httpResults
                           (ClassifyBrowserByPath fingerprints) st).1
                    (heap (foldM (browsePath baseURL) httpResults
                             (ClassifyBrowserByPath fingerprints) st).2)).
  { apply foldM_named; [ | exact Hnamed].
    intros results pc s Hres. unfold browsePath. run_machine.
    destruct (Navigate _ (world s)) as [[err | ] w1]; simpl; [exact Hres | ].
    destruct (WaitReady _ w1) as [[err | ] w2]; simpl; [exact Hres | ].
    apply (foldM_named (λ results kv, rangeBrowserProbes kv.1 kv.2 results)).
    - intros r kv s' Hr. apply rangeBrowserProbes_named, Hr.
    - exact Hres. }
  destruct (foldM (browsePath baseURL) httpResults _ st) as [results st'].
  eauto.
Qed.

Lemma load_all (l : list (string * loc)) :
  ∀ techs (st : Machine World),
    foldM (λ techs kv, tech ← load kv.2; mret (techs ++ [tech])%list) techs l st
    = ((techs ++ ((λ kv, from_option id (mkTechnology "" "") (heap st !! kv.2)) <$> l))%list,
       st).
Proof.
  induction l as [ | kv l IH]; intros techs st.
  - simpl. rewrite app_nil_r. reflexivity.
  - cbn [foldM]. unfold load at 1. run_machine. rewrite IH, <- app_assoc. reflexivity.
Qed.

(** A run of [Detect], with the browser or without it, gives a result: a
    list of technologies with no name twice, that holds with each
    technology every technology its fingerprint implies, beside the failed
    paths of the HTTP stage. *)
Theorem Detect_result fingerprints url useBrowser (st : Machine World) :
  ∃ result st',
    Detect fingerprints url useBrowser st = (Some result, st')
    ∧ NoDup (Name <$> dr_Technologies result)
    ∧ (∀ tech fp implied,
         tech ∈ dr_Technologies result → fingerprints !! Name tech = Some fp →
         implied ∈ Implies fp → implied ∈ Name <$> dr_Technologies result)
    ∧ FailedPaths result = (DetectHTTP url fingerprints st).1.2.
Proof.
  unfold Detect. run_machine.
  pose proof (DetectHTTP_reported url fingerprints st) as Hhttp.
  destruct (DetectHTTP url fingerprints st) as [[httpResults failedPaths] st1].
  cbv zeta in Hhttp. simpl in Hhttp. destruct Hhttp as (_ & Hrep & _ & _).
  assert (Hnamed1 : named httpResults (heap st1)).
  { intros t l Hlook. destruct (Hrep t l Hlook) as (_ & _ & _ & v & _ & _ & Hl). eauto. }
  assert (Hfinal : ∃ finalResults st2,
             (if useBrowser
              then let '(br, st') := DetectBrowser url fingerprints httpResults st1 in
                   match br with
                   | Ok browserResults => (browserResults, st')
                   | Err _ => (httpResults, st')
                   end
              else (httpResults, st1)) = (finalResults, st2)
             ∧ named finalResults (heap st2)).
  { destruct useBrowser; [ | eauto].
    destruct (DetectBrowser_named url fingerprints httpResults st1 Hnamed1)
      as (results & st2 & Hrun & Hnamed2).
    rewrite Hrun. eauto. }
  destruct Hfinal as (finalResults & st2 & Hrun & Hnamed2).
  simpl. 
  match goal with
  | |- context [let '(a, st') := ?stage in _] =>
      replace stage with (finalResults, st2)
        by (rewrite <- Hrun; destruct useBrowser; [ | reflexivity];
            destruct (DetectBrowser url fingerprints httpResults st1) as [[? | ?] ?];
            reflexivity)
  end.
  destruct (closureLoop_ends fingerprints _ finalResults st2
              (impliedSet_size fingerprints finalResults))
    as (closed & st3 & Hloop & Hext & _ & Hclosed).
  unfold addImpliedTechnologies. rewrite Hloop. rewrite load_all.
  destruct Hext as (Hsub & Hheap & _ & _ & _ & _ & _ & Hnew).
  simpl in Hsub, Hheap, Hnew.
  assert (Hnamed3 : named closed (heap st3)).
  { intros t l Hlook. destruct (finalResults !! t) as [l' | ] eqn:Hold.
    - pose proof (lookup_weaken _ _ _ _ Hold Hsub) as Hsame.
      assert (l' = l) by congruence. subst l'.
      destruct (Hnamed2 t l Hold) as [v Hl]. exists v.
      eapply lookup_weaken; eassumption.
    - exists "". apply Hnew; assumption. }
  assert (Hnames : Name <$> ((λ kv : string * loc,
                                from_option id (mkTechnology "" "") (heap st3 !! kv.2))
                             <$> map_to_list closed)
                   = (map_to_list closed).*1).
  { rewrite <- list_fmap_compose. apply list_fmap_ext.
    intros i [t l] Hin%list_elem_of_lookup_2%elem_of_map_to_list. simpl.
    destruct (Hnamed3 t l Hin) as [v Hl]. rewrite Hl. reflexivity. }
  eexists _, st3. split; [reflexivity | ]. cbn [dr_Technologies FailedPaths app].
  rewrite Hnames. split; [apply NoDup_fst_map_to_list | ]. split; [ | reflexivity].
  intros tech fp implied Htech Hfp Himplied.
  assert (Hin : Name tech ∈ (map_to_list closed).*1).
  { rewrite <- Hnames. apply list_elem_of_fmap. eauto. }
  apply list_elem_of_fmap in Hin as ([t l] & Heq & Hin%elem_of_map_to_list).
  simpl in Heq. subst t.
  destruct (Hclosed (Name tech) fp implied (mk_is_Some _ _ Hin) Hfp Himplied) as [l' Hl'].
  apply list_elem_of_fmap. exists (implied, l'). split; [reflexivity | ].
  apply elem_of_map_to_list, Hl'.
Qed.

End RunProperties.

(** ** loader.go: the rule store *)

Section LoaderProperties.
Context {FS : FileSystem}.

Lemma mergeFingerprints_union (allFingerprints fingerprints : gmap string Fingerprint) :
  mergeFingerprints allFingerprints fingerprints = fingerprints ∪ allFingerprints.
Proof.
  unfold mergeFingerprints.
  apply (map_fold_weak_ind (λ r m, r = m ∪ allFingerprints)).
  - rewrite (left_id_L ∅ (∪)). reflexivity.
  - intros name fp m r Hname ->. rewrite insert_union_l. reflexivity.
Qed.

Lemma rangeFiles_merges (files : list string) :
  (∀ file, file ∈ files → ∃ apps, loadFile file = Ok apps) →
  ∀ allFingerprints,
    ∃ loaded,
      rangeFiles files allFingerprints = Ok loaded
      ∧ ∀ name fp,
          loaded !! name = Some fp
          ↔ (∃ i file apps,
               files !! i = Some file ∧ loadFile file = Ok apps ∧ apps !! name = Some fp
               ∧ ∀ j file' apps', i < j → files !! j = Some file' →
                                  loadFile file' = Ok apps' → apps' !! name = None)
            ∨ (allFingerprints !! name = Some fp
               ∧ ∀ j file' apps', files !! j = Some file' →
                                  loadFile file' = Ok apps' → apps' !! name = None).
Proof.
  induction files as [ | file rest IH]; intros Hloads allFingerprints.
  - exists allFingerprints. split; [reflexivity | ]. intros name fp. split.
    + intros Hlook. right. split; [exact Hlook | ]. intros j file' apps' Hj. discriminate.
    + intros [(i & file & apps & Hi & _) | [Hlook _]]; [discriminate | exact Hlook].
  - destruct (Hloads file) as [apps Hfile]; [apply list_elem_of_here | ].
    destruct (IH (λ f Hf, Hloads f (list_elem_of_further _ _ _ Hf))
                (mergeFingerprints allFingerprints apps)) as (loaded & Hrun & Hspec).
    exists loaded. cbn [rangeFiles]. rewrite Hfile. split; [exact Hrun | ].
    intros name fp. rewrite Hspec, mergeFingerprints_union. clear Hspec. split.
    + intros [(i & file' & apps' & Hi & Hload & Hname & Hlater)
             | [Hlook Hnone]].
      * left. exists (S i), file', apps'. split; [exact Hi | ]. split; [exact Hload | ].
        split; [exact Hname | ]. intros [ | j] f a Hlt Hj Hf; [lia | ].
        apply (Hlater j f a); [lia | exact Hj | exact Hf].
      * apply lookup_union_Some_raw in Hlook as [Hhere | [Hnot Hold]].
        -- left. exists 0, file, apps. split; [reflexivity | ]. split; [exact Hfile | ].
           split; [exact Hhere | ]. intros [ | j] f a Hlt Hj Hf; [lia | ].
           apply (Hnone j f a Hj Hf).
        -- right. split; [exact Hold | ]. intros [ | j] f a Hj Hf.
           ++ injection Hj as <-. congruence.
           ++ apply (Hnone j f a Hj Hf).
    + intros [(i & file' & apps' & Hi & Hload & Hname & Hlater) | [Hlook Hnone]].
      * destruct i as [ | i].
        -- injection Hi as <-. assert (apps' = apps) by congruence. subst apps'.
           right. split; [apply lookup_union_Some_raw; left; exact Hname | ].
           intros j f a Hj Hf. apply (Hlater (S j) f a); [lia | exact Hj | exact Hf].
        -- left. exists i, file', apps'. split; [exact Hi | ]. split; [exact Hload | ].
           split; [exact Hname | ]. intros j f a Hlt Hj Hf.
           apply (Hlater (S j) f a); [lia | exact Hj | exact Hf].
      * right. split.
        -- apply lookup_union_Some_raw. right. split; [ | exact Hlook].
           apply (Hnone 0 file apps eq_refl Hfile).
        -- intros j f a Hj Hf. apply (Hnone (S j) f a Hj Hf).
Qed.

(** When every file of the directory loads, the rule store holds under
    each name the fingerprint of the last file that has the name, and no
    name that no file has. *)
Theorem LoadAll_last_file_wins fingerprintsDir files :
  Glob (filepathJoin fingerprintsDir "*.json") = Ok files →
  (∀ file, file ∈ files → ∃ apps, loadFile file = Ok apps) →
  ∃ loaded,
    LoadAll fingerprintsDir = Ok loaded
    ∧ ∀ name fp,
        loaded !! name = Some fp
        ↔ ∃ i file apps,
            files !! i = Some file ∧ loadFile file = Ok apps ∧ apps !! name = Some fp
            ∧ ∀ j file' apps', i < j → files !! j = Some file' →
                               loadFile file' = Ok apps' → apps' !! name = None.
Proof.
  intros Hglob Hloads. unfold LoadAll. rewrite Hglob.
  destruct (rangeFiles_merges files Hloads ∅) as (loaded & Hrun & Hspec).
  exists loaded. split; [exact Hrun | ]. intros name fp. rewrite Hspec. split.
  - intros [Hfile | [Hempty _]]; [exact Hfile | ].
    rewrite lookup_empty in Hempty. discriminate.
  - intros Hfile. left. exact Hfile.
Qed.

Lemma rangeFiles_stops (files : list string) :
  ∀ i file err allFingerprints,
    files !! i = Some file → loadFile file = Err err →
    (∀ j file', j < i → files !! j = Some file' → ∃ apps, loadFile file' = Ok apps) →
    rangeFiles files allFingerprints = Err ("failed to load " +:+ file +:+ ": " +:+ err).
Proof.
  induction files as [ | file0 rest IH]; intros i file err allFingerprints Hi Hfile Hbefore;
    [discriminate | ].
  cbn [rangeFiles]. destruct i as [ | i].
  - injection Hi as ->. rewrite Hfile. reflexivity.
  - destruct (Hbefore 0 file0) as [apps Hload]; [lia | reflexivity | ].
    rewrite Hload. apply (IH i file err); [exact Hi | exact Hfile | ].
    intros j file' Hlt Hj. apply (Hbefore (S j) file'); [lia | exact Hj].
Qed.

(** The first file that fails to load ends the load: [LoadAll] returns
    the error of that file under the file's name and no rule store, not
    even that of the files before it, and no detector is made. *)
Theorem LoadAll_first_failure fingerprintsDir insecureSkipVerify files i file err :
  Glob (filepathJoin fingerprintsDir "*.json") = Ok files →
  files !! i = Some file → loadFile file = Err err →
  (∀ j file', j < i → files !! j = Some file' → ∃ apps, loadFile file' = Ok apps) →
  LoadAll fingerprintsDir = Err ("failed to load " +:+ file +:+ ": " +:+ err)
  ∧ NewDetectorWithOptions fingerprintsDir insecureSkipVerify
    = Err ("failed to load fingerprints: failed to load " +:+ file +:+ ": " +:+ err).
Proof.
  intros Hglob Hi Hfile Hbefore.
  assert (Hload : LoadAll fingerprintsDir
                  = Err ("failed to load " +:+ file +:+ ": " +:+ err)).
  { unfold LoadAll. rewrite Hglob. apply (rangeFiles_stops files i); assumption. }
  split; [exact Hload | ]. unfold NewDetectorWithOptions. rewrite Hload.
  reflexivity.
Qed.

End LoaderProperties.

(** The two files of [rules]: Alpha is that of the second file, Beta that
    of the first. *)
Lemma LoadAll_last_file_wins_witness :
  Glob (FileSystem := disk) (filepathJoin (FileSystem := disk) "rules" "*.json") = Ok ["rules/a.json"; "rules/b.json"]
  ∧ (∀ file, file ∈ ["rules/a.json"; "rules/b.json"] →
             ∃ apps, loadFile (FS := disk) file = Ok apps)
  ∧ ∃ loaded,
      LoadAll (FS := disk) "rules" = Ok loaded
      ∧ ∀ name fp,
          loaded !! name = Some fp
          ↔ ∃ i file apps,
              ["rules/a.json"; "rules/b.json"] !! i = Some file
              ∧ loadFile (FS := disk) file = Ok apps ∧ apps !! name = Some fp
              ∧ ∀ j file' apps', i < j → ["rules/a.json"; "rules/b.json"] !! j = Some file' →
                                 loadFile (FS := disk) file' = Ok apps' →
                                 apps' !! name = None.
Proof.
  assert (Hloads : ∀ file, file ∈ ["rules/a.json"; "rules/b.json"] →
                           ∃ apps, loadFile (FS := disk) file = Ok apps).
  { intros file Hin.
    apply elem_of_cons in Hin as [-> | Hin]; [eexists; reflexivity | ].
    apply elem_of_cons in Hin as [-> | Hin]; [eexists; reflexivity | ].
    inversion Hin. }
  split; [reflexivity | ]. split; [exact Hloads | ].
  exact (LoadAll_last_file_wins (FS := disk) "rules" _ eq_refl Hloads).
Defined.

(** The second file of [broken] is cut short. *)
Lemma LoadAll_first_failure_witness :
  Glob (FileSystem := disk) (filepathJoin (FileSystem := disk) "broken" "*.json")
  = Ok ["broken/a.json"; "broken/b.json"; "broken/c.json"]
  ∧ ["broken/a.json"; "broken/b.json"; "broken/c.json"] !! 1 = Some "broken/b.json"
  ∧ loadFile (FS := disk) "broken/b.json" = Err "unexpected end of JSON input"
  ∧ (∀ j file', j < 1 → ["broken/a.json"; "broken/b.json"; "broken/c.json"] !! j = Some file' →
                ∃ apps, loadFile (FS := disk) file' = Ok apps)
  ∧ LoadAll (FS := disk) "broken"
    = Err "failed to load broken/b.json: unexpected end of JSON input"
  ∧ NewDetectorWithOptions (FS := disk) "broken" false
    = Err "failed to load fingerprints: failed to load broken/b.json: unexpected end of JSON input".
Proof.
  assert (Hbefore : ∀ j file', j < 1 →
                      ["broken/a.json"; "broken/b.json"; "broken/c.json"] !! j = Some file' →
                      ∃ apps, loadFile (FS := disk) file' = Ok apps).
  { intros [ | j] file' Hlt Hj; [ | lia]. injection Hj as <-. eexists. reflexivity. }
  split; [reflexivity | ]. split; [reflexivity | ]. split; [reflexivity | ].
  split; [exact Hbefore | ].
  exact (LoadAll_first_failure (FS := disk) "broken" false _ 1 "broken/b.json"
           "unexpected end of JSON input" eq_refl eq_refl eq_refl Hbefore).
Defined.

(** ** query.go: version extraction *)

Section VersionRules.
Context {RL : RegexpLib}.

Lemma rangeRule_app (rule rule' : list (string * string)) ctx :
  rangeRule (rule ++ rule') ctx
  = match rangeRule rule ctx with
    | Some version => Some version
    | None => rangeRule rule' ctx
    end.
Proof.
  induction rule as [ | [field pattern] rule IH]; [reflexivity | ].
  rewrite <- app_comm_cons. cbn [rangeRule].
  destruct (String.eqb (getFieldValue field ctx) ""); [exact IH | ].
  destruct (Compile pattern) as [re | ]; [ | exact IH].
  destruct (1 <? length (FindStringSubmatch re (getFieldValue field ctx)))%nat;
    [reflexivity | exact IH].
Qed.

Lemma rangeRule_some (rule : list (string * string)) ctx version :
  rangeRule rule ctx = Some version →
  ∃ field pattern re,
    (field, pattern) ∈ rule ∧ getFieldValue field ctx ≠ "" ∧ Compile pattern = Some re
    ∧ (1 < length (FindStringSubmatch re (getFieldValue field ctx)))%nat
    ∧ nth 1 (FindStringSubmatch re (getFieldValue field ctx)) "" = version.
Proof.
  induction rule as [ | [field pattern] rule IH]; [discriminate | ].
  cbn [rangeRule].
  assert (Hrest : rangeRule rule ctx = Some version →
                  ∃ field0 pattern0 re,
                    (field0, pattern0) ∈ (field, pattern) :: rule
                    ∧ getFieldValue field0 ctx ≠ "" ∧ Compile pattern0 = Some re
                    ∧ (1 < length (FindStringSubmatch re (getFieldValue field0 ctx)))%nat
                    ∧ nth 1 (FindStringSubmatch re (getFieldValue field0 ctx)) "" = version).
  { intros (f & p & re & Hin & Hrest)%IH. exists f, p, re.
    split; [apply list_elem_of_further, Hin | exact Hrest]. }
  destruct (String.eqb_spec (getFieldValue field ctx) "") as [Hempty | Hvalue];
    [exact Hrest | ].
  destruct (Compile pattern) as [re | ] eqn:Hre; [ | exact Hrest].
  destruct (1 <? length (FindStringSubmatch re (getFieldValue field ctx)))%nat eqn:Hlen;
    [ | exact Hrest].
  intros [= <-]. exists field, pattern, re. split; [apply list_elem_of_here | ].
  split; [exact Hvalue | ]. split; [exact Hre | ].
  split; [apply Nat.ltb_lt, Hlen | reflexivity].
Qed.

(** [ExtractVersion] reads the fields of its rules in order, as if they
    were the fields of one rule, and a version it returns is the first
    capture group of a pattern of the rules on a field that is not empty. *)
Theorem ExtractVersion_first_capture (rules : list (list (string * string))) ctx :
  ExtractVersion rules ctx = ExtractVersion [concat rules] ctx
  ∧ (ExtractVersion rules ctx ≠ "" →
     ∃ rule field pattern re,
       rule ∈ rules ∧ (field, pattern) ∈ rule
       ∧ getFieldValue field ctx ≠ "" ∧ Compile pattern = Some re
       ∧ (1 < length (FindStringSubmatch re (getFieldValue field ctx)))%nat
       ∧ nth 1 (FindStringSubmatch re (getFieldValue field ctx)) ""
         = ExtractVersion rules ctx).
Proof.
  induction rules as [ | rule rules [IHflat IHsome]].
  - split; [reflexivity | ]. intros Hne. contradiction Hne. reflexivity.
  - cbn [ExtractVersion concat] in *. rewrite rangeRule_app.
    destruct (rangeRule rule ctx) as [version | ] eqn:Hrule.
    + split; [reflexivity | ]. intros _.
      destruct (rangeRule_some rule ctx version Hrule) as (f & p & re & Hin & Hrest).
      exists rule, f, p, re. split; [apply list_elem_of_here | ]. split; assumption.
    + split; [exact IHflat | ]. intros Hne.
      destruct (IHsome Hne) as (r & f & p & re & Hr & Hrest).
      exists r, f, p, re. split; [apply list_elem_of_further, Hr | exact Hrest].
Qed.

End VersionRules.
